(** * Satellite: the client side of a broker-mediated service mesh

    A shallow embedding of the three managers of the satellite node
    ([DiscoveryManager], [TopicManager], [RequestManager]) and of the
    [Satellite] facade that wires them together, followed by the properties
    of the registry indices, of the request coordinator and of the topic
    router.

    JavaScript [Map]s whose iteration order is not observed are finite maps
    ([gmap]); a [Set] is a duplicate-free list in insertion order, since the
    order in which a [Set] is iterated is the order of insertion.  Functions
    stored in the tables (handlers) are compared by reference in JavaScript,
    so a handler is represented by its reference, a number. *)

From Stdlib Require Import ZArith Ascii.
From stdpp Require Import gmap strings list fin_maps.

#[global] Set Warnings "-clear-no-such-hyp".

Open Scope string_scope.
Open Scope list_scope.

(** ** JavaScript values that cross the API *)

Inductive jsval :=
| JUndefined
| JNull
| JBool (b : bool)
| JNum (n : Z)
| JStr (s : string).

#[global] Instance jsval_eq_dec : EqDecision jsval.
Proof. solve_decision. Defined.

(** [Boolean(v)], the test of [if (v)] and of [a || b]. *)
Definition truthy (v : jsval) : bool :=
  match v with
  | JUndefined | JNull => false
  | JBool b => b
  | JNum n => negb (n =? 0)%Z
  | JStr s => negb (String.eqb s EmptyString)
  end.

(** What a [throw] or a rejected promise carries: an error object, of
    which the code reads nothing but the message, or any other value
    ([throw null], [Promise.reject()], [throw "text"]). *)
Inductive thrown :=
| JsError (message : string)
| Thrown (v : jsval).

#[global] Instance thrown_eq_dec : EqDecision thrown.
Proof. solve_decision. Defined.

(** A string where an error is expected is the error object with that
    message, [new Error(message)]; a string where a value is expected is
    that string as a value. *)
Coercion JsError : string >-> thrown.
Coercion JStr : string >-> jsval.

(** A function reference (a handler, a callback). *)
Definition fnref := nat.

(** ** [Set] as an insertion-ordered list *)

Module JsSet.
Section JsSet.
Context {A : Type} `{EqDecision A}.

(** [s.add(x)]: appended at the end unless already present. *)
Definition add (x : A) (s : list A) : list A :=
  if bool_decide (x ∈ s) then s else s ++ [x].

(** [s.delete(x)]. *)
Definition delete (x : A) (s : list A) : list A :=
  filter (λ y, y ≠ x) s.
End JsSet.
End JsSet.

(** ** [Map] where the order of the keys is observed

    [keys()] lists the keys in insertion order; [set] on a present key keeps
    its place. *)

Module JsMap.
Section JsMap.
Context {V : Type}.

Fixpoint get (k : string) (m : list (string * V)) : option V :=
  match m with
  | [] => None
  | (k', v) :: m => if bool_decide (k' = k) then Some v else get k m
  end.

Fixpoint set (k : string) (v : V) (m : list (string * V)) : list (string * V) :=
  match m with
  | [] => [(k, v)]
  | (k', v') :: m =>
      if bool_decide (k' = k) then (k', v) :: m else (k', v') :: set k v m
  end.

Definition delete (k : string) (m : list (string * V)) : list (string * V) :=
  filter (λ kv, kv.1 ≠ k) m.

Definition keys (m : list (string * V)) : list string := m.*1.

Definition values (m : list (string * V)) : list V := m.*2.
End JsMap.
End JsMap.

(** ** The service registry: [DiscoveryManager] *)

Module Discovery.

Record ServiceInfo := {
  id : string;
  name : string;
  type : string;
  capabilities : list string;
  metadata : list (string * jsval)
}.

#[global] Instance ServiceInfo_eq_dec : EqDecision ServiceInfo.
Proof. solve_decision. Defined.

(** What the manager tells the rest of the node. *)
Inductive notice :=
| Emit (event : string) (info : ServiceInfo)
| Debug (msg : string) (info : ServiceInfo).

#[global] Instance notice_eq_dec : EqDecision notice.
Proof. solve_decision. Defined.

Record DiscoveryManager := {
  services : gmap string ServiceInfo;
  servicesByCapability : gmap string (list string);
  servicesByName : gmap string string
}.

(** The state built by the constructor. *)
Definition new : DiscoveryManager :=
  {| services := ∅; servicesByCapability := ∅; servicesByName := ∅ |}.

(** One turn of the capability loop of [handleServiceJoined]. *)
Definition index_capability (sid : string)
    (idx : gmap string (list string)) (capability : string)
    : gmap string (list string) :=
  let idx := if bool_decide (is_Some (idx !! capability)) then idx
             else <[capability := []]> idx in
  match idx !! capability with
  | Some bucket => <[capability := JsSet.add sid bucket]> idx
  | None => idx
  end.

Definition handleServiceJoined (serviceInfo : ServiceInfo)
    (d : DiscoveryManager) : DiscoveryManager * list notice :=
  ({| services := <[id serviceInfo := serviceInfo]> (services d);
      servicesByName := <[name serviceInfo := id serviceInfo]> (servicesByName d);
      servicesByCapability :=
        foldl (index_capability (id serviceInfo))
              (servicesByCapability d) (capabilities serviceInfo) |},
   [Emit "service:discovered" serviceInfo;
    Debug ("Service discovered: " +:+ name serviceInfo) serviceInfo]).

(** One turn of the capability loop of [handleServiceLeft]. *)
Definition unindex_capability (serviceId : string)
    (idx : gmap string (list string)) (capability : string)
    : gmap string (list string) :=
  match idx !! capability with
  | Some bucket =>
      let bucket := JsSet.delete serviceId bucket in
      if (length bucket =? 0)%nat then delete capability idx
      else <[capability := bucket]> idx
  | None => idx
  end.

Definition handleServiceLeft (serviceId : string)
    (d : DiscoveryManager) : DiscoveryManager * list notice :=
  match services d !! serviceId with
  | Some serviceInfo =>
      ({| services := delete serviceId (services d);
          servicesByName := delete (name serviceInfo) (servicesByName d);
          servicesByCapability :=
            foldl (unindex_capability serviceId)
                  (servicesByCapability d) (capabilities serviceInfo) |},
       [Emit "service:lost" serviceInfo;
        Debug ("Service lost: " +:+ name serviceInfo) serviceInfo])
  | None => (d, [])
  end.

(** [servicesByCapability.get(capability) || new Set()]. *)
Definition bucket (d : DiscoveryManager) (capability : string) : list string :=
  default [] (servicesByCapability d !! capability).

(** [Boolean] on the result of [services.get(id)]: a stored record is an
    object, hence truthy; [undefined] is falsy. *)
Definition Boolean (r : option ServiceInfo) : bool :=
  match r with
  | Some _ => true
  | None => false
  end.

(** [Array.from(serviceIds).map(id => this.services.get(id)).filter(Boolean)];
    [None] stands for [undefined]. *)
Definition findServicesByCapability (capability : string)
    (d : DiscoveryManager) : list (option ServiceInfo) :=
  filter (λ r, Boolean r = true)
         ((λ sid, services d !! sid) <$> bucket d capability).

(** [if (serviceId) return services.get(serviceId)]: the empty id is falsy. *)
Definition findServiceByName (n : string) (d : DiscoveryManager)
    : option ServiceInfo :=
  match servicesByName d !! n with
  | Some serviceId =>
      if truthy (JStr serviceId) then services d !! serviceId else None
  | None => None
  end.

Definition findServiceById (i : string) (d : DiscoveryManager)
    : option ServiceInfo :=
  services d !! i.

(** The two broker events that reach the registry. *)
Inductive op :=
| Join (serviceInfo : ServiceInfo)
| Leave (serviceId : string).

Definition apply (d : DiscoveryManager) (o : op) : DiscoveryManager :=
  match o with
  | Join serviceInfo => fst (handleServiceJoined serviceInfo d)
  | Leave serviceId => fst (handleServiceLeft serviceId d)
  end.

(** The registry after a sequence of events, starting from the
    constructor's state. *)
Definition run (ops : list op) : DiscoveryManager := foldl apply new ops.

End Discovery.

(** ** The node and what it does to the outside world *)

(** An inbound call as the transport hands it over: [context.method],
    [context.payload]; [context.success] and [context.error] send the reply
    of this call. *)
Record RequestContext := {
  method : string;
  payload : jsval
}.

(** [message.metadata] of an inbound publication. *)
Record Metadata := {
  timestamp : jsval;
  publisher : jsval
}.

Record Message := {
  topic : string;
  data : jsval;
  metadata : Metadata
}.

(** Everything the node does that another party can observe, in the order
    in which it happens. *)
Inductive effect :=
| ERequest (name : string) (fields : list (string * jsval))
    (* client.request(name, {fields}) *)
| EDisconnect
    (* client.disconnect() *)
| EInvokeSubscriber (h : fnref) (d : jsval) (t : string) (ts pub : jsval)
    (* handler(data, {topic, timestamp, publisher}) *)
| EInvokeMethod (h : fnref) (p : jsval) (context : RequestContext)
    (* methodInfo.handler(payload, context) *)
| ESetTimeout (delay : jsval)
    (* setTimeout(() => reject(new Error('Method timeout')), delay) *)
| ESuccess (context : RequestContext) (result : jsval)
    (* context.success(result) *)
| EError (context : RequestContext) (code : string) (message : jsval)
    (* context.error(code, message) *)
| ERejectPending (request : fnref) (message : string)
    (* request.reject(new Error(message)) *)
| EEmit (event : string)
    (* events.emit(event) *)
| EDiscovery (n : Discovery.notice)
| ELogInfo (msg : string)
| ELogDebug (msg : string)
| ELogError (msg : string) (error : thrown).

#[global] Instance RequestContext_eq_dec : EqDecision RequestContext.
Proof. solve_decision. Defined.

#[global] Instance effect_eq_dec : EqDecision effect.
Proof. solve_decision. Defined.

(** An entry of [RequestManager.methods]. *)
Record MethodInfo := {
  handler : fnref;
  options : gmap string jsval
}.

Record RequestManager := {
  methods : gmap string MethodInfo;
  pendingRequests : list (string * fnref);
  defaultTimeout : Z
}.

(** [subscriptions] maps a topic to [{timestamp, handler}], here a pair. *)
Record TopicManager := {
  subscriptions : list (string * (Z * fnref));
  handlers : gmap string (list fnref)
}.

(** The [Satellite] object the managers reach through [this.service],
    together with the record of what it has done so far. *)
Record Service := {
  topics : TopicManager;
  discovery : Discovery.DiscoveryManager;
  requests : RequestManager;
  ready : bool;
  connected : bool;
  identified : bool;
  trace : list effect;
  calls : nat
}.

(** ** The environment of the node *)

(** How a call to the transport ends. *)
Inductive response :=
| Answer (v : jsval)
| Fail (error : thrown)
| Silent.

(** How the invocation of a topic subscriber ends: the promise it returns
    is fulfilled, it throws or its promise is rejected, or its promise is
    never settled. *)
Inductive outcome :=
| Returns
| Throws (error : thrown)
| Hangs.

(** How the invocation of a method handler ends: it throws before
    returning a promise, or the promise is settled some milliseconds later,
    or never.  What it throws, or rejects its promise with, is any value. *)
Inductive settled :=
| Resolve (result : jsval)
| Reject (error : thrown).

Inductive behaviour :=
| ThrowsNow (error : thrown)
| Settles (after : nat) (r : settled)
| Never.

Record Env := {
  (* the end of the n-th call to the transport *)
  transport : nat → string → list (string * jsval) → response;
  (* [Date.now()] after n calls to the transport *)
  now : nat → Z;
  (* how a topic subscriber ends on (data, topic, timestamp, publisher) *)
  subscriber : fnref → jsval → string → jsval → jsval → outcome;
  (* how a registered method handler ends on (payload, context) *)
  registered : fnref → jsval → RequestContext → behaviour;
  (* the delay in milliseconds that [setTimeout] makes of its argument *)
  timer_delay : jsval → nat;
  (* how [context.success(result)] ends: it returns, or it throws *)
  replied : RequestContext → jsval → option thrown;
  (* the message of the TypeError that the engine raises when a property
     is read of [undefined] or [null] *)
  cannot_read : jsval → string → string
}.

(** ** Asynchronous code: state, exceptions, and promises never settled *)

Inductive result (A : Type) :=
| Ok (a : A)
| Throw (error : thrown)
| Pending.
Arguments Ok {A} a.
Arguments Throw {A} error.
Arguments Pending {A}.

Definition M (A : Type) : Type := Service → result A * Service.

Definition ret {A} (a : A) : M A := λ s, (Ok a, s).

Definition bind {A B} (m : M A) (k : A → M B) : M B :=
  λ s, match m s with
       | (Ok a, s') => k a s'
       | (Throw e, s') => (Throw e, s')
       | (Pending, s') => (Pending, s')
       end.

Definition throw {A} (error : thrown) : M A := λ s, (Throw error, s).

(** [try { m } catch (error) { h error }]. *)
Definition try_catch {A} (m : M A) (h : thrown → M A) : M A :=
  λ s, match m s with
       | (Throw e, s') => h e s'
       | r => r
       end.

Definition get : M Service := λ s, (Ok s, s).

Definition modify (f : Service → Service) : M unit := λ s, (Ok tt, f s).

Notation "x ← m ; k" := (bind m (λ x, k))
  (at level 20, m at level 100, k at level 200, only parsing).
Notation "m ;; k" := (bind m (λ _, k))
  (at level 100, k at level 200, right associativity).

(** [for (const x of xs) await f(x)]. *)
Fixpoint for_each {A} (f : A → M unit) (xs : list A) : M unit :=
  match xs with
| [] => ret tt
| x :: xs => f x ;; for_each f xs
  end.

Definition with_trace (f : list effect → list effect) (s : Service) : Service :=
  {| topics := topics s; discovery := discovery s; requests := requests s;
     ready := ready s; connected := connected s; identified := identified s;
     trace := f (trace s); calls := calls s |}.

Definition with_topics (f : TopicManager → TopicManager) (s : Service) : Service :=
  {| topics := f (topics s); discovery := discovery s; requests := requests s;
     ready := ready s; connected := connected s; identified := identified s;
     trace := trace s; calls := calls s |}.

Definition with_requests (f : RequestManager → RequestManager) (s : Service) : Service :=
  {| topics := topics s; discovery := discovery s; requests := f (requests s);
     ready := ready s; connected := connected s; identified := identified s;
     trace := trace s; calls := calls s |}.

Definition with_discovery
    (f : Discovery.DiscoveryManager → Discovery.DiscoveryManager) (s : Service)
    : Service :=
  {| topics := topics s; discovery := f (discovery s); requests := requests s;
     ready := ready s; connected := connected s; identified := identified s;
     trace := trace s; calls := calls s |}.

Definition emit (e : effect) : M unit := modify (with_trace (λ t, t ++ [e])).

(** The effects that [m] adds when it runs from [s]. *)
Definition emitted {A} (m : M A) (s : Service) : list effect :=
  drop (length (trace s)) (trace (m s).2).

(** [await this.service.client.request(name, {fields})]: the call is the
    n-th one the node makes; the transport answers, fails, or stays silent. *)
Definition client_request (env : Env) (name : string)
    (fields : list (string * jsval)) : M jsval :=
  λ s,
    let s' :=
      {| topics := topics s; discovery := discovery s; requests := requests s;
         ready := ready s; connected := connected s; identified := identified s;
         trace := trace s ++ [ERequest name fields]; calls := S (calls s) |} in
    match transport env (calls s) name fields with
    | Answer v => (Ok v, s')
    | Fail e => (Throw e, s')
    | Silent => (Pending, s')
    end.

(** [await this.service.client.disconnect()]. *)
Definition client_disconnect (env : Env) : M unit :=
  λ s,
    let s' :=
      {| topics := topics s; discovery := discovery s; requests := requests s;
         ready := ready s; connected := connected s; identified := identified s;
         trace := trace s ++ [EDisconnect]; calls := S (calls s) |} in
    match transport env (calls s) "disconnect" [] with
    | Answer v => (Ok tt, s')
    | Fail e => (Throw e, s')
    | Silent => (Pending, s')
    end.

(** ** Publications and subscriptions: [TopicManager] *)

Module Topic.
Section Topic.
Variable env : Env.

Definition new : TopicManager := {| subscriptions := []; handlers := ∅ |}.

Definition subscribe (topic : string) (handler : fnref) : M unit :=
  try_catch
    (client_request env "broker:subscribe" [("topic", JStr topic)] ;;
     modify (with_topics (λ tm,
       let hs := if bool_decide (is_Some (handlers tm !! topic))
                 then handlers tm
                 else <[topic := []]> (handlers tm) in
       {| subscriptions := subscriptions tm;
          handlers := alter (JsSet.add handler) topic hs |})) ;;
     s ← get ;
     modify (with_topics (λ tm,
       {| subscriptions :=
            JsMap.set topic (now env (calls s), handler) (subscriptions tm);
          handlers := handlers tm |})) ;;
     emit (ELogDebug ("Subscribed to topic: " +:+ topic)))
    (λ error,
       emit (ELogError ("Failed to subscribe to topic: " +:+ topic) error) ;;
       throw error).

Definition unsubscribeFromBroker (topic : string) : M unit :=
  try_catch
    (client_request env "broker:unsubscribe" [("topic", JStr topic)] ;;
     modify (with_topics (λ tm,
       {| subscriptions := JsMap.delete topic (subscriptions tm);
          handlers := delete topic (handlers tm) |})))
    (λ error,
       emit (ELogError
         ("Failed to unsubscribe from broker for topic: " +:+ topic) error) ;;
       throw error).

(** [handler] is [None] when the argument is omitted or [null]. *)
Definition unsubscribe (topic : string) (handler : option fnref) : M unit :=
  try_catch
    (match handler with
     | Some h =>
         s ← get ;
         match handlers (topics s) !! topic with
         | Some hs =>
             let hs := JsSet.delete h hs in
             modify (with_topics (λ tm,
               {| subscriptions := subscriptions tm;
                  handlers := <[topic := hs]> (handlers tm) |})) ;;
             if (length hs =? 0)%nat then unsubscribeFromBroker topic
             else ret tt
         | None => ret tt
         end
     | None => unsubscribeFromBroker topic
     end ;;
     emit (ELogDebug ("Unsubscribed from topic: " +:+ topic)))
    (λ error,
       emit (ELogError ("Failed to unsubscribe from topic: " +:+ topic) error) ;;
       throw error).

Definition publish (topic : string) (data : jsval) : M unit :=
  try_catch
    (client_request env "broker:publish" [("topic", JStr topic); ("data", data)] ;;
     emit (ELogDebug ("Published to topic: " +:+ topic)))
    (λ error,
       emit (ELogError ("Failed to publish to topic: " +:+ topic) error) ;;
       throw error).

Definition cleanup : M unit :=
  s ← get ;
  for_each (λ topic, unsubscribe topic None)
           (JsMap.keys (subscriptions (topics s))).

(** [await handler(message.data, {topic, timestamp, publisher})]. *)
Definition call_subscriber (message : Message) (h : fnref) : M unit :=
  emit (EInvokeSubscriber h (data message) (topic message)
          (timestamp (metadata message)) (publisher (metadata message))) ;;
  match subscriber env h (data message) (topic message)
          (timestamp (metadata message)) (publisher (metadata message)) with
  | Returns => ret tt
  | Throws error => throw error
  | Hangs => λ s, (Pending, s)
  end.

(** The listener of ['broker:message'] installed by the constructor. *)
Definition dispatch (message : Message) : M unit :=
  try_catch
    (s ← get ;
     match handlers (topics s) !! topic message with
     | Some hs =>
         for_each (λ h,
           try_catch (call_subscriber message h)
             (λ error,
                emit (ELogError
                  ("Error in topic handler for " +:+ topic message) error)))
           hs
     | None => ret tt
     end)
    (λ error, emit (ELogError "Error handling incoming message" error)).

End Topic.
End Topic.

(** ** Requests between services: [RequestManager] *)

Module Request.
Section Request.
Variable env : Env.

Definition new : RequestManager :=
  {| methods := ∅; pendingRequests := []; defaultTimeout := 30000 |}.

(** [{timeout: this.defaultTimeout, ...options}]: the properties of
    [options] win over the default. *)
Definition registerMethod (name : string) (handler : fnref)
    (options : gmap string jsval) : M unit :=
  s ← get ;
  if bool_decide (is_Some (methods (requests s) !! name)) then
    throw ("Method " +:+ name +:+ " already registered")
  else
    modify (with_requests (λ rm,
      {| methods :=
           <[name := {| handler := handler;
                        options := options ∪
                          {["timeout" := JNum (defaultTimeout rm)]} |}]>
             (methods rm);
         pendingRequests := pendingRequests rm;
         defaultTimeout := defaultTimeout rm |})) ;;
    emit (ELogDebug ("Registered method: " +:+ name)).

Definition unregisterMethod (name : string) : M unit :=
  s ← get ;
  modify (with_requests (λ rm,
    {| methods := delete name (methods rm);
       pendingRequests := pendingRequests rm;
       defaultTimeout := defaultTimeout rm |})) ;;
  if bool_decide (is_Some (methods (requests s) !! name)) then
    emit (ELogDebug ("Unregistered method: " +:+ name))
  else ret tt.

(** [options.timeout || this.defaultTimeout]. *)
Definition request_timeout (options : gmap string jsval) (rm : RequestManager)
    : jsval :=
  let t := default JUndefined (options !! "timeout") in
  if truthy t then t else JNum (defaultTimeout rm).

Definition sendRequest (target : jsval) (method : string) (data : jsval)
    (options : gmap string jsval) : M jsval :=
  try_catch
    (s ← get ;
     response ← client_request env "broker:request"
       [("target", target); ("method", JStr method); ("data", data);
        ("timeout", request_timeout options (requests s))] ;
     ret response)
    (λ error,
       emit (ELogError ("Failed to send request: " +:+ method) error) ;;
       throw error).

Definition sendNotification (target : jsval) (type : string) (data : jsval)
    : M unit :=
  try_catch
    (client_request env "broker:notify"
       [("target", target); ("type", JStr type); ("data", data)] ;;
     emit (ELogDebug ("Sent notification: " +:+ type)))
    (λ error,
       emit (ELogError ("Failed to send notification: " +:+ type) error) ;;
       throw error).

(** *** [Promise.race] of the handler's promise and the timer

    The two promises are settled by events; the race takes the first
    settlement and ignores every later one. *)

Inductive race_event :=
| HandlerResolved (result : jsval)
| HandlerRejected (error : thrown)
| TimerFired.

Inductive promise :=
| Unsettled
| Fulfilled (result : jsval)
| Rejected (error : thrown).

Definition settle (p : promise) (ev : race_event) : promise :=
  match p with
  | Unsettled =>
      match ev with
      | HandlerResolved v => Fulfilled v
      | HandlerRejected e => Rejected e
      | TimerFired => Rejected "Method timeout"
      end
  | _ => p
  end.

Definition handler_event (r : settled) : race_event :=
  match r with
  | Resolve v => HandlerResolved v
  | Reject e => HandlerRejected e
  end.

(** The events of one call in the order in which they happen.  The timer
    is never cleared, so it always fires; the handler is called, and so
    takes its first step, before the timer is armed, so it is first when
    both fall on the same millisecond. *)
Definition schedule (after : option (nat * settled)) (delay : nat)
    : list race_event :=
  match after with
  | Some (t, r) =>
      if (t <=? delay)%nat then [handler_event r; TimerFired]
      else [TimerFired; handler_event r]
  | None => [TimerFired]
  end.

(** [await p]. *)
Definition await (p : promise) : M jsval :=
  match p with
  | Fulfilled v => ret v
  | Rejected e => throw e
  | Unsettled => λ s, (Pending, s)
  end.

(** [await Promise.race([handler(payload, context), new Promise(...)])]. *)
Definition race (mi : MethodInfo) (context : RequestContext) : M jsval :=
  let delay := default JUndefined (options mi !! "timeout") in
  emit (EInvokeMethod (handler mi) (payload context) context) ;;
  match registered env (handler mi) (payload context) context with
  | ThrowsNow error => throw error
  | Settles t r =>
      emit (ESetTimeout delay) ;;
      await (foldl settle Unsettled (schedule (Some (t, r)) (timer_delay env delay)))
  | Never =>
      emit (ESetTimeout delay) ;;
      await (foldl settle Unsettled (schedule None (timer_delay env delay)))
  end.

(** [context.success(result)]: a call into the transport, which may
    throw. *)
Definition context_success (context : RequestContext) (result : jsval) : M unit :=
  emit (ESuccess context result) ;;
  match replied env context result with
  | None => ret tt
  | Some error => throw error
  end.

(** [error.message]: the message of an error object; [undefined] for a
    number, a string or a boolean, which have no such property; for
    [undefined] and [null] the reading itself throws a TypeError. *)
Definition read_message (error : thrown) : M jsval :=
  match error with
  | JsError message => ret (JStr message)
  | Thrown JUndefined => throw (JsError (cannot_read env JUndefined "message"))
  | Thrown JNull => throw (JsError (cannot_read env JNull "message"))
  | Thrown _ => ret JUndefined
  end.

(** The argument [error.message] is evaluated before [context.error] is
    called; the [catch] block is not itself inside a [try]. *)
Definition handleIncomingRequest (context : RequestContext) : M unit :=
  try_catch
    (s ← get ;
     methodInfo ← match methods (requests s) !! method context with
                  | Some mi => ret mi
                  | None => throw ("Method " +:+ method context +:+ " not found")
                  end ;
     result ← race methodInfo context ;
     context_success context result)
    (λ error,
       emit (ELogError ("Error handling request: " +:+ method context) error) ;;
       message ← read_message error ;
       emit (EError context "METHOD_ERROR" message)).

Definition cleanup : M unit :=
  s ← get ;
  for_each (λ request, emit (ERejectPending request "Service stopping"))
           (JsMap.values (pendingRequests (requests s))) ;;
  modify (with_requests (λ rm,
    {| methods := ∅; pendingRequests := [];
       defaultTimeout := defaultTimeout rm |})).

End Request.
End Request.

(** ** The facade: [Satellite] *)

Module Satellite.
Section Satellite.
Variable env : Env.

(** The object built by the constructor. *)
Definition new : Service :=
  {| topics := Topic.new; discovery := Discovery.new; requests := Request.new;
     ready := false; connected := false; identified := false;
     trace := []; calls := 0 |}.

Definition method (name : string) (handler : fnref)
    (options : gmap string jsval) : M unit :=
  Request.registerMethod name handler options.

Definition subscribe (topic : string) (handler : fnref) : M unit :=
  Topic.subscribe env topic handler.

Definition publish (topic : string) (data : jsval) : M unit :=
  Topic.publish env topic data.

(** [sendRequest(target, method, data)]: the options are left out. *)
Definition request (target : jsval) (method : string) (data : jsval) : M jsval :=
  Request.sendRequest env target method data ∅.

Definition notify (target : jsval) (type : string) (data : jsval) : M unit :=
  Request.sendNotification env target type data.

Definition set_stopped (s : Service) : Service :=
  {| topics := topics s; discovery := discovery s; requests := requests s;
     ready := false; connected := false; identified := false;
     trace := trace s; calls := calls s |}.

Definition stop : M unit :=
  try_catch
    (emit (ELogInfo "Stopping service...") ;;
     Topic.cleanup env ;;
     client_disconnect env ;;
     modify set_stopped ;;
     emit (EEmit "stopped") ;;
     emit (ELogInfo "Service stopped"))
    (λ error,
       emit (ELogError "Error stopping service" error) ;;
       throw error).

(** The listener of ['broker:event']. *)
Inductive broker_event :=
| ServiceJoined (service : Discovery.ServiceInfo)
| ServiceLeft (serviceId : string).

Definition on_broker_event (event : broker_event) : M unit :=
  s ← get ;
  let '(d, notices) :=
    match event with
    | ServiceJoined service => Discovery.handleServiceJoined service (discovery s)
    | ServiceLeft serviceId => Discovery.handleServiceLeft serviceId (discovery s)
    end in
  modify (with_discovery (λ _, d)) ;;
  for_each (λ n, emit (EDiscovery n)) notices.

(** The method ['request'] registered with the transport. *)
Definition on_request (context : RequestContext) : M unit :=
  Request.handleIncomingRequest env context.

End Satellite.
End Satellite.

(** ** Regular expressions

    The language of a regular expression without flags, matched from [^] to
    [$]: [test] says whether the whole string belongs to it.  The matcher
    takes the derivative of the expression by each character in turn. *)

Module Regex.

Inductive regex :=
| Void
| Eps
| Class (p : Ascii.ascii → bool)
| Seq (r1 r2 : regex)
| Alt (r1 r2 : regex)
| Star (r : regex).

Fixpoint nullable (r : regex) : bool :=
  match r with
  | Void => false
  | Eps => true
  | Class _ => false
  | Seq r1 r2 => nullable r1 && nullable r2
  | Alt r1 r2 => nullable r1 || nullable r2
  | Star _ => true
  end.

Fixpoint deriv (c : Ascii.ascii) (r : regex) : regex :=
  match r with
  | Void => Void
  | Eps => Void
  | Class p => if p c then Eps else Void
  | Seq r1 r2 =>
      if nullable r1 then Alt (Seq (deriv c r1) r2) (deriv c r2)
      else Seq (deriv c r1) r2
  | Alt r1 r2 => Alt (deriv c r1) (deriv c r2)
  | Star r => Seq (deriv c r) (Star r)
  end.

Fixpoint matches (r : regex) (s : list Ascii.ascii) : bool :=
  match s with
  | [] => nullable r
  | c :: s => matches (deriv c r) s
  end.

(** [/^r$/.test(s)]. *)
Definition test (r : regex) (s : string) : bool :=
  matches r (String.list_ascii_of_string s).

(** [\d]: one of the ten decimal digits. *)
Definition is_digit (c : Ascii.ascii) : bool :=
  (48 <=? Ascii.nat_of_ascii c)%nat && (Ascii.nat_of_ascii c <=? 57)%nat.

Definition digit : regex := Class is_digit.

(** A literal character, such as [\.]. *)
Definition chr (c : Ascii.ascii) : regex := Class (Ascii.eqb c).

(** [r+]. *)
Definition plus (r : regex) : regex := Seq r (Star r).

End Regex.

(** ** The options of the constructor *)

Module Options.
Section Options.

(** The text that the runtime makes of a value, in a template literal and
    in the argument of [RegExp.test]; a string is its own text. *)
Variable ToString : jsval → string.

(** [/^\d+\.\d+\.\d+$/]. *)
Definition semverRegex : Regex.regex :=
  Regex.Seq (Regex.plus Regex.digit)
    (Regex.Seq (Regex.chr "."%char)
       (Regex.Seq (Regex.plus Regex.digit)
          (Regex.Seq (Regex.chr "."%char) (Regex.plus Regex.digit)))).

Definition required : list string := ["name"; "type"; "version"; "brokerUrl"].

(** [this.options[field]]. *)
Definition option_of (options : gmap string jsval) (field : string) : jsval :=
  default JUndefined (options !! field).

(** [required.filter(field => !this.options[field])]. *)
Definition missing (options : gmap string jsval) : list string :=
  filter (λ field, truthy (option_of options field) = false) required.

(** [#validateOptions], on the options merged with the defaults of the
    constructor, none of which is a required field. *)
Definition validateOptions (options : gmap string jsval) : result unit :=
  if negb (length (missing options) =? 0)%nat then
    Throw ("Missing required options: " +:+ String.concat ", " (missing options))
  else if negb (Regex.test semverRegex (ToString (option_of options "version"))) then
    Throw ("Invalid version format: " +:+ ToString (option_of options "version"))
  else Ok tt.

End Options.
End Options.

(** ** The logger

    Strings hold the UTF-8 bytes of the text.  The clock, and the two
    conversions that the runtime provides ([Date.toISOString] and
    [JSON.stringify(data, null, 2)]), are taken from outside, and so is the
    masking of sensitive data, which the entry goes through before it is
    printed. *)

Module Logger.

Inductive Level := Debug | Info | Warn | Error | Critical.

#[global] Instance Level_eq_dec : EqDecision Level.
Proof. solve_decision. Defined.

(** The key of a level in [LOG_LEVELS]. *)
Definition name (l : Level) : string :=
  match l with
  | Debug => "debug"
  | Info => "info"
  | Warn => "warn"
  | Error => "error"
  | Critical => "critical"
  end.

(** [LOG_LEVELS[level].value]. *)
Definition value (l : Level) : nat :=
  match l with
  | Debug => 0
  | Info => 1
  | Warn => 2
  | Error => 3
  | Critical => 4
  end.

(** The escape character, [\x1b]. *)
Definition esc : ascii := ascii_of_nat 27.

(** [LOG_LEVELS[level].color]. *)
Definition color (l : Level) : string :=
  String esc
    match l with
    | Debug => "[36m"
    | Info => "[32m"
    | Warn => "[33m"
    | Error => "[31m"
    | Critical => "[35m"
    end.

(** [LOG_LEVELS[level].label]. *)
Definition label (l : Level) : string :=
  match l with
  | Debug => "DEBUG"
  | Info => "INFO"
  | Warn => "WARN"
  | Error => "ERROR"
  | Critical => "CRIT"
  end.

(** [LOG_LEVELS[level].emoji]. *)
Definition emoji (l : Level) : string :=
  match l with
  | Debug => "🔍"
  | Info => "ℹ️"
  | Warn => "⚠️"
  | Error => "❌"
  | Critical => "🚨"
  end.

(** [this.options], after the defaults have been merged in. *)
Record Options := {
  level : Level;
  enableColors : bool;
  enableEmoji : bool;
  enableTimestamp : bool;
  maskSensitiveData : bool;
  logToFile : bool;
  logFilePath : string;
  maxLogSize : Z;
  maxLogFiles : Z
}.

(** The third argument of [log]: [null], an [Error] with its stack, or any
    other value. *)
Inductive Data :=
| NoData
| Failure (stack : string)
| Value (v : jsval).

(** An entry of the history: [{level, message, data, timestamp}]. *)
Record Entry := {
  entry_level : Level;
  message : string;
  data : Data;
  timestamp : Z
}.

Record Stats := {
  messagesByLevel : list (string * nat);
  totalMessages : nat;
  startTime : Z
}.

(** The logger, with what it has printed on the console and what it has
    handed to [writeToFile]. *)
Record Logger := {
  namespace : string;
  options : Options;
  history : list Entry;
  maxHistorySize : nat;
  stats : Stats;
  console : list string;
  written : list string
}.

(** The constructor, at time [now]. *)
Definition new (namespace : string) (options : Options) (now : Z) : Logger :=
  {| namespace := namespace; options := options;
     history := []; maxHistorySize := 1000;
     stats := {| messagesByLevel := []; totalMessages := 0; startTime := now |};
     console := []; written := [] |}.

(** *** [stripAnsiColors]: [str.replace(/\x1b\[\d+m/g, '')] *)

(** The length of what [\d*m] matches at the head of [s], if it matches:
    the digits are taken greedily, and no shorter run of digits can be
    followed by an [m]. *)
Fixpoint digits_then_m (s : string) : option nat :=
  match s with
  | EmptyString => None
  | String c s =>
      if Regex.is_digit c then S <$> digits_then_m s
      else if Ascii.eqb c "m" then Some 1
      else None
  end.

(** The length of what [\x1b\[\d+m] matches at the head of [s]. *)
Definition ansi_length (s : string) : option nat :=
  match s with
  | String e (String b (String d s)) =>
      if Ascii.eqb e esc && Ascii.eqb b "[" && Regex.is_digit d
      then (λ n, 3 + n) <$> digits_then_m s
      else None
  | _ => None
  end.

(** The replacement, from left to right: [skip] characters of the current
    match are still to be dropped. *)
Fixpoint strip_from (skip : nat) (s : string) : string :=
  match s with
  | EmptyString => EmptyString
  | String c s' =>
      match skip with
      | S k => strip_from k s'
      | O =>
          match ansi_length (String c s') with
          | Some n => strip_from (n - 1) s'
          | None => String c (strip_from 0 s')
          end
      end
  end.

Definition stripAnsiColors (str : string) : string := strip_from 0 str.

Section Logger.
Variable toISOString : Z → string.
Variable stringify : jsval → string.
Variable maskSensitive : string → string.

(** The third part of an entry: the level, with its emoji and its colour. *)
Definition level_part (o : Options) (l : Level) : string :=
  let e := if enableEmoji o then emoji l +:+ " " else EmptyString in
  if enableColors o
  then color l +:+ e +:+ "[" +:+ label l +:+ "]" +:+ String esc "[0m"
  else e +:+ "[" +:+ label l +:+ "]".

Definition newline : string := String (ascii_of_nat 10) EmptyString.

Definition formatLogEntry (o : Options) (namespace : string) (l : Level)
    (message : string) (data : Data) (timestamp : Z) : string :=
  String.concat " "
    ((if enableTimestamp o then ["[" +:+ toISOString timestamp +:+ "]"] else [])
     ++ ["[" +:+ namespace +:+ "]"; level_part o l; message]
     ++ match data with
        | NoData => []
        | Failure stack => [newline +:+ stack]
        | Value v => [newline +:+ stringify v]
        end).

(** [(messagesByLevel.get(level) || 0) + 1]. *)
Definition updateStats (l : Level) (st : Stats) : Stats :=
  {| totalMessages := totalMessages st + 1;
     messagesByLevel :=
       JsMap.set (name l)
         (default 0 (JsMap.get (name l) (messagesByLevel st)) + 1)
         (messagesByLevel st);
     startTime := startTime st |}.

(** [history.push(entry)], then [history.shift()] when the history has
    grown beyond [maxHistorySize]. *)
Definition addToHistory (entry : Entry) (max : nat) (h : list Entry) : list Entry :=
  let h := h ++ [entry] in
  if (max <? length h)%nat then drop 1 h else h.

(** [log(level, message, data)] at time [now]. *)
Definition log (l : Level) (message : string) (data : Data) (now : Z)
    (lg : Logger) : Logger :=
  if (value l <? value (level (options lg)))%nat then lg
  else
    let logEntry := formatLogEntry (options lg) (namespace lg) l message data now in
    let processedEntry :=
      if maskSensitiveData (options lg) then maskSensitive logEntry else logEntry in
    {| namespace := namespace lg; options := options lg;
       console := console lg ++ [processedEntry];
       written :=
         if logToFile (options lg)
         then written lg ++ [stripAnsiColors processedEntry]
         else written lg;
       stats := updateStats l (stats lg);
       history :=
         addToHistory
           {| entry_level := l; message := message; data := data; timestamp := now |}
           (maxHistorySize lg) (history lg);
       maxHistorySize := maxHistorySize lg |}.

Definition debug (message : string) (data : Data) := log Debug message data.
Definition info (message : string) (data : Data) := log Info message data.
Definition warn (message : string) (data : Data) := log Warn message data.
Definition error (message : string) (data : Data) := log Error message data.
Definition critical (message : string) (data : Data) := log Critical message data.

End Logger.
End Logger.

(** ** State and metrics: [StateManager] *)

Module State.

Record Uptime := {
  startTime : Z;
  lastSnapshot : Z
}.

Record Broker := {
  connected : bool;
  lastConnected : option Z;
  reconnectAttempts : Z
}.

Record Activity := {
  requestsProcessed : Z;
  requestsFailed : Z;
  notificationsSent : Z;
  messagesPublished : Z;
  messagesReceived : Z;
  lastActivity : option Z
}.

Record Topics := {
  subscriptions : jsval;
  publications : jsval;
  activeTopics : list string
}.

Record DiscoveryCounters := {
  knownServices : Z;
  connectedServices : Z;
  lastDiscovery : option Z
}.

Record Memory := {
  used : Z;
  total : Z;
  peak : Z
}.

Record System := {
  memory : Memory;
  cpu_usage : Z * Z;       (* process.cpuUsage(): user and system time *)
  loadAvg : list Z
}.

(** [this.state]; [connections] has the one entry [broker]. *)
Record ServiceState := {
  uptime : Uptime;
  status : string;
  broker : Broker;
  activity : Activity;
  topics : Topics;
  discovery : DiscoveryCounters;
  system : System
}.

(** [{timestamp, state}], the state being a copy of its own: a later
    change of the state of the manager does not show in it. *)
Record Snapshot := {
  timestamp : Z;
  state : ServiceState
}.

Record StateManager := {
  current : ServiceState;
  history : list Snapshot;
  maxHistorySize : nat
}.

(** The constructor; [start] and [now] are what its two calls of
    [Date.now()] return. *)
Definition new (start now : Z) : StateManager :=
  {| current :=
       {| uptime := {| startTime := start; lastSnapshot := now |};
          status := "initializing";
          broker := {| connected := false; lastConnected := None;
                       reconnectAttempts := 0 |};
          activity := {| requestsProcessed := 0; requestsFailed := 0;
                         notificationsSent := 0; messagesPublished := 0;
                         messagesReceived := 0; lastActivity := None |};
          topics := {| subscriptions := JNum 0; publications := JNum 0;
                       activeTopics := [] |};
          discovery := {| knownServices := 0; connectedServices := 0;
                          lastDiscovery := None |};
          system := {| memory := {| used := 0; total := 0; peak := 0 |};
                       cpu_usage := (0, 0)%Z; loadAvg := [] |} |};
     history := []; maxHistorySize := 100 |}.

Definition with_current (f : ServiceState → ServiceState) (m : StateManager)
    : StateManager :=
  {| current := f (current m); history := history m;
     maxHistorySize := maxHistorySize m |}.

Definition setBrokerConnection (c : bool) (now : Z) (m : StateManager)
    : StateManager :=
  with_current (λ st,
    {| uptime := uptime st; status := status st;
       broker :=
         if c then {| connected := true; lastConnected := Some now;
                      reconnectAttempts := 0 |}
         else {| connected := false; lastConnected := lastConnected (broker st);
                 reconnectAttempts := reconnectAttempts (broker st) + 1 |};
       activity := activity st; topics := topics st;
       discovery := discovery st; system := system st |}) m.

(** The listener of ['service:discovered']. *)
Definition on_service_discovered (now : Z) (m : StateManager) : StateManager :=
  with_current (λ st,
    {| uptime := uptime st; status := status st; broker := broker st;
       activity := activity st; topics := topics st;
       discovery := {| knownServices := knownServices (discovery st) + 1;
                       connectedServices := connectedServices (discovery st);
                       lastDiscovery := Some now |};
       system := system st |}) m.

(** [updateSystemMetrics], given what [process.memoryUsage()] and
    [process.cpuUsage()] return. *)
Definition updateSystemMetrics (heapUsed heapTotal : Z) (cpu : Z * Z)
    (m : StateManager) : StateManager :=
  with_current (λ st,
    {| uptime := uptime st; status := status st; broker := broker st;
       activity := activity st; topics := topics st; discovery := discovery st;
       system := {| memory := {| used := heapUsed; total := heapTotal;
                                 peak := Z.max heapUsed (peak (memory (system st))) |};
                    cpu_usage := cpu; loadAvg := [] |} |}) m.

Definition addActiveTopic (t : string) (m : StateManager) : StateManager :=
  with_current (λ st,
    {| uptime := uptime st; status := status st; broker := broker st;
       activity := activity st;
       topics := {| subscriptions := subscriptions (topics st);
                    publications := publications (topics st);
                    activeTopics := JsSet.add t (activeTopics (topics st)) |};
       discovery := discovery st; system := system st |}) m.

Definition removeActiveTopic (t : string) (m : StateManager) : StateManager :=
  with_current (λ st,
    {| uptime := uptime st; status := status st; broker := broker st;
       activity := activity st;
       topics := {| subscriptions := subscriptions (topics st);
                    publications := publications (topics st);
                    activeTopics := JsSet.delete t (activeTopics (topics st)) |};
       discovery := discovery st; system := system st |}) m.

(** [takeSnapshot] at time [now]: the copy is taken before [lastSnapshot]
    is brought up to date. *)
Definition takeSnapshot (now : Z) (m : StateManager) : StateManager :=
  let snapshot := {| timestamp := now; state := current m |} in
  let h := history m ++ [snapshot] in
  {| history := if (maxHistorySize m <? length h)%nat then drop 1 h else h;
     current :=
       {| uptime := {| startTime := startTime (uptime (current m));
                       lastSnapshot := now |};
          status := status (current m); broker := broker (current m);
          activity := activity (current m); topics := topics (current m);
          discovery := discovery (current m); system := system (current m) |};
     maxHistorySize := maxHistorySize m |}.

(** [array.slice(start)] for an integer [start]. *)
Definition slice_from {A} (start : Z) (l : list A) : list A :=
  if (start <? 0)%Z then drop (Z.to_nat (Z.max (Z.of_nat (length l) + start) 0)) l
  else drop (Z.to_nat (Z.min start (Z.of_nat (length l)))) l.

(** [getHistory(limit)] at time [now], for an integer [limit]: the snapshots
    of [history.slice(-Math.min(limit, history.length))], each with its
    age. *)
Definition getHistory (limit : Z) (now : Z) (m : StateManager)
    : list (Snapshot * Z) :=
  (λ snapshot, (snapshot, now - timestamp snapshot)%Z)
  <$> slice_from (- Z.min limit (Z.of_nat (length (history m)))) (history m).

Definition cleanup (m : StateManager) : StateManager :=
  {| current :=
       {| uptime := uptime (current m); status := status (current m);
          broker := broker (current m); activity := activity (current m);
          topics := {| subscriptions := subscriptions (topics (current m));
                       publications := publications (topics (current m));
                       activeTopics := [] |};
          discovery := discovery (current m); system := system (current m) |};
     history := []; maxHistorySize := maxHistorySize m |}.

End State.

(** * Properties *)

(** ** Sets as lists *)

Module JsSetFacts.
Section JsSetFacts.
Context {A : Type} `{EqDecision A}.

Lemma elem_of_add (x y : A) (s : list A) :
  y ∈ JsSet.add x s ↔ y = x ∨ y ∈ s.
Proof.
  unfold JsSet.add. case_bool_decide as Hin.
  - split; [by right | intros [-> | ?]; done].
  - rewrite elem_of_app, list_elem_of_singleton. tauto.
Qed.

Lemma elem_of_delete (x y : A) (s : list A) :
  y ∈ JsSet.delete x s ↔ y ≠ x ∧ y ∈ s.
Proof. unfold JsSet.delete. by rewrite list_elem_of_filter. Qed.

Lemma add_NoDup (x : A) (s : list A) : NoDup s → NoDup (JsSet.add x s).
Proof.
  intros Hs. unfold JsSet.add. case_bool_decide as Hin; [done |].
  apply NoDup_app. split_and!; [done | | apply NoDup_singleton].
  intros y Hy ->%list_elem_of_singleton. done.
Qed.

Lemma delete_nil_iff (x : A) (s : list A) :
  JsSet.delete x s = [] ↔ ∀ y, y ∈ s → y = x.
Proof.
  split.
  - intros Hnil y Hy. destruct (decide (y = x)) as [|Hne]; [done |].
    assert (y ∈ JsSet.delete x s) as Hin by by apply elem_of_delete.
    rewrite Hnil in Hin. by apply elem_of_nil in Hin.
  - intros Hall. destruct (JsSet.delete x s) as [|y l] eqn:Hd; [done |].
    assert (y ∈ JsSet.delete x s) as Hin by (rewrite Hd; left).
    apply elem_of_delete in Hin as [Hne Hin]. by apply Hall in Hin.
Qed.
End JsSetFacts.
End JsSetFacts.

(** ** The registry *)

Module DiscoveryFacts.
Import Discovery.

(** The record stored under [i] lists capability [c]. *)
Definition listed (d : DiscoveryManager) (i c : string) : Prop :=
  ∃ info, services d !! i = Some info ∧ c ∈ capabilities info.

(** A join of an id that is already stored lists every capability of the
    record it replaces. *)
Definition keeps_capabilities (d : DiscoveryManager) (o : op) : bool :=
  match o with
  | Join info =>
      match services d !! id info with
      | Some old =>
          forallb (λ c, bool_decide (c ∈ capabilities info)) (capabilities old)
      | None => true
      end
  | Leave _ => true
  end.

Fixpoint rejoin_keeps_capabilities (d : DiscoveryManager) (ops : list op)
    : bool :=
  match ops with
  | [] => true
  | o :: ops =>
      keeps_capabilities d o && rejoin_keeps_capabilities (apply d o) ops
  end.

Definition r_a_x : ServiceInfo :=
  {| id := "a"; name := "n"; type := "worker";
     capabilities := ["x"]; metadata := [] |}.
Definition r_a_y : ServiceInfo :=
  {| id := "a"; name := "n"; type := "worker";
     capabilities := ["y"]; metadata := [] |}.
Definition r_b_y : ServiceInfo :=
  {| id := "b"; name := "n"; type := "worker";
     capabilities := ["y"]; metadata := [] |}.

(** *** The capability loops, bucket by bucket *)

Lemma index_capability_elem sid idx c c' (i : string) :
  i ∈ default [] (index_capability sid idx c !! c')
  ↔ (i = sid ∧ c' = c) ∨ i ∈ default [] (idx !! c').
Proof.
  unfold index_capability.
  case_bool_decide as Hhas.
  - destruct Hhas as [b Hc]. rewrite Hc.
    destruct (decide (c' = c)) as [->|Hne].
    + rewrite lookup_insert_eq, Hc. simpl.
      rewrite JsSetFacts.elem_of_add. naive_solver.
    + rewrite lookup_insert_ne by done. naive_solver.
  - assert (idx !! c = None) as Hc.
    { destruct (idx !! c) eqn:E; [|done]. exfalso. eauto. }
    rewrite lookup_insert_eq.
    destruct (decide (c' = c)) as [->|Hne].
    + rewrite lookup_insert_eq, Hc. simpl.
      rewrite JsSetFacts.elem_of_add, elem_of_nil. naive_solver.
    + rewrite !lookup_insert_ne by done. naive_solver.
Qed.

Lemma join_loop_elem sid caps idx c' (i : string) :
  i ∈ default [] (foldl (index_capability sid) idx caps !! c')
  ↔ (i = sid ∧ c' ∈ caps) ∨ i ∈ default [] (idx !! c').
Proof.
  revert idx. induction caps as [|c caps IH]; intros idx; simpl.
  - rewrite elem_of_nil. tauto.
  - rewrite IH, index_capability_elem, elem_of_cons. tauto.
Qed.

Lemma unindex_capability_elem sid idx c c' (i : string) :
  i ∈ default [] (unindex_capability sid idx c !! c')
  ↔ i ∈ default [] (idx !! c') ∧ ¬ (i = sid ∧ c' = c).
Proof.
  unfold unindex_capability.
  destruct (idx !! c) as [b|] eqn:Hc.
  - destruct (length (JsSet.delete sid b) =? 0)%nat eqn:Hlen.
    + apply Nat.eqb_eq, length_zero_iff_nil in Hlen.
      destruct (decide (c' = c)) as [->|Hne].
      * rewrite lookup_delete_eq, Hc. simpl. rewrite elem_of_nil.
        split; [done |]. intros [Hi Hn].
        apply Hn. split; [|done].
        by eapply JsSetFacts.delete_nil_iff.
      * rewrite lookup_delete_ne by done. naive_solver.
    + destruct (decide (c' = c)) as [->|Hne].
      * rewrite lookup_insert_eq, Hc. simpl.
        rewrite JsSetFacts.elem_of_delete. naive_solver.
      * rewrite lookup_insert_ne by done. naive_solver.
  - destruct (decide (c' = c)) as [->|Hne]; [|naive_solver].
    rewrite Hc. simpl. rewrite elem_of_nil. tauto.
Qed.

Lemma leave_loop_elem sid caps idx c' (i : string) :
  i ∈ default [] (foldl (unindex_capability sid) idx caps !! c')
  ↔ i ∈ default [] (idx !! c') ∧ ¬ (i = sid ∧ c' ∈ caps).
Proof.
  revert idx. induction caps as [|c caps IH]; intros idx; simpl.
  - rewrite elem_of_nil. tauto.
  - rewrite IH, unindex_capability_elem, elem_of_cons. tauto.
Qed.

(** *** What one event does to the buckets and to the records *)

Lemma bucket_join info d c (i : string) :
  i ∈ bucket (handleServiceJoined info d).1 c
  ↔ (i = id info ∧ c ∈ capabilities info) ∨ i ∈ bucket d c.
Proof. unfold bucket. simpl. apply join_loop_elem. Qed.

Lemma bucket_leave sid d c (i : string) :
  i ∈ bucket (handleServiceLeft sid d).1 c
  ↔ i ∈ bucket d c
    ∧ ¬ (i = sid ∧ ∃ info, services d !! sid = Some info
                            ∧ c ∈ capabilities info).
Proof.
  unfold bucket, handleServiceLeft.
  destruct (services d !! sid) as [info|] eqn:Hs; simpl.
  - rewrite leave_loop_elem. naive_solver.
  - naive_solver.
Qed.

Lemma listed_join info d i c :
  listed (handleServiceJoined info d).1 i c
  ↔ (i = id info ∧ c ∈ capabilities info) ∨ (i ≠ id info ∧ listed d i c).
Proof.
  unfold listed. simpl.
  destruct (decide (i = id info)) as [->|Hne].
  - rewrite lookup_insert_eq. naive_solver.
  - rewrite lookup_insert_ne by done. naive_solver.
Qed.

Lemma listed_leave sid d i c :
  listed (handleServiceLeft sid d).1 i c
  ↔ listed d i c ∧ i ≠ sid.
Proof.
  unfold listed, handleServiceLeft.
  destruct (services d !! sid) as [info|] eqn:Hs; simpl.
  - destruct (decide (i = sid)) as [->|Hne].
    + rewrite lookup_delete_eq. naive_solver.
    + rewrite lookup_delete_ne by done. naive_solver.
  - split; [|naive_solver]. intros (info & Hi & Hc).
    split; [eauto|]. intros ->. congruence.
Qed.

(** *** The two halves of the invariant, one event at a time *)

Lemma listed_in_bucket_step d o :
  (∀ i c, listed d i c → i ∈ bucket d c) →
  ∀ i c, listed (apply d o) i c → i ∈ bucket (apply d o) c.
Proof.
  intros IH i c. destruct o as [info|sid]; unfold apply.
  - rewrite listed_join, bucket_join. naive_solver.
  - rewrite listed_leave, bucket_leave. naive_solver.
Qed.

Lemma bucket_listed_step d o :
  keeps_capabilities d o = true →
  (∀ i c, i ∈ bucket d c → listed d i c) →
  ∀ i c, i ∈ bucket (apply d o) c → listed (apply d o) i c.
Proof.
  intros Hk IH i c. destruct o as [info|sid]; unfold apply.
  - rewrite listed_join, bucket_join. intros [?|Hin]; [by left|].
    destruct (decide (i = id info)) as [->|Hne]; [|right; eauto].
    left. split; [done|].
    destruct (IH _ _ Hin) as (old & Hold & Hc).
    simpl in Hk. rewrite Hold in Hk.
    rewrite forallb_forall in Hk.
    apply list_elem_of_In, Hk in Hc. by apply bool_decide_eq_true in Hc.
  - rewrite listed_leave, bucket_leave. intros [Hin Hn].
    pose proof (IH _ _ Hin) as Hl. split; [done|].
    intros ->. apply Hn. split; [done|]. exact Hl.
Qed.

Lemma listed_in_bucket_from d ops :
  (∀ i c, listed d i c → i ∈ bucket d c) →
  ∀ i c, listed (foldl apply d ops) i c → i ∈ bucket (foldl apply d ops) c.
Proof.
  revert d. induction ops as [|o ops IH]; intros d Hd; simpl; [done|].
  apply IH. by apply listed_in_bucket_step.
Qed.

Lemma bucket_listed_from d ops :
  rejoin_keeps_capabilities d ops = true →
  (∀ i c, i ∈ bucket d c → listed d i c) →
  ∀ i c, i ∈ bucket (foldl apply d ops) c → listed (foldl apply d ops) i c.
Proof.
  revert d. induction ops as [|o ops IH]; intros d Hk Hd; simpl; [done|].
  simpl in Hk. apply andb_true_iff in Hk as [Hk1 Hk2].
  apply IH; [done|]. by apply bucket_listed_step.
Qed.

Lemma new_no_record i c : ¬ listed new i c.
Proof. intros (info & Hi & _). simpl in Hi. by rewrite lookup_empty in Hi. Qed.

Lemma new_no_bucket (i : string) c : i ∉ bucket new c.
Proof. unfold bucket. simpl. rewrite lookup_empty. simpl. apply not_elem_of_nil. Qed.

(** C1, as the code has it.  After every sequence of join and leave
    events, the id of a stored record is in the bucket of each capability
    the record lists; and when no join in the sequence replaces a stored
    record by one that drops one of its capabilities, an id is in the
    bucket of [c] exactly when the record stored under it lists [c]. *)
Theorem capability_index_consistency (ops : list op) :
  (∀ i c, listed (run ops) i c → i ∈ bucket (run ops) c) ∧
  (rejoin_keeps_capabilities new ops = true →
   ∀ i c, i ∈ bucket (run ops) c ↔ listed (run ops) i c).
Proof.
  assert (∀ i c, listed (run ops) i c → i ∈ bucket (run ops) c) as Hfwd.
  { apply listed_in_bucket_from. intros i c H. by apply new_no_record in H. }
  split; [exact Hfwd|].
  intros Hk i c. split; [|apply Hfwd].
  revert i c. apply bucket_listed_from; [done|].
  intros i c H. by apply new_no_bucket in H.
Qed.

(** Two services join, the first one leaves and joins again with another
    capability: the index and the records agree. *)
Lemma capability_index_consistency_witness :
  "b" ∈ bucket (run [Join r_a_x; Join r_b_y; Leave "a"; Join r_a_y]) "y"
  ↔ listed (run [Join r_a_x; Join r_b_y; Leave "a"; Join r_a_y]) "b" "y".
Proof.
  apply (proj2 (capability_index_consistency
                  [Join r_a_x; Join r_b_y; Leave "a"; Join r_a_y])).
  vm_compute. reflexivity.
Defined.

(** C1 as stated fails: after a join of id ["a"] with capability ["x"]
    and a second join of ["a"] with capability ["y"] only, ["a"] is still
    in the bucket of ["x"], which its record no longer lists. *)
Lemma stale_capability_after_rejoin :
  ¬ (∀ (ops : list op) (i c : string),
       i ∈ bucket (run ops) c ↔ listed (run ops) i c).
Proof.
  intros H.
  destruct (proj1 (H [Join r_a_x; Join r_a_y] "a" "x")) as (info & Hi & Hc).
  - vm_compute. left.
  - vm_compute in Hi. injection Hi as <-.
    simpl in Hc. apply list_elem_of_singleton in Hc. discriminate.
Qed.

(** *** The name index *)

Lemma leave_name_entry sid d info :
  services d !! sid = Some info →
  servicesByName (handleServiceLeft sid d).1 !! name info = None.
Proof.
  intros Hs. unfold handleServiceLeft. rewrite Hs. simpl.
  apply lookup_delete_eq.
Qed.

(** C5 on the code: ["a"] and ["b"] join under the same name ["n"], so
    the name index maps ["n"] to ["b"]; when ["a"] leaves, the entry of
    ["n"] is deleted although it points at ["b"], whose record is still
    stored and can no longer be found by name. *)
Lemma leave_deletes_name_entry_of_other_id :
  servicesByName (run [Join r_a_x; Join r_b_y]) !! "n" = Some "b"
  ∧ servicesByName (run [Join r_a_x; Join r_b_y; Leave "a"]) !! "n" = None
  ∧ findServiceById "b" (run [Join r_a_x; Join r_b_y; Leave "a"]) = Some r_b_y
  ∧ findServiceByName "n" (run [Join r_a_x; Join r_b_y; Leave "a"]) = None.
Proof. vm_compute. done. Qed.

(** *** Lookup by capability *)

(** C10.  In every state, the elements of the list returned by
    [findServicesByCapability] are exactly the records that the primary
    map stores under an id of the bucket: an id of the bucket without a
    record contributes nothing, and no element is [undefined]. *)
Theorem findServicesByCapability_stored (d : DiscoveryManager)
    (c : string) (r : option ServiceInfo) :
  r ∈ findServicesByCapability c d
  ↔ ∃ sid info, r = Some info ∧ sid ∈ bucket d c
                ∧ services d !! sid = Some info.
Proof.
  unfold findServicesByCapability.
  rewrite list_elem_of_filter, list_elem_of_fmap. split.
  - intros [Hb (sid & -> & Hin)].
    destruct (services d !! sid) as [info|] eqn:Hs; [|discriminate].
    eauto.
  - intros (sid & info & -> & Hin & Hs). split; [done|].
    exists sid. by rewrite Hs.
Qed.

(** An id left behind in a bucket after its record is gone is skipped. *)
Example findServicesByCapability_skips_dangling_id :
  bucket (run [Join r_a_x; Join r_a_y; Leave "a"]) "x" = ["a"]
  ∧ findServicesByCapability "x" (run [Join r_a_x; Join r_a_y; Leave "a"]) = [].
Proof. vm_compute. done. Qed.

End DiscoveryFacts.

(** ** Traces *)

Module TraceFacts.

(** The node after it has done [l] more. *)
Definition log (l : list effect) (s : Service) : Service :=
  with_trace (λ t, t ++ l) s.

Lemma log_nil s : log [] s = s.
Proof. destruct s. unfold log, with_trace. simpl. by rewrite app_nil_r. Qed.

Lemma log_log l1 l2 s : log l2 (log l1 s) = log (l1 ++ l2) s.
Proof. unfold log, with_trace. simpl. by rewrite app_assoc. Qed.

Lemma emit_run e s : emit e s = (Ok tt, log [e] s).
Proof. reflexivity. Qed.

Lemma emitted_log {A} (m : M A) s l :
  trace (m s).2 = trace s ++ l → emitted m s = l.
Proof. intros H. unfold emitted. rewrite H. apply drop_app_length. Qed.

End TraceFacts.

(** ** The topic router *)

Module TopicFacts.
Import TraceFacts.

Definition subscribe_request (t : string) : effect :=
  ERequest "broker:subscribe" [("topic", JStr t)].

Definition unsubscribe_request (t : string) : effect :=
  ERequest "broker:unsubscribe" [("topic", JStr t)].

(** The handler set of a topic, empty when the topic has no entry. *)
Definition handlers_of (s : Service) (t : string) : list fnref :=
  default [] (handlers (topics s) !! t).

(** A transport that accepts every call. *)
Definition obliging : Env :=
  {| transport := λ _ _ _, Answer JUndefined;
     now := λ n, Z.of_nat n;
     subscriber := λ _ _ _ _ _, Returns;
     registered := λ _ p _, Settles 0 (Resolve p);
     timer_delay := λ v, match v with JNum n => Z.to_nat n | _ => 1 end;
     replied := λ _ _, None;
     cannot_read := λ _ property, "Cannot read property " +:+ property |}.

(** *** [subscribe] *)

Lemma subscribe_handlers env t h s v :
  transport env (calls s) "broker:subscribe" [("topic", JStr t)] = Answer v →
  handlers (topics (Topic.subscribe env t h s).2)
  = <[t := JsSet.add h (handlers_of s t)]> (handlers (topics s)).
Proof.
  intros Hr. unfold Topic.subscribe, try_catch, bind, client_request.
  rewrite Hr. simpl. unfold handlers_of.
  case_bool_decide as Hhas.
  - destruct Hhas as [hs Hhs]. rewrite Hhs. simpl.
    apply map_eq. intros k. rewrite lookup_alter.
    destruct (decide (t = k)) as [->|Hne].
    + by rewrite lookup_insert_eq, Hhs.
    + by rewrite lookup_insert_ne.
  - assert (handlers (topics s) !! t = None) as Hn.
    { destruct (handlers (topics s) !! t) eqn:E; [|done]. exfalso. eauto. }
    rewrite Hn. simpl.
    apply map_eq. intros k. rewrite lookup_alter.
    destruct (decide (t = k)) as [->|Hne].
    + by rewrite !lookup_insert_eq.
    + by rewrite !lookup_insert_ne.
Qed.

(** C2, as the code has it.  [subscribe(t, h)] issues the remote
    subscribe request first, whether or not [t] already has a local
    subscription, and issues only that one; when the broker accepts it,
    [h] is added to the handler set of [t] (created if there was none);
    when it fails, the failure reaches the caller and the tables are
    unchanged. *)
Theorem subscribe_requests_first (env : Env) (s : Service) (t : string) (h : fnref) :
  (∃ rest, emitted (Topic.subscribe env t h) s = subscribe_request t :: rest
           ∧ ∀ name fields, ERequest name fields ∉ rest)
  ∧ match transport env (calls s) "broker:subscribe" [("topic", JStr t)] with
    | Answer _ =>
        (Topic.subscribe env t h s).1 = Ok tt
        ∧ handlers (topics (Topic.subscribe env t h s).2)
          = <[t := JsSet.add h (handlers_of s t)]> (handlers (topics s))
    | Fail e =>
        (Topic.subscribe env t h s).1 = Throw e
        ∧ topics (Topic.subscribe env t h s).2 = topics s
    | Silent =>
        (Topic.subscribe env t h s).1 = Pending
        ∧ topics (Topic.subscribe env t h s).2 = topics s
    end.
Proof.
  destruct (transport env (calls s) "broker:subscribe" [("topic", JStr t)])
    as [v|e|] eqn:Hr.
  - split; [|split; [|by eapply subscribe_handlers]].
    + exists [ELogDebug ("Subscribed to topic: " +:+ t)]. split.
      * apply emitted_log.
        unfold Topic.subscribe, try_catch, bind, client_request.
        rewrite Hr. simpl. by rewrite <- app_assoc.
      * intros name fields Hin.
        apply list_elem_of_singleton in Hin. discriminate.
    + unfold Topic.subscribe, try_catch, bind, client_request.
      rewrite Hr. reflexivity.
  - split.
    + exists [ELogError ("Failed to subscribe to topic: " +:+ t) e]. split.
      * apply emitted_log.
        unfold Topic.subscribe, try_catch, bind, client_request.
        rewrite Hr. simpl. by rewrite <- app_assoc.
      * intros name fields Hin.
        apply list_elem_of_singleton in Hin. discriminate.
    + unfold Topic.subscribe, try_catch, bind, client_request.
      rewrite Hr. simpl. done.
  - split.
    + exists []. split.
      * apply emitted_log.
        unfold Topic.subscribe, try_catch, bind, client_request.
        rewrite Hr. reflexivity.
      * intros name fields Hin. by apply elem_of_nil in Hin.
    + unfold Topic.subscribe, try_catch, bind, client_request.
      rewrite Hr. simpl. done.
Qed.

(** C2 as stated fails: with a subscription for ["t"] in place, a second
    [subscribe("t", h)] sends another subscribe request to the broker. *)
Lemma subscribe_requests_again :
  ¬ (∀ (env : Env) (s : Service) (t : string) (h : fnref),
       is_Some (handlers (topics s) !! t) →
       subscribe_request t ∉ emitted (Topic.subscribe env t h) s).
Proof.
  intros H.
  apply (H obliging (Topic.subscribe obliging "t" 1 Satellite.new).2 "t" 2).
  - vm_compute. eauto.
  - vm_compute. left.
Qed.

(** *** [unsubscribe] without a handler, and [dispatch] *)

Lemma JsMap_get_delete {V} (k : string) (m : list (string * V)) :
  JsMap.get k (JsMap.delete k m) = None.
Proof.
  induction m as [|[k' v] m IH]; [done|].
  unfold JsMap.delete in *. rewrite filter_cons. simpl.
  destruct (decide (k' ≠ k)) as [Hne|Heq]; [|done].
  simpl. by rewrite bool_decide_eq_false_2.
Qed.

Lemma dispatch_no_entry env message s :
  handlers (topics s) !! topic message = None →
  Topic.dispatch env message s = (Ok tt, s).
Proof.
  intros Hn. unfold Topic.dispatch, try_catch, bind, get. by rewrite Hn.
Qed.

(** C8.  [unsubscribe(t)] without a handler sends the remote unsubscribe
    whatever the handler set of [t] holds; once the broker has accepted
    it, [t] has no entry left in either table, whatever handlers were
    registered, and a message dispatched for [t] afterwards invokes
    nothing.  A failure of the broker reaches the caller and leaves the
    tables as they were. *)
Theorem unsubscribe_topic_drops_every_handler (env : Env) (s : Service)
    (t : string) :
  (∃ rest, emitted (Topic.unsubscribe env t None) s
           = unsubscribe_request t :: rest)
  ∧ match transport env (calls s) "broker:unsubscribe" [("topic", JStr t)] with
    | Answer _ =>
        (Topic.unsubscribe env t None s).1 = Ok tt
        ∧ handlers (topics (Topic.unsubscribe env t None s).2) !! t = None
        ∧ JsMap.get t (subscriptions (topics (Topic.unsubscribe env t None s).2))
          = None
        ∧ ∀ message, topic message = t →
            emitted (Topic.dispatch env message)
                    (Topic.unsubscribe env t None s).2 = []
    | Fail e =>
        (Topic.unsubscribe env t None s).1 = Throw e
        ∧ topics (Topic.unsubscribe env t None s).2 = topics s
    | Silent =>
        (Topic.unsubscribe env t None s).1 = Pending
        ∧ topics (Topic.unsubscribe env t None s).2 = topics s
    end.
Proof.
  destruct (transport env (calls s) "broker:unsubscribe" [("topic", JStr t)])
    as [v|e|] eqn:Hr.
  - assert (handlers (topics (Topic.unsubscribe env t None s).2) !! t = None)
      as Hgone.
    { unfold Topic.unsubscribe, Topic.unsubscribeFromBroker, try_catch, bind,
        client_request. rewrite Hr. simpl. apply lookup_delete_eq. }
    split; [|split_and!].
    + exists [ELogDebug ("Unsubscribed from topic: " +:+ t)].
      apply emitted_log.
      unfold Topic.unsubscribe, Topic.unsubscribeFromBroker, try_catch, bind,
        client_request. rewrite Hr. simpl. by rewrite <- app_assoc.
    + unfold Topic.unsubscribe, Topic.unsubscribeFromBroker, try_catch, bind,
        client_request. rewrite Hr. reflexivity.
    + exact Hgone.
    + unfold Topic.unsubscribe, Topic.unsubscribeFromBroker, try_catch, bind,
        client_request. rewrite Hr. simpl. apply JsMap_get_delete.
    + intros message <-. apply emitted_log.
      rewrite dispatch_no_entry by exact Hgone. simpl. by rewrite app_nil_r.
  - split.
    + exists [ELogError ("Failed to unsubscribe from broker for topic: " +:+ t) e;
              ELogError ("Failed to unsubscribe from topic: " +:+ t) e].
      apply emitted_log.
      unfold Topic.unsubscribe, Topic.unsubscribeFromBroker, try_catch, bind,
        client_request. rewrite Hr. simpl. by rewrite <- !app_assoc.
    + unfold Topic.unsubscribe, Topic.unsubscribeFromBroker, try_catch, bind,
        client_request. rewrite Hr. simpl. done.
  - split.
    + exists []. apply emitted_log.
      unfold Topic.unsubscribe, Topic.unsubscribeFromBroker, try_catch, bind,
        client_request. rewrite Hr. reflexivity.
    + unfold Topic.unsubscribe, Topic.unsubscribeFromBroker, try_catch, bind,
        client_request. rewrite Hr. simpl. done.
Qed.

Definition message_t : Message :=
  {| topic := "t"; data := JStr "hello";
     metadata := {| timestamp := JNum 7; publisher := JStr "p" |} |}.

(** The node after [subscribe("t", 1)] and [subscribe("t", 2)]. *)
Definition two_subscribers (env : Env) : Service :=
  (Topic.subscribe env "t" 2 (Topic.subscribe env "t" 1 Satellite.new).2).2.

(** With handlers 1 and 2 both subscribed to ["t"], a message reaches
    both; after [unsubscribe("t")] it reaches neither. *)
Example unsubscribe_topic_with_two_handlers :
  handlers_of (two_subscribers obliging) "t" = [1; 2]
  ∧ emitted (Topic.dispatch obliging message_t) (two_subscribers obliging)
    = [EInvokeSubscriber 1 (JStr "hello") "t" (JNum 7) (JStr "p");
       EInvokeSubscriber 2 (JStr "hello") "t" (JNum 7) (JStr "p")]
  ∧ emitted (Topic.dispatch obliging message_t)
            (Topic.unsubscribe obliging "t" None (two_subscribers obliging)).2
    = [].
Proof. vm_compute. done. Qed.

(** *** Delivery of one message *)

Definition outcome_of (env : Env) (message : Message) (h : fnref) : outcome :=
  subscriber env h (data message) (topic message)
    (timestamp (metadata message)) (publisher (metadata message)).

Definition invocation (message : Message) (h : fnref) : effect :=
  EInvokeSubscriber h (data message) (topic message)
    (timestamp (metadata message)) (publisher (metadata message)).

Definition handler_failure (message : Message) (error : thrown) : effect :=
  ELogError ("Error in topic handler for " +:+ topic message) error.

(** What the delivery to one handler adds to the trace. *)
Definition delivery (env : Env) (message : Message) (h : fnref) : list effect :=
  invocation message h ::
  match outcome_of env message h with
  | Throws error => [handler_failure message error]
  | _ => []
  end.






(** Handler 1 fails on every message; the others return. *)
Definition first_fails : Env :=
  {| transport := λ _ _ _, Answer JUndefined;
     now := λ n, Z.of_nat n;
     subscriber := λ h _ _ _ _,
       if (h =? 1)%nat then Throws "boom" else Returns;
     registered := λ _ p _, Settles 0 (Resolve p);
     timer_delay := λ v, match v with JNum n => Z.to_nat n | _ => 1 end;
     replied := λ _ _, None;
     cannot_read := λ _ property, "Cannot read property " +:+ property |}.


(** Handler 1 never settles. *)
Definition first_hangs : Env :=
  {| transport := λ _ _ _, Answer JUndefined;
     now := λ n, Z.of_nat n;
     subscriber := λ h _ _ _ _, if (h =? 1)%nat then Hangs else Returns;
     registered := λ _ p _, Settles 0 (Resolve p);
     timer_delay := λ v, match v with JNum n => Z.to_nat n | _ => 1 end;
     replied := λ _ _, None;
     cannot_read := λ _ property, "Cannot read property " +:+ property |}.


(** The trace of that dispatch: handler 1 is called and fails, the
    failure is logged, and handler 2 is called all the same. *)
Example failing_handler_does_not_stop_delivery :
  emitted (Topic.dispatch first_fails message_t) (two_subscribers first_fails)
  = [EInvokeSubscriber 1 (JStr "hello") "t" (JNum 7) (JStr "p");
     ELogError "Error in topic handler for t" "boom";
     EInvokeSubscriber 2 (JStr "hello") "t" (JNum 7) (JStr "p")].
Proof. vm_compute. reflexivity. Qed.

End TopicFacts.

(** ** The request coordinator *)

Module RequestFacts.
Import TraceFacts.

(** The replies among the effects. *)
Definition is_reply (e : effect) : bool :=
  match e with
  | ESuccess _ _ | EError _ _ _ => true
  | _ => false
  end.

Definition replies (l : list effect) : list effect :=
  filter (λ e, is_reply e = true) l.

Definition is_invocation (e : effect) : bool :=
  match e with
  | EInvokeMethod _ _ _ => true
  | _ => false
  end.

(** [error.message] where reading it does not throw. *)
Definition message_of (error : thrown) : option jsval :=
  match error with
  | JsError message => Some (JStr message)
  | Thrown JUndefined | Thrown JNull => None
  | Thrown _ => Some JUndefined
  end.

(** What the [catch] block of [handleIncomingRequest] does with the error
    it receives: the log, then the error reply if the message can be
    read. *)
Definition failure (context : RequestContext) (error : thrown) : list effect :=
  ELogError ("Error handling request: " +:+ method context) error ::
  match message_of error with
  | Some message => [EError context "METHOD_ERROR" message]
  | None => []
  end.

(** How the [catch] block ends. *)
Definition caught (env : Env) (error : thrown) : result unit :=
  match error with
  | Thrown JUndefined => Throw (JsError (cannot_read env JUndefined "message"))
  | Thrown JNull => Throw (JsError (cannot_read env JNull "message"))
  | _ => Ok tt
  end.

Definition not_found (context : RequestContext) : string :=
  "Method " +:+ method context +:+ " not found".

(** What follows the [await] of the race. *)
Definition conclusion (env : Env) (context : RequestContext)
    (p : Request.promise) : list effect :=
  match p with
  | Request.Fulfilled v =>
      ESuccess context v ::
      match replied env context v with
      | Some error => failure context error
      | None => []
      end
  | Request.Rejected e => failure context e
  | Request.Unsettled => []
  end.

Definition concluded (env : Env) (context : RequestContext)
    (p : Request.promise) : result unit :=
  match p with
  | Request.Fulfilled v =>
      match replied env context v with
      | Some error => caught env error
      | None => Ok tt
      end
  | Request.Rejected e => caught env e
  | Request.Unsettled => Pending
  end.

(** The timeout stored with a registration. *)
Definition timeout_of (mi : MethodInfo) : jsval :=
  default JUndefined (options mi !! "timeout").

(** The state of the race of a call once its events are over. *)
Definition finish (env : Env) (mi : MethodInfo) (after : option (nat * settled))
    : Request.promise :=
  foldl Request.settle Request.Unsettled
    (Request.schedule after (timer_delay env (timeout_of mi))).

(** Everything one inbound call adds to the trace. *)
Definition handling (env : Env) (s : Service) (context : RequestContext)
    : list effect :=
  match methods (requests s) !! method context with
  | None => failure context (not_found context)
  | Some mi =>
      EInvokeMethod (handler mi) (payload context) context ::
      match registered env (handler mi) (payload context) context with
      | ThrowsNow e => failure context e
      | Settles t r =>
          ESetTimeout (timeout_of mi) ::
          conclusion env context (finish env mi (Some (t, r)))
      | Never =>
          ESetTimeout (timeout_of mi) ::
          conclusion env context (finish env mi None)
      end
  end.

(** How one inbound call ends. *)
Definition ending (env : Env) (s : Service) (context : RequestContext)
    : result unit :=
  match methods (requests s) !! method context with
  | None => Ok tt
  | Some mi =>
      match registered env (handler mi) (payload context) context with
      | ThrowsNow e => caught env e
      | Settles t r => concluded env context (finish env mi (Some (t, r)))
      | Never => concluded env context (finish env mi None)
      end
  end.

(** *** The race *)

Lemma settled_stays (p : Request.promise) (evs : list Request.race_event) :
  p ≠ Request.Unsettled → foldl Request.settle p evs = p.
Proof.
  revert p. induction evs as [|ev evs IH]; intros p Hp; [done|].
  simpl. destruct p; [done| |]; by apply IH.
Qed.

Lemma first_event_wins (ev : Request.race_event) (evs : list Request.race_event) :
  foldl Request.settle Request.Unsettled (ev :: evs)
  = Request.settle Request.Unsettled ev.
Proof. simpl. apply settled_stays. by destruct ev. Qed.

Lemma race_in_time t r d :
  (t <=? d)%nat = true →
  foldl Request.settle Request.Unsettled (Request.schedule (Some (t, r)) d)
  = match r with
    | Resolve v => Request.Fulfilled v
    | Reject e => Request.Rejected e
    end.
Proof.
  intros Ht. unfold Request.schedule. rewrite Ht, first_event_wins.
  by destruct r.
Qed.

Lemma race_too_late t r d :
  (t <=? d)%nat = false →
  foldl Request.settle Request.Unsettled (Request.schedule (Some (t, r)) d)
  = Request.Rejected "Method timeout".
Proof.
  intros Ht. unfold Request.schedule. by rewrite Ht, first_event_wins.
Qed.


Lemma race_settled after d :
  foldl Request.settle Request.Unsettled (Request.schedule after d)
  ≠ Request.Unsettled.
Proof.
  destruct after as [[t r]|]; [|done].
  destruct (t <=? d)%nat eqn:Ht.
  - rewrite race_in_time by done. by destruct r.
  - by rewrite race_too_late.
Qed.

(** *** One inbound call, from beginning to end *)

Ltac same_state :=
  unfold log, with_trace; simpl; rewrite <- ?app_assoc; reflexivity.

Lemma catch_run env context error s :
  (emit (ELogError ("Error handling request: " +:+ method context) error) ;;
   message ← Request.read_message env error ;
   emit (EError context "METHOD_ERROR" message)) s
  = (caught env error, log (failure context error) s).
Proof.
  unfold bind at 1. rewrite emit_run. unfold failure, caught.
  destruct error as [m|[| | | |]]; unfold bind, Request.read_message, ret, throw;
    rewrite ?emit_run; f_equal; same_state.
Qed.

Lemma settled_run env context p s :
  p ≠ Request.Unsettled →
  try_catch
    (result ← Request.await p ; Request.context_success env context result)
    (λ error,
       emit (ELogError ("Error handling request: " +:+ method context) error) ;;
       message ← Request.read_message env error ;
       emit (EError context "METHOD_ERROR" message)) s
  = (concluded env context p, log (conclusion env context p) s).
Proof.
  intros Hp. destruct p as [|v|e]; [done| |].
  - unfold try_catch, bind at 1, Request.await, ret, Request.context_success.
    unfold bind at 1. rewrite emit_run. simpl.
    destruct (replied env context v) as [error|].
    + unfold throw. rewrite catch_run. by rewrite log_log.
    + done.
  - unfold try_catch, bind at 1, Request.await, throw. simpl.
    apply catch_run.
Qed.

Lemma handleIncomingRequest_run env context s :
  Request.handleIncomingRequest env context s
  = (ending env s context, log (handling env s context) s).
Proof.
  pose proof (catch_run env context) as Hcatch.
  unfold Request.handleIncomingRequest, handling, ending.
  unfold try_catch at 1. unfold bind at 1. unfold get.
  destruct (methods (requests s) !! method context) as [mi|] eqn:Hm.
  - unfold bind at 1. unfold ret at 1.
    unfold bind at 1. unfold Request.race. unfold bind at 1.
    rewrite emit_run. fold (timeout_of mi).
    destruct (registered env (handler mi) (payload context) context)
      as [e|t r|] eqn:Hb.
    + unfold throw. rewrite Hcatch. by rewrite log_log.
    + pose proof (race_settled (Some (t, r)) (timer_delay env (timeout_of mi)))
        as Hs.
      pose proof (settled_run env context (finish env mi (Some (t, r)))
                    (log [EInvokeMethod (handler mi) (payload context) context;
                          ESetTimeout (timeout_of mi)] s) Hs) as Hrun.
      unfold try_catch, bind at 1 in Hrun.
      unfold bind at 1. rewrite emit_run, log_log. fold (finish env mi (Some (t, r))).
      simpl app.
      destruct (Request.await (finish env mi (Some (t, r))) _) as [[v|e|] s'];
        rewrite Hrun; by rewrite log_log.
    + pose proof (race_settled None (timer_delay env (timeout_of mi))) as Hs.
      pose proof (settled_run env context (finish env mi None)
                    (log [EInvokeMethod (handler mi) (payload context) context;
                          ESetTimeout (timeout_of mi)] s) Hs) as Hrun.
      unfold try_catch, bind at 1 in Hrun.
      unfold bind at 1. rewrite emit_run, log_log. fold (finish env mi None).
      simpl app.
      destruct (Request.await (finish env mi None) _) as [[v|e|] s'];
        rewrite Hrun; by rewrite log_log.
  - unfold bind at 1. unfold throw at 1. rewrite Hcatch. done.
Qed.

Lemma handleIncomingRequest_emitted env context s :
  emitted (Request.handleIncomingRequest env context) s = handling env s context.
Proof. apply emitted_log. by rewrite handleIncomingRequest_run. Qed.

Lemma failure_no_invocation context error e :
  e ∈ failure context error → is_invocation e = false.
Proof.
  unfold failure. intros Hin.
  apply elem_of_cons in Hin as [->|Hin]; [done|].
  destruct (message_of error); [|by apply elem_of_nil in Hin].
  by apply list_elem_of_singleton in Hin as ->.
Qed.

Lemma conclusion_no_invocation env context p e :
  e ∈ conclusion env context p → is_invocation e = false.
Proof.
  destruct p as [|v|err]; simpl; intros Hin.
  - by apply elem_of_nil in Hin.
  - apply elem_of_cons in Hin as [->|Hin]; [done|].
    destruct (replied env context v); [|by apply elem_of_nil in Hin].
    by eapply failure_no_invocation.
  - by eapply failure_no_invocation.
Qed.


(** The failure of the handler that the race passes on: what it throws at
    once, or what it rejects its promise with within the delay of the
    timer. *)
Definition fails_with (env : Env) (mi : MethodInfo) (context : RequestContext)
    (error : thrown) : Prop :=
  registered env (handler mi) (payload context) context = ThrowsNow error
  ∨ ∃ t, registered env (handler mi) (payload context) context
         = Settles t (Reject error)
         ∧ (t <=? timer_delay env (timeout_of mi))%nat = true.

Lemma replies_failure context error :
  replies (failure context error)
  = match message_of error with
    | Some message => [EError context "METHOD_ERROR" message]
    | None => []
    end.
Proof. unfold failure. by destruct (message_of error). Qed.

Lemma caught_unreadable env v :
  v = JUndefined ∨ v = JNull →
  caught env (Thrown v) = Throw (JsError (cannot_read env v "message"))
  ∧ message_of (Thrown v) = None.
Proof. by intros [-> | ->]. Qed.

(** C3, where the code departs from it.  When the handler of a registered
    method throws [undefined] or [null], or rejects its promise with one of
    them within the delay of the timer, the [catch] block logs the failure
    and then fails itself on reading the message of the error: the call
    ends with that TypeError and no reply is sent at all, neither the
    success reply nor an error reply. *)
Theorem nullish_failure_gets_no_reply (env : Env) (s : Service)
    (context : RequestContext) (mi : MethodInfo) (v : jsval) :
  methods (requests s) !! method context = Some mi →
  v = JUndefined ∨ v = JNull →
  fails_with env mi context (Thrown v) →
  (Request.handleIncomingRequest env context s).1
  = Throw (JsError (cannot_read env v "message"))
  ∧ replies (emitted (Request.handleIncomingRequest env context) s) = []
  ∧ EInvokeMethod (handler mi) (payload context) context
    ∈ emitted (Request.handleIncomingRequest env context) s
  ∧ ELogError ("Error handling request: " +:+ method context) (Thrown v)
    ∈ emitted (Request.handleIncomingRequest env context) s.
Proof.
  intros Hm Hv Hfail.
  destruct (caught_unreadable env v Hv) as [Hc Hmsg].
  rewrite handleIncomingRequest_emitted, handleIncomingRequest_run.
  unfold handling, ending. rewrite Hm. cbn [fst].
  destruct Hfail as [Hb|(t & Hb & Ht)]; rewrite Hb.
  - rewrite Hc. split; [done|]. split.
    + unfold replies. rewrite filter_cons_False by (simpl; congruence).
      fold (replies (failure context (Thrown v))).
      by rewrite replies_failure, Hmsg.
    + split; [left|]. right. unfold failure. left.
  - unfold finish. rewrite race_in_time by done.
    cbn [concluded conclusion]. rewrite Hc.
    split; [done|]. split.
    + unfold replies. rewrite !filter_cons_False by (simpl; congruence).
      fold (replies (failure context (Thrown v))).
      by rewrite replies_failure, Hmsg.
    + split; [left|]. right. right. unfold failure. left.
Qed.

(** The handler rejects its promise with [undefined], as
    [() => Promise.reject()] does; the timer of the runtime waits the
    number of milliseconds it is given. *)
Definition rejects_undefined : Env :=
  {| transport := λ _ _ _, Answer JUndefined;
     now := λ n, Z.of_nat n;
     subscriber := λ _ _ _ _ _, Returns;
     registered := λ _ _ _, Settles 0 (Reject (Thrown JUndefined));
     timer_delay := λ v, match v with JNum n => Z.to_nat n | _ => 1 end;
     replied := λ _ _, None;
     cannot_read := λ _ property, "Cannot read property " +:+ property |}.

Definition call_slow : RequestContext :=
  {| method := "slow"; payload := JStr "ping" |}.

(** The node after [registerMethod("slow", 1, {timeout: 10})]. *)
Definition slow_registered : Service :=
  (Request.registerMethod "slow" 1 {["timeout" := JNum 10]} Satellite.new).2.

Definition slow_info : MethodInfo :=
  {| handler := 1;
     options := {["timeout" := JNum 10]} ∪ {["timeout" := JNum 30000]} |}.

Lemma nullish_failure_gets_no_reply_witness :
  (Request.handleIncomingRequest rejects_undefined call_slow slow_registered).1
  = Throw (JsError (cannot_read rejects_undefined JUndefined "message"))
  ∧ replies (emitted (Request.handleIncomingRequest rejects_undefined call_slow)
                     slow_registered) = []
  ∧ EInvokeMethod (handler slow_info) (payload call_slow) call_slow
    ∈ emitted (Request.handleIncomingRequest rejects_undefined call_slow)
              slow_registered
  ∧ ELogError ("Error handling request: " +:+ method call_slow) (Thrown JUndefined)
    ∈ emitted (Request.handleIncomingRequest rejects_undefined call_slow)
              slow_registered.
Proof.
  apply (nullish_failure_gets_no_reply rejects_undefined slow_registered
           call_slow slow_info JUndefined).
  - apply lookup_insert_eq.
  - by left.
  - right. exists 0%nat. split; reflexivity.
Defined.

(** The trace of that call: the handler is invoked, the timer armed, the
    failure logged, and nothing is sent back. *)
Example rejected_with_undefined_trace :
  Request.handleIncomingRequest rejects_undefined call_slow slow_registered
  = (Throw (JsError "Cannot read property message"),
     log [EInvokeMethod 1 (JStr "ping") call_slow;
          ESetTimeout (JNum 10);
          ELogError "Error handling request: slow" (Thrown JUndefined)]
         slow_registered).
Proof. vm_compute. reflexivity. Qed.


(** The handler takes 50 ms whatever it is given; the timer of the
    runtime waits the number of milliseconds it is given. *)
Definition slow_handler : Env :=
  {| transport := λ _ _ _, Answer JUndefined;
     now := λ n, Z.of_nat n;
     subscriber := λ _ _ _ _ _, Returns;
     registered := λ _ p _, Settles 50 (Resolve p);
     timer_delay := λ v, match v with JNum n => Z.to_nat n | _ => 1 end;
     replied := λ _ _, None;
     cannot_read := λ _ property, "Cannot read property " +:+ property |}.


(** A handler registered with a timeout of 10 ms that takes 50 ms: the
    timer fires first, the completion of the handler comes second and is
    ignored by the race, and the only reply is the timeout. *)
Example late_handler_one_timeout_reply :
  Request.schedule (Some (50, Resolve (JStr "ping"))) 10
  = [Request.TimerFired; Request.HandlerResolved (JStr "ping")]
  ∧ foldl Request.settle Request.Unsettled
      [Request.TimerFired; Request.HandlerResolved (JStr "ping")]
    = Request.Rejected "Method timeout"
  ∧ emitted (Request.handleIncomingRequest slow_handler call_slow) slow_registered
    = [EInvokeMethod 1 (JStr "ping") call_slow;
       ESetTimeout (JNum 10);
       ELogError "Error handling request: slow" "Method timeout";
       EError call_slow "METHOD_ERROR" "Method timeout"].
Proof. vm_compute. done. Qed.

(** C4.  An inbound call of a method that is not registered is answered
    with the error reply that the method was not found, and nothing else
    happens but the log of that error: no handler is invoked. *)
Theorem unknown_method_not_found (env : Env) (s : Service)
    (context : RequestContext) :
  methods (requests s) !! method context = None →
  (Request.handleIncomingRequest env context s).1 = Ok tt
  ∧ emitted (Request.handleIncomingRequest env context) s
    = [ELogError ("Error handling request: " +:+ method context)
         ("Method " +:+ method context +:+ " not found");
       EError context "METHOD_ERROR"
         ("Method " +:+ method context +:+ " not found")]
  ∧ ∀ e, e ∈ emitted (Request.handleIncomingRequest env context) s →
         is_invocation e = false.
Proof.
  intros Hm.
  split; [rewrite handleIncomingRequest_run; unfold ending; by rewrite Hm|].
  rewrite handleIncomingRequest_emitted. unfold handling. rewrite Hm.
  split; [reflexivity|]. intros e Hin.
  apply elem_of_cons in Hin as [->|Hin]; [done|].
  by apply list_elem_of_singleton in Hin as ->.
Qed.

Definition call_unknown : RequestContext :=
  {| method := "nope"; payload := JNull |}.

Lemma unknown_method_not_found_witness :
  (Request.handleIncomingRequest slow_handler call_unknown slow_registered).1
  = Ok tt
  ∧ emitted (Request.handleIncomingRequest slow_handler call_unknown)
            slow_registered
    = [ELogError ("Error handling request: " +:+ method call_unknown)
         ("Method " +:+ method call_unknown +:+ " not found");
       EError call_unknown "METHOD_ERROR"
         ("Method " +:+ method call_unknown +:+ " not found")]
  ∧ ∀ e, e ∈ emitted (Request.handleIncomingRequest slow_handler call_unknown)
               slow_registered →
         is_invocation e = false.
Proof.
  apply (unknown_method_not_found slow_handler slow_registered call_unknown).
  vm_compute. reflexivity.
Defined.

(** *** Registration *)

Definition already_registered (name : string) : string :=
  "Method " +:+ name +:+ " already registered".

(** C7.  When [name] is registered, [registerMethod(name, h, opts)]
    throws the duplicate error and leaves the node as it was, so an
    inbound call of [name] still invokes the handler registered first, and
    only that one.  When [name] is free, the registration is stored with
    handler [h] and with the timeout of [opts], or with the default
    timeout of the node when [opts] has none; the other options are
    stored as given. *)
Theorem registerMethod_duplicate (s : Service) (name : string) (h : fnref)
    (opts : gmap string jsval) :
  match methods (requests s) !! name with
  | Some first =>
      Request.registerMethod name h opts s = (Throw (already_registered name), s)
      ∧ ∀ env context, method context = name →
          ∃ rest,
            emitted (Request.handleIncomingRequest env context)
                    (Request.registerMethod name h opts s).2
            = EInvokeMethod (handler first) (payload context) context :: rest
            ∧ ∀ e, e ∈ rest → is_invocation e = false
  | None =>
      (Request.registerMethod name h opts s).1 = Ok tt
      ∧ ∃ mi,
          methods (requests (Request.registerMethod name h opts s).2) !! name
          = Some mi
          ∧ handler mi = h
          ∧ timeout_of mi = match opts !! "timeout" with
                            | Some v => v
                            | None => JNum (defaultTimeout (requests s))
                            end
          ∧ ∀ k, k ≠ "timeout" → options mi !! k = opts !! k
  end.
Proof.
  destruct (methods (requests s) !! name) as [first|] eqn:Hm.
  - assert (Request.registerMethod name h opts s
            = (Throw (already_registered name), s)) as Hrun.
    { unfold Request.registerMethod, bind, get.
      rewrite bool_decide_eq_true_2 by eauto. reflexivity. }
    split; [exact Hrun|]. intros env context Hc. rewrite Hrun. simpl.
    rewrite handleIncomingRequest_emitted. unfold handling.
    rewrite Hc, Hm. eexists. split; [reflexivity|].
    intros e Hin.
    destruct (registered env (handler first) (payload context) context)
      as [err|t r|].
    + by eapply failure_no_invocation.
    + apply elem_of_cons in Hin as [->|Hin]; [done|].
      by eapply conclusion_no_invocation.
    + apply elem_of_cons in Hin as [->|Hin]; [done|].
      by eapply conclusion_no_invocation.
  - unfold Request.registerMethod, bind, get.
    rewrite bool_decide_eq_false_2 by (intros [? ?]; congruence).
    simpl. split; [done|]. eexists. split; [apply lookup_insert_eq|].
    unfold timeout_of. simpl. split_and!; [done| |].
    + destruct (opts !! "timeout") as [v|] eqn:Ho.
      * by erewrite lookup_union_Some_l.
      * rewrite lookup_union_r by done. by rewrite lookup_singleton_eq.
    + intros k Hk.
      destruct (opts !! k) as [v|] eqn:Ho.
      * by erewrite lookup_union_Some_l.
      * rewrite lookup_union_r by done. by rewrite lookup_singleton_ne.
Qed.

(** ["x"] is registered with handler 1, then again with handler 2: the
    second registration throws, and a call of ["x"] reaches handler 1. *)
Example second_registration_rejected :
  (Request.registerMethod "x" 2 ∅
     (Request.registerMethod "x" 1 ∅ Satellite.new).2).1
  = Throw "Method x already registered"
  ∧ emitted (Request.handleIncomingRequest TopicFacts.obliging
               {| method := "x"; payload := JNum 5 |})
            (Request.registerMethod "x" 2 ∅
               (Request.registerMethod "x" 1 ∅ Satellite.new).2).2
    = [EInvokeMethod 1 (JNum 5) {| method := "x"; payload := JNum 5 |};
       ESetTimeout (JNum 30000);
       ESuccess {| method := "x"; payload := JNum 5 |} (JNum 5)].
Proof. vm_compute. done. Qed.

End RequestFacts.

(** ** Shutdown *)

Module SatelliteFacts.
Import TraceFacts.

Definition is_rejection (e : effect) : bool :=
  match e with
  | ERejectPending _ _ => true
  | _ => false
  end.

(** A computation that rejects no pending request, whatever the state it
    starts from. *)
Definition quiet {A} (m : M A) : Prop :=
  ∀ s, ∃ l, trace (m s).2 = trace s ++ l
            ∧ Forall (λ e, is_rejection e = false) l.

Lemma quiet_ret {A} (a : A) : quiet (ret a).
Proof. intros s. exists []. simpl. by rewrite app_nil_r. Qed.

Lemma quiet_throw {A} e : quiet (@throw A e).
Proof. intros s. exists []. simpl. by rewrite app_nil_r. Qed.

Lemma quiet_get : quiet get.
Proof. intros s. exists []. simpl. by rewrite app_nil_r. Qed.

Lemma quiet_modify f : (∀ s, trace (f s) = trace s) → quiet (modify f).
Proof. intros Hf s. exists []. simpl. by rewrite Hf, app_nil_r. Qed.

Lemma quiet_emit e : is_rejection e = false → quiet (emit e).
Proof. intros He s. exists [e]. split; [done|]. by constructor. Qed.

Lemma quiet_bind {A B} (m : M A) (k : A → M B) :
  quiet m → (∀ a, quiet (k a)) → quiet (bind m k).
Proof.
  intros Hm Hk s. unfold bind.
  destruct (Hm s) as (l1 & Ht1 & Hl1).
  destruct (m s) as [[a|e|] s1]; simpl in Ht1; [|by eauto..].
  destruct (Hk a s1) as (l2 & Ht2 & Hl2).
  exists (l1 ++ l2). rewrite Ht2, Ht1, app_assoc. split; [done|].
  by apply Forall_app.
Qed.

Lemma quiet_try_catch {A} (m : M A) (h : thrown → M A) :
  quiet m → (∀ e, quiet (h e)) → quiet (try_catch m h).
Proof.
  intros Hm Hh s. unfold try_catch.
  destruct (Hm s) as (l1 & Ht1 & Hl1).
  destruct (m s) as [[a|e|] s1]; simpl in Ht1; [by eauto| |by eauto].
  destruct (Hh e s1) as (l2 & Ht2 & Hl2).
  exists (l1 ++ l2). rewrite Ht2, Ht1, app_assoc. split; [done|].
  by apply Forall_app.
Qed.

Lemma quiet_for_each {A} (f : A → M unit) (xs : list A) :
  (∀ x, quiet (f x)) → quiet (for_each f xs).
Proof.
  intros Hf. induction xs as [|x xs IH]; simpl.
  - apply quiet_ret.
  - apply quiet_bind; [apply Hf | intros _; exact IH].
Qed.

Lemma quiet_client_request env name fields :
  quiet (client_request env name fields).
Proof.
  intros s. exists [ERequest name fields]. unfold client_request.
  split; [|by repeat constructor].
  by destruct (transport env (calls s) name fields).
Qed.

Lemma quiet_client_disconnect env : quiet (client_disconnect env).
Proof.
  intros s. exists [EDisconnect]. unfold client_disconnect.
  split; [|by repeat constructor].
  by destruct (transport env (calls s) "disconnect" []).
Qed.

Create HintDb quiet.

#[local] Hint Resolve quiet_ret quiet_throw quiet_get quiet_client_request
  quiet_client_disconnect : quiet.

Ltac quiet_step :=
  first
    [ apply quiet_try_catch; [|intros ?]
    | apply quiet_bind; [|intros ?]
    | apply quiet_for_each; intros ?
    | apply quiet_emit; reflexivity
    | apply quiet_modify; intros ?; reflexivity
    | solve [auto with quiet] ].

Lemma quiet_unsubscribeFromBroker env t : quiet (Topic.unsubscribeFromBroker env t).
Proof. unfold Topic.unsubscribeFromBroker. repeat quiet_step. Qed.

Lemma quiet_unsubscribe env t h : quiet (Topic.unsubscribe env t h).
Proof.
  unfold Topic.unsubscribe. quiet_step; [|repeat quiet_step].
  quiet_step; [|repeat quiet_step].
  destruct h as [h|]; [|apply quiet_unsubscribeFromBroker].
  quiet_step; [quiet_step|].
  match goal with |- quiet (match ?x with _ => _ end) => destruct x end;
    [|quiet_step].
  quiet_step; [quiet_step|].
  match goal with |- quiet (if ?b then _ else _) => destruct b end;
    [apply quiet_unsubscribeFromBroker | quiet_step].
Qed.

Lemma quiet_topic_cleanup env : quiet (Topic.cleanup env).
Proof.
  unfold Topic.cleanup. quiet_step; [quiet_step|].
  quiet_step. apply quiet_unsubscribe.
Qed.

Lemma quiet_stop env : quiet (Satellite.stop env).
Proof.
  unfold Satellite.stop.
  quiet_step; [|repeat quiet_step].
  quiet_step; [quiet_step|].
  quiet_step; [apply quiet_topic_cleanup|].
  repeat quiet_step.
Qed.

(** No operation of the node records a call in [pendingRequests]:
    [sendRequest] leaves the request manager as it found it. *)
Lemma sendRequest_records_nothing env target m d opts s :
  requests (Request.sendRequest env target m d opts s).2 = requests s.
Proof.
  unfold Request.sendRequest, try_catch, bind, get, client_request.
  by destruct (transport env (calls s) _ _).
Qed.

(** [stop] rejects nothing, in any state and whatever the transport
    does: it never reaches [RequestManager.cleanup]. *)
Lemma stop_rejects_nothing env s e :
  e ∈ emitted (Satellite.stop env) s → is_rejection e = false.
Proof.
  destruct (quiet_stop env s) as (l & Ht & Hl).
  rewrite (emitted_log _ _ _ Ht). intros Hin.
  by eapply Forall_forall in Hl.
Qed.

(** The broker never answers ['broker:request']; it accepts the rest. *)
Definition unanswered : Env :=
  {| transport := λ _ name _,
       if String.eqb name "broker:request" then Silent else Answer JUndefined;
     now := λ n, Z.of_nat n;
     subscriber := λ _ _ _ _ _, Returns;
     registered := λ _ p _, Settles 0 (Resolve p);
     timer_delay := λ v, match v with JNum n => Z.to_nat n | _ => 1 end;
     replied := λ _ _, None;
     cannot_read := λ _ property, "Cannot read property " +:+ property |}.

(** The node with one call to service ["b"] that has not completed. *)
Definition calling : Service :=
  (Satellite.request unanswered (JStr "b") "ping" JNull Satellite.new).2.

(** C6 on the code: a call is outstanding; it was not recorded in
    [pendingRequests]; [stop] cleans up the topics and disconnects, and
    rejects nothing; [RequestManager.cleanup], had it been called, would
    have found nothing to reject either. *)
Lemma stop_leaves_outstanding_call :
  (Satellite.request unanswered (JStr "b") "ping" JNull Satellite.new).1 = Pending
  ∧ pendingRequests (requests calling) = []
  ∧ (Satellite.stop unanswered calling).1 = Ok tt
  ∧ emitted (Satellite.stop unanswered) calling
    = [ELogInfo "Stopping service..."; EDisconnect; EEmit "stopped";
       ELogInfo "Service stopped"]
  ∧ emitted Request.cleanup calling = [].
Proof. vm_compute. done. Qed.

End SatelliteFacts.

(** ** The registry: lookups, round trips and the shape of the buckets *)

Module RegistryFacts.
Import Discovery DiscoveryFacts.

(** *** The capability loops as functions on one bucket *)

Lemma index_capability_bucket sid idx c c' :
  default [] (index_capability sid idx c !! c')
  = if decide (c' = c) then JsSet.add sid (default [] (idx !! c'))
    else default [] (idx !! c').
Proof.
  unfold index_capability. case_bool_decide as Hhas.
  - destruct Hhas as [b Hc]. rewrite Hc.
    destruct (decide (c' = c)) as [->|Hne].
    + by rewrite lookup_insert_eq, Hc.
    + by rewrite lookup_insert_ne.
  - assert (idx !! c = None) as Hc.
    { destruct (idx !! c) eqn:E; [|done]. exfalso. eauto. }
    rewrite lookup_insert_eq.
    destruct (decide (c' = c)) as [->|Hne].
    + by rewrite lookup_insert_eq, Hc.
    + by rewrite !lookup_insert_ne.
Qed.

Lemma add_add {A} `{EqDecision A} (x : A) (s : list A) :
  JsSet.add x (JsSet.add x s) = JsSet.add x s.
Proof.
  unfold JsSet.add at 1. rewrite bool_decide_eq_true_2; [done|].
  apply JsSetFacts.elem_of_add. by left.
Qed.

Lemma join_loop_bucket sid caps idx c' :
  default [] (foldl (index_capability sid) idx caps !! c')
  = if bool_decide (c' ∈ caps) then JsSet.add sid (default [] (idx !! c'))
    else default [] (idx !! c').
Proof.
  revert idx. induction caps as [|c caps IH]; intros idx; cbn [foldl].
  - rewrite bool_decide_eq_false_2; [done|]. apply not_elem_of_nil.
  - rewrite IH, index_capability_bucket.
    destruct (decide (c' = c)) as [->|Hne].
    + rewrite (bool_decide_eq_true_2 (c ∈ c :: caps)) by left.
      case_bool_decide; [apply add_add | done].
    + case_bool_decide as Hin.
      * rewrite bool_decide_eq_true_2; [done|]. by right.
      * rewrite bool_decide_eq_false_2; [done|].
        intros [?|?]%elem_of_cons; done.
Qed.

Lemma delete_delete {A} `{EqDecision A} (x : A) (s : list A) :
  JsSet.delete x (JsSet.delete x s) = JsSet.delete x s.
Proof.
  unfold JsSet.delete. induction s as [|y s IH]; [done|].
  rewrite filter_cons. destruct (decide (y ≠ x)) as [Hne|Heq]; [|done].
  rewrite filter_cons. rewrite decide_True by done. by rewrite IH.
Qed.

Lemma unindex_capability_bucket sid idx c c' :
  default [] (unindex_capability sid idx c !! c')
  = if decide (c' = c) then JsSet.delete sid (default [] (idx !! c'))
    else default [] (idx !! c').
Proof.
  unfold unindex_capability.
  destruct (idx !! c) as [b|] eqn:Hc.
  - destruct (length (JsSet.delete sid b) =? 0)%nat eqn:Hlen.
    + apply Nat.eqb_eq, length_zero_iff_nil in Hlen.
      destruct (decide (c' = c)) as [->|Hne].
      * by rewrite lookup_delete_eq, Hc.
      * by rewrite lookup_delete_ne.
    + destruct (decide (c' = c)) as [->|Hne].
      * by rewrite lookup_insert_eq, Hc.
      * by rewrite lookup_insert_ne.
  - destruct (decide (c' = c)) as [->|Hne]; [|done]. by rewrite Hc.
Qed.

Lemma leave_loop_bucket sid caps idx c' :
  default [] (foldl (unindex_capability sid) idx caps !! c')
  = if bool_decide (c' ∈ caps) then JsSet.delete sid (default [] (idx !! c'))
    else default [] (idx !! c').
Proof.
  revert idx. induction caps as [|c caps IH]; intros idx; cbn [foldl].
  - rewrite bool_decide_eq_false_2; [done|]. apply not_elem_of_nil.
  - rewrite IH, unindex_capability_bucket.
    destruct (decide (c' = c)) as [->|Hne].
    + rewrite (bool_decide_eq_true_2 (c ∈ c :: caps)) by left.
      case_bool_decide; [apply delete_delete | done].
    + case_bool_decide as Hin.
      * rewrite bool_decide_eq_true_2; [done|]. by right.
      * rewrite bool_decide_eq_false_2; [done|].
        intros [?|?]%elem_of_cons; done.
Qed.

Lemma delete_add_fresh {A} `{EqDecision A} (x : A) (s : list A) :
  x ∉ s → JsSet.delete x (JsSet.add x s) = s.
Proof.
  intros Hx. unfold JsSet.add. rewrite bool_decide_eq_false_2 by done.
  unfold JsSet.delete. rewrite filter_app, filter_cons.
  rewrite decide_False by (intros H'; by apply H').
  rewrite filter_nil, app_nil_r.
  induction s as [|y s IH]; [done|].
  rewrite filter_cons. apply not_elem_of_cons in Hx as [Hne Hx].
  rewrite decide_True by done. by rewrite IH.
Qed.

Lemma find_elem (d : DiscoveryManager) c r :
  r ∈ findServicesByCapability c d
  ↔ ∃ sid info, r = Some info ∧ sid ∈ bucket d c ∧ services d !! sid = Some info.
Proof.
  unfold findServicesByCapability.
  rewrite list_elem_of_filter, list_elem_of_fmap. split.
  - intros [Hb (sid & -> & Hin)].
    destruct (services d !! sid) as [info|] eqn:Hs; [|discriminate]. eauto.
  - intros (sid & info & -> & Hin & Hs). split; [done|].
    exists sid. by rewrite Hs.
Qed.

(** *** Join, then look up *)

(** X1.  Right after [handleServiceJoined(info)], whatever the registry
    held before: [findServiceById] returns [info]; [findServiceByName]
    returns [info] too, unless the id of [info] is the empty string, which
    the truthiness test of [findServiceByName] takes for a missing entry;
    and [findServicesByCapability] returns [info] for each capability that
    [info] lists. *)
Theorem joined_service_is_found (info : ServiceInfo) (d : DiscoveryManager) :
  findServiceById (id info) (handleServiceJoined info d).1 = Some info
  ∧ findServiceByName (name info) (handleServiceJoined info d).1
    = (if String.eqb (id info) EmptyString then None else Some info)
  ∧ ∀ c, c ∈ capabilities info →
         Some info ∈ findServicesByCapability c (handleServiceJoined info d).1.
Proof.
  split_and!.
  - unfold findServiceById. simpl. apply lookup_insert_eq.
  - unfold findServiceByName. simpl. rewrite lookup_insert_eq. simpl.
    destruct (String.eqb (id info) EmptyString); simpl; [done|].
    apply lookup_insert_eq.
  - intros c Hc. apply find_elem. exists (id info), info. split_and!; [done| |].
    + apply bucket_join. by left.
    + simpl. apply lookup_insert_eq.
Qed.

(** *** Join, then leave *)

(** X2.  After [handleServiceJoined(info)] followed by
    [handleServiceLeft(info.id)], whatever the registry held before: the id
    has no record, the name of [info] has no entry in the name index, the id
    is in no bucket of a capability of [info], the records of the other ids
    are what they were, and the two notifications carry [info]. *)
Theorem left_service_is_gone (info : ServiceInfo) (d : DiscoveryManager) :
  findServiceById (id info)
    (handleServiceLeft (id info) (handleServiceJoined info d).1).1 = None
  ∧ findServiceByName (name info)
      (handleServiceLeft (id info) (handleServiceJoined info d).1).1 = None
  ∧ (∀ c, c ∈ capabilities info →
       id info ∉ bucket (handleServiceLeft (id info)
                           (handleServiceJoined info d).1).1 c)
  ∧ (∀ i, i ≠ id info →
       findServiceById i (handleServiceLeft (id info)
                            (handleServiceJoined info d).1).1
       = findServiceById i d)
  ∧ (handleServiceJoined info d).2 ++
    (handleServiceLeft (id info) (handleServiceJoined info d).1).2
    = [Emit "service:discovered" info;
       Debug ("Service discovered: " +:+ name info) info;
       Emit "service:lost" info;
       Debug ("Service lost: " +:+ name info) info].
Proof.
  assert (services (handleServiceJoined info d).1 !! id info = Some info) as Hs
    by (simpl; apply lookup_insert_eq).
  split_and!.
  - unfold findServiceById, handleServiceLeft. rewrite Hs. simpl.
    apply lookup_delete_eq.
  - unfold findServiceByName, handleServiceLeft. rewrite Hs. simpl.
    by rewrite lookup_delete_eq.
  - intros c Hc Hin. apply bucket_leave in Hin as [_ Hn].
    apply Hn. split; [done|]. eauto.
  - intros i Hi. unfold findServiceById, handleServiceLeft. rewrite Hs. simpl.
    rewrite lookup_delete_ne by done. by rewrite lookup_insert_ne.
  - unfold handleServiceLeft. rewrite Hs. reflexivity.
Qed.

(** X3.  When the id of [info] is new to the registry (no record, and in
    no bucket), a join followed by the leave of that id gives back the
    records and every bucket exactly as they were. *)
Theorem join_leave_restores (info : ServiceInfo) (d : DiscoveryManager) :
  services d !! id info = None →
  (∀ c, id info ∉ bucket d c) →
  services (handleServiceLeft (id info) (handleServiceJoined info d).1).1
  = services d
  ∧ ∀ c, bucket (handleServiceLeft (id info) (handleServiceJoined info d).1).1 c
         = bucket d c.
Proof.
  intros Hnew Hfresh.
  assert (services (handleServiceJoined info d).1 !! id info = Some info) as Hs
    by (simpl; apply lookup_insert_eq).
  split.
  - unfold handleServiceLeft. rewrite Hs. simpl.
    rewrite delete_insert_eq. by apply delete_id.
  - intros c. unfold bucket, handleServiceLeft. rewrite Hs. simpl.
    rewrite leave_loop_bucket, join_loop_bucket.
    specialize (Hfresh c). unfold bucket in Hfresh.
    case_bool_decide; [by apply delete_add_fresh | done].
Qed.

Lemma join_leave_restores_witness :
  services (handleServiceLeft (id r_b_y)
              (handleServiceJoined r_b_y (run [Join r_a_x])).1).1
  = services (run [Join r_a_x])
  ∧ ∀ c, bucket (handleServiceLeft (id r_b_y)
                   (handleServiceJoined r_b_y (run [Join r_a_x])).1).1 c
         = bucket (run [Join r_a_x]) c.
Proof.
  apply (join_leave_restores r_b_y (run [Join r_a_x])).
  - vm_compute. reflexivity.
  - intros c Hin.
    assert (listed (run [Join r_a_x]) "b" c) as (info & Hi & _).
    { revert Hin. apply (bucket_listed_from new [Join r_a_x]); [reflexivity|].
      intros i c' H. by apply new_no_bucket in H. }
    vm_compute in Hi. discriminate.
Defined.

(** *** The shape of the buckets *)

(** Every bucket of the index holds an id, and holds no id twice. *)
Definition well_formed (idx : gmap string (list string)) : Prop :=
  ∀ c b, idx !! c = Some b → b ≠ [] ∧ NoDup b.

Lemma add_not_nil {A} `{EqDecision A} (x : A) (s : list A) : JsSet.add x s ≠ [].
Proof.
  intros Hnil. assert (x ∈ JsSet.add x s) as Hin
    by (apply JsSetFacts.elem_of_add; by left).
  rewrite Hnil in Hin. by apply elem_of_nil in Hin.
Qed.

Lemma index_capability_well_formed sid idx c :
  well_formed idx → well_formed (index_capability sid idx c).
Proof.
  intros Hwf c' b'. unfold index_capability. case_bool_decide as Hhas.
  - destruct Hhas as [b Hc]. rewrite Hc.
    destruct (decide (c' = c)) as [->|Hne].
    + rewrite lookup_insert_eq. intros [= <-].
      split; [apply add_not_nil|]. apply JsSetFacts.add_NoDup.
      by apply (Hwf c b).
    + rewrite lookup_insert_ne by done. apply Hwf.
  - rewrite lookup_insert_eq.
    destruct (decide (c' = c)) as [->|Hne].
    + rewrite lookup_insert_eq. intros [= <-].
      split; [apply add_not_nil|]. apply JsSetFacts.add_NoDup, NoDup_nil_2.
    + rewrite !lookup_insert_ne by done. apply Hwf.
Qed.

Lemma unindex_capability_well_formed sid idx c :
  well_formed idx → well_formed (unindex_capability sid idx c).
Proof.
  intros Hwf c' b'. unfold unindex_capability.
  destruct (idx !! c) as [b|] eqn:Hc; [|apply Hwf].
  destruct (length (JsSet.delete sid b) =? 0)%nat eqn:Hlen.
  - destruct (decide (c' = c)) as [->|Hne].
    + by rewrite lookup_delete_eq.
    + rewrite lookup_delete_ne by done. apply Hwf.
  - destruct (decide (c' = c)) as [->|Hne].
    + rewrite lookup_insert_eq. intros [= <-]. split.
      * intros Hnil. rewrite Hnil in Hlen. discriminate.
      * apply NoDup_filter. by apply (Hwf c b).
    + rewrite lookup_insert_ne by done. apply Hwf.
Qed.

Lemma apply_well_formed d o :
  well_formed (servicesByCapability d) →
  well_formed (servicesByCapability (apply d o)).
Proof.
  intros Hwf. destruct o as [info|sid]; simpl.
  - generalize dependent (servicesByCapability d).
    induction (capabilities info) as [|c caps IH]; intros idx Hwf; [done|].
    simpl. by apply IH, index_capability_well_formed.
  - unfold handleServiceLeft.
    destruct (services d !! sid) as [info|]; [|done]. simpl.
    generalize dependent (servicesByCapability d).
    induction (capabilities info) as [|c caps IH]; intros idx Hwf; [done|].
    simpl. by apply IH, unindex_capability_well_formed.
Qed.

(** X4.  After every sequence of join and leave events, each bucket that
    the capability index holds is non-empty and lists no id twice: a bucket
    emptied by a leave is deleted, and a join adds an id at most once. *)
Theorem buckets_never_empty (ops : list op) (c : string) (b : list string) :
  servicesByCapability (run ops) !! c = Some b → b ≠ [] ∧ NoDup b.
Proof.
  revert c b. change (well_formed (servicesByCapability (run ops))).
  unfold run.
  assert (well_formed (servicesByCapability new)) as Hnew.
  { intros c b H. simpl in H. by rewrite lookup_empty in H. }
  generalize dependent new.
  induction ops as [|o ops IH]; intros d Hd; [done|].
  simpl. by apply IH, apply_well_formed.
Qed.

Lemma buckets_never_empty_witness :
  ["a"; "b"] ≠ [] ∧ NoDup ["a"; "b"].
Proof.
  apply (buckets_never_empty [Join r_a_y; Join r_b_y; Join r_a_y] "y").
  vm_compute. reflexivity.
Defined.

(** *** Lookup by capability in the states the node reaches *)

(** A record is stored under its own id. *)
Definition own_id (d : DiscoveryManager) : Prop :=
  ∀ i info, services d !! i = Some info → id info = i.

Lemma apply_own_id d o : own_id d → own_id (apply d o).
Proof.
  intros Hd i info. destruct o as [info'|sid]; simpl.
  - destruct (decide (i = id info')) as [->|Hne].
    + rewrite lookup_insert_eq. by intros [= <-].
    + rewrite lookup_insert_ne by done. apply Hd.
  - unfold handleServiceLeft.
    destruct (services d !! sid) as [info'|]; [|apply Hd]. simpl.
    destruct (decide (i = sid)) as [->|Hne].
    + by rewrite lookup_delete_eq.
    + rewrite lookup_delete_ne by done. apply Hd.
Qed.

Lemma run_own_id ops : own_id (run ops).
Proof.
  unfold run.
  assert (own_id new) as Hnew.
  { intros i info H. simpl in H. by rewrite lookup_empty in H. }
  generalize dependent new.
  induction ops as [|o ops IH]; intros d Hd; [done|].
  simpl. by apply IH, apply_own_id.
Qed.

(** X5.  After every sequence of join and leave events,
    [findServicesByCapability(c)] returns every stored record that lists
    [c]; and when no join of the sequence replaces a stored record by one
    that drops a capability, it returns nothing else: each record it returns
    is the one stored under its own id, and lists [c]. *)
Theorem lookup_by_capability_exact (ops : list op) (c : string)
    (info : ServiceInfo) :
  (findServiceById (id info) (run ops) = Some info ∧ c ∈ capabilities info →
   Some info ∈ findServicesByCapability c (run ops))
  ∧ (rejoin_keeps_capabilities new ops = true →
     Some info ∈ findServicesByCapability c (run ops) →
     findServiceById (id info) (run ops) = Some info ∧ c ∈ capabilities info).
Proof.
  unfold findServiceById. split.
  - intros [Hs Hc]. apply find_elem. exists (id info), info.
    split_and!; [done| |done].
    apply (listed_in_bucket_from new ops).
    + intros i c' H. by apply new_no_record in H.
    + by exists info.
  - intros Hk Hin. apply find_elem in Hin as (sid & info' & [= <-] & Hb & Hs).
    pose proof (run_own_id ops sid info Hs) as Hid. subst sid.
    split; [done|].
    assert (listed (run ops) (id info) c) as (info' & Hs' & Hc).
    { revert Hb. apply (bucket_listed_from new ops Hk).
      intros i c' H. by apply new_no_bucket in H. }
    rewrite Hs in Hs'. by injection Hs' as <-.
Qed.

Lemma lookup_by_capability_exact_witness :
  (findServiceById (id r_b_y) (run [Join r_a_x; Join r_b_y]) = Some r_b_y
   ∧ "y" ∈ capabilities r_b_y →
   Some r_b_y ∈ findServicesByCapability "y" (run [Join r_a_x; Join r_b_y]))
  ∧ (rejoin_keeps_capabilities new [Join r_a_x; Join r_b_y] = true →
     Some r_b_y ∈ findServicesByCapability "y" (run [Join r_a_x; Join r_b_y]) →
     findServiceById (id r_b_y) (run [Join r_a_x; Join r_b_y]) = Some r_b_y
     ∧ "y" ∈ capabilities r_b_y).
Proof. apply (lookup_by_capability_exact [Join r_a_x; Join r_b_y] "y" r_b_y). Defined.

End RegistryFacts.

(** ** What a computation keeps *)

Module KeepFacts.

(** The node with another trace and another count of transport calls. *)
Definition observed (t : list effect) (n : nat) (s : Service) : Service :=
  {| topics := topics s; discovery := discovery s; requests := requests s;
     ready := ready s; connected := connected s; identified := identified s;
     trace := t; calls := n |}.

(** A property of the node that does not look at the trace. *)
Definition blind (P : Service → Prop) : Prop :=
  ∀ s t n, P s → P (observed t n s).

(** [m] keeps [P]: whatever the state in which [P] holds, [P] holds when
    [m] ends, stops on an exception or is left pending. *)
Definition keeps (P : Service → Prop) {A} (m : M A) : Prop :=
  ∀ s, P s → P (m s).2.

Section Keeps.
Variable P : Service → Prop.
Hypothesis P_blind : blind P.

Lemma keeps_ret {A} (a : A) : keeps P (ret a).
Proof. by intros s. Qed.

Lemma keeps_throw {A} e : keeps P (@throw A e).
Proof. by intros s. Qed.

Lemma keeps_get : keeps P get.
Proof. by intros s. Qed.

Lemma keeps_pending {A} : keeps P (λ s, (@Pending A, s)).
Proof. by intros s. Qed.

Lemma keeps_emit e : keeps P (emit e).
Proof. intros s Hs. apply (P_blind s (trace s ++ [e]) (calls s) Hs). Qed.

Lemma keeps_modify f : (∀ s, P s → P (f s)) → keeps P (modify f).
Proof. intros Hf s Hs. by apply Hf. Qed.

Lemma keeps_bind {A B} (m : M A) (k : A → M B) :
  keeps P m → (∀ a, keeps P (k a)) → keeps P (bind m k).
Proof.
  intros Hm Hk s Hs. unfold bind. specialize (Hm s Hs).
  destruct (m s) as [[a|e|] s1]; simpl in *; [by apply Hk|done..].
Qed.

Lemma keeps_try_catch {A} (m : M A) (h : thrown → M A) :
  keeps P m → (∀ e, keeps P (h e)) → keeps P (try_catch m h).
Proof.
  intros Hm Hh s Hs. unfold try_catch. specialize (Hm s Hs).
  destruct (m s) as [[a|e|] s1]; simpl in *; [done|by apply Hh|done].
Qed.

Lemma keeps_for_each {A} (f : A → M unit) (xs : list A) :
  (∀ x, keeps P (f x)) → keeps P (for_each f xs).
Proof.
  intros Hf. induction xs as [|x xs IH]; simpl.
  - apply keeps_ret.
  - apply keeps_bind; [apply Hf | intros _; exact IH].
Qed.

Lemma keeps_client_request env name fields :
  keeps P (client_request env name fields).
Proof.
  intros s Hs. unfold client_request.
  pose proof (P_blind s (trace s ++ [ERequest name fields]) (S (calls s)) Hs).
  by destruct (transport env (calls s) name fields).
Qed.

Lemma keeps_client_disconnect env : keeps P (client_disconnect env).
Proof.
  intros s Hs. unfold client_disconnect.
  pose proof (P_blind s (trace s ++ [EDisconnect]) (S (calls s)) Hs).
  by destruct (transport env (calls s) "disconnect" []).
Qed.

End Keeps.

(** A property of the tables of the topic manager, as a property of the
    node. *)
Lemma blind_topics (Q : TopicManager → Prop) : blind (λ s, Q (topics s)).
Proof. by intros s t n. Qed.

Lemma blind_requests (Q : RequestManager → Prop) : blind (λ s, Q (requests s)).
Proof. by intros s t n. Qed.

Lemma blind_discovery (Q : Discovery.DiscoveryManager → Prop) :
  blind (λ s, Q (discovery s)).
Proof. by intros s t n. Qed.

End KeepFacts.

(** ** Ordered maps *)

Module JsMapFacts.
Section JsMapFacts.
Context {V : Type}.

Lemma elem_of_keys_set (t k : string) (v : V) (m : list (string * V)) :
  t ∈ JsMap.keys (JsMap.set k v m) ↔ t = k ∨ t ∈ JsMap.keys m.
Proof.
  unfold JsMap.keys. induction m as [|[k' v'] m IH]; simpl.
  - rewrite list_elem_of_singleton, elem_of_nil. tauto.
  - case_bool_decide as Hk; simpl.
    + subst k'. rewrite !elem_of_cons. tauto.
    + rewrite !elem_of_cons, IH. tauto.
Qed.

Lemma elem_of_keys_delete (t k : string) (m : list (string * V)) :
  t ∈ JsMap.keys (JsMap.delete k m) ↔ t ≠ k ∧ t ∈ JsMap.keys m.
Proof.
  unfold JsMap.keys, JsMap.delete. induction m as [|[k' v'] m IH]; simpl.
  - rewrite elem_of_nil. tauto.
  - rewrite filter_cons. simpl.
    destruct (decide (k' ≠ k)) as [Hne|Heq]; simpl.
    + rewrite !elem_of_cons, IH. split; [|tauto].
      intros [->|[? ?]]; tauto.
    + apply dec_stable in Heq. subst k'.
      rewrite elem_of_cons, IH. split; [tauto|].
      intros [Hne [?|?]]; done.
Qed.

Lemma get_set (k : string) (v : V) (m : list (string * V)) :
  JsMap.get k (JsMap.set k v m) = Some v.
Proof.
  induction m as [|[k' v'] m IH]; simpl.
  - by rewrite bool_decide_eq_true_2.
  - case_bool_decide as Hk; simpl.
    + by rewrite bool_decide_eq_true_2.
    + by rewrite bool_decide_eq_false_2.
Qed.

Lemma delete_all_keys (m : list (string * V)) (ks : list string) :
  (∀ t, t ∈ JsMap.keys m → t ∈ ks) →
  foldl (λ m t, JsMap.delete t m) m ks = [].
Proof.
  revert m. induction ks as [|k ks IH]; intros m Hm; simpl.
  - destruct m as [|[k v] m]; [done|].
    exfalso. eapply not_elem_of_nil, (Hm k). unfold JsMap.keys. simpl. left.
  - apply IH. intros t [Hne Ht]%elem_of_keys_delete.
    apply Hm in Ht. apply elem_of_cons in Ht as [?|?]; done.
Qed.

End JsMapFacts.
End JsMapFacts.

(** ** The topic router: the tables, delivery, and the other operations *)

Module RouterFacts.
Import TraceFacts TopicFacts KeepFacts.

(** *** What [subscribe] and [unsubscribe] do to the tables *)

(** The tables after [h] has been recorded for [t] at time [ts]. *)
Definition subscribed (t : string) (h : fnref) (ts : Z) (tm : TopicManager)
    : TopicManager :=
  {| subscriptions := JsMap.set t (ts, h) (subscriptions tm);
     handlers := <[t := JsSet.add h (default [] (handlers tm !! t))]> (handlers tm) |}.

(** The tables without [t]. *)
Definition dropped (t : string) (tm : TopicManager) : TopicManager :=
  {| subscriptions := JsMap.delete t (subscriptions tm);
     handlers := delete t (handlers tm) |}.

(** The tables with [hs] as the handler set of [t]. *)
Definition with_handlers (t : string) (hs : list fnref) (tm : TopicManager)
    : TopicManager :=
  {| subscriptions := subscriptions tm;
     handlers := <[t := hs]> (handlers tm) |}.

Lemma tables_eq (a b : TopicManager) :
  subscriptions a = subscriptions b → handlers a = handlers b → a = b.
Proof. destruct a, b. simpl. by intros -> ->. Qed.

Lemma subscribe_topics env t h s :
  topics (Topic.subscribe env t h s).2
  = match transport env (calls s) "broker:subscribe" [("topic", JStr t)] with
    | Answer _ => subscribed t h (now env (S (calls s))) (topics s)
    | _ => topics s
    end.
Proof.
  destruct (transport env (calls s) "broker:subscribe" [("topic", JStr t)])
    as [v|e|] eqn:Hr.
  - apply tables_eq.
    + unfold Topic.subscribe, try_catch, bind, client_request.
      rewrite Hr. reflexivity.
    + by erewrite subscribe_handlers.
  - unfold Topic.subscribe, try_catch, bind, client_request.
    rewrite Hr. reflexivity.
  - unfold Topic.subscribe, try_catch, bind, client_request.
    rewrite Hr. reflexivity.
Qed.

Lemma unsubscribe_all_topics env t s :
  topics (Topic.unsubscribe env t None s).2
  = match transport env (calls s) "broker:unsubscribe" [("topic", JStr t)] with
    | Answer _ => dropped t (topics s)
    | _ => topics s
    end.
Proof.
  unfold Topic.unsubscribe, Topic.unsubscribeFromBroker, try_catch, bind,
    client_request.
  by destruct (transport env (calls s) "broker:unsubscribe" [("topic", JStr t)]).
Qed.

Lemma unsubscribe_one_topics env t h s :
  topics (Topic.unsubscribe env t (Some h) s).2
  = match handlers (topics s) !! t with
    | None => topics s
    | Some hs =>
        if (length (JsSet.delete h hs) =? 0)%nat then
          match transport env (calls s) "broker:unsubscribe" [("topic", JStr t)] with
          | Answer _ => dropped t (with_handlers t (JsSet.delete h hs) (topics s))
          | _ => with_handlers t (JsSet.delete h hs) (topics s)
          end
        else with_handlers t (JsSet.delete h hs) (topics s)
    end.
Proof.
  unfold Topic.unsubscribe. unfold try_catch at 1. unfold bind at 1.
  unfold bind at 1. unfold get.
  destruct (handlers (topics s) !! t) as [hs|] eqn:Hhs; [|reflexivity].
  unfold bind at 1. unfold modify at 1.
  destruct (length (JsSet.delete h hs) =? 0)%nat; [|reflexivity].
  unfold Topic.unsubscribeFromBroker, try_catch, bind, client_request. simpl.
  by destruct (transport env (calls s) "broker:unsubscribe" [("topic", JStr t)]).
Qed.

(** *** The two tables go together *)

(** The two tables have the same topics, and no handler set lists a
    handler twice. *)
Definition coherent (tm : TopicManager) : Prop :=
  (∀ t, t ∈ JsMap.keys (subscriptions tm) ↔ is_Some (handlers tm !! t))
  ∧ (∀ t hs, handlers tm !! t = Some hs → NoDup hs).

Lemma coherent_new : coherent Topic.new.
Proof.
  split.
  - intros t. simpl. rewrite lookup_empty. split.
    + intros H. by apply elem_of_nil in H.
    + by intros [? ?].
  - intros t hs. simpl. by rewrite lookup_empty.
Qed.

Lemma coherent_subscribed t h ts tm :
  coherent tm → coherent (subscribed t h ts tm).
Proof.
  intros [Hk Hn]. split.
  - intros t'. simpl. rewrite JsMapFacts.elem_of_keys_set, Hk.
    destruct (decide (t' = t)) as [->|Hne].
    + rewrite lookup_insert_eq. split; eauto.
    + rewrite lookup_insert_ne by done. split; [intros [?|?]; done | eauto].
  - intros t' hs. simpl.
    destruct (decide (t' = t)) as [->|Hne].
    + rewrite lookup_insert_eq. intros [= <-]. apply JsSetFacts.add_NoDup.
      destruct (handlers tm !! t) eqn:E; simpl; [by eapply Hn | apply NoDup_nil_2].
    + rewrite lookup_insert_ne by done. apply Hn.
Qed.

Lemma coherent_dropped t tm : coherent tm → coherent (dropped t tm).
Proof.
  intros [Hk Hn]. split.
  - intros t'. simpl. rewrite JsMapFacts.elem_of_keys_delete, Hk.
    destruct (decide (t' = t)) as [->|Hne].
    + rewrite lookup_delete_eq. split; [by intros [? ?] | by intros [? ?]].
    + rewrite lookup_delete_ne by done. tauto.
  - intros t' hs. simpl.
    destruct (decide (t' = t)) as [->|Hne].
    + by rewrite lookup_delete_eq.
    + rewrite lookup_delete_ne by done. apply Hn.
Qed.

Lemma coherent_with_handlers t h hs tm :
  handlers tm !! t = Some hs →
  coherent tm → coherent (with_handlers t (JsSet.delete h hs) tm).
Proof.
  intros Hhs [Hk Hn]. split.
  - intros t'. simpl. rewrite Hk.
    destruct (decide (t' = t)) as [->|Hne].
    + rewrite lookup_insert_eq, Hhs. split; eauto.
    + by rewrite lookup_insert_ne.
  - intros t' hs'. simpl.
    destruct (decide (t' = t)) as [->|Hne].
    + rewrite lookup_insert_eq. intros [= <-].
      apply NoDup_filter. by eapply Hn.
    + rewrite lookup_insert_ne by done. apply Hn.
Qed.

Lemma subscribe_coherent env t h :
  keeps (λ s, coherent (topics s)) (Topic.subscribe env t h).
Proof.
  intros s Hs. rewrite subscribe_topics.
  destruct (transport env (calls s) _ _); [by apply coherent_subscribed|done..].
Qed.

Lemma unsubscribe_coherent env t o :
  keeps (λ s, coherent (topics s)) (Topic.unsubscribe env t o).
Proof.
  intros s Hs. destruct o as [h|].
  - rewrite unsubscribe_one_topics.
    destruct (handlers (topics s) !! t) as [hs|] eqn:Hhs; [|done].
    pose proof (coherent_with_handlers t h hs _ Hhs Hs) as H1.
    destruct (length (JsSet.delete h hs) =? 0)%nat; [|done].
    destruct (transport env (calls s) _ _); [by apply coherent_dropped|done..].
  - rewrite unsubscribe_all_topics.
    destruct (transport env (calls s) _ _); [by apply coherent_dropped|done..].
Qed.

Lemma publish_keeps (P : Service → Prop) env t d :
  blind P → keeps P (Topic.publish env t d).
Proof.
  intros HP. unfold Topic.publish.
  apply keeps_try_catch.
  - apply keeps_bind.
    + by apply keeps_client_request.
    + intros _. by apply keeps_emit.
  - intros e. apply keeps_bind.
    + by apply keeps_emit.
    + intros _. by apply keeps_throw.
Qed.

Lemma dispatch_keeps (P : Service → Prop) env message :
  blind P → keeps P (Topic.dispatch env message).
Proof.
  intros HP. unfold Topic.dispatch.
  apply keeps_try_catch; [|intros e; by apply keeps_emit].
  apply keeps_bind; [by apply keeps_get|]. intros s.
  destruct (handlers (topics s) !! topic message) as [hs|];
    [|by apply keeps_ret].
  apply keeps_for_each. intros h.
  apply keeps_try_catch; [|intros e; by apply keeps_emit].
  unfold Topic.call_subscriber.
  apply keeps_bind; [by apply keeps_emit|]. intros _.
  destruct (subscriber env h _ _ _ _);
    [by apply keeps_ret | by apply keeps_throw | by apply keeps_pending].
Qed.

Lemma cleanup_coherent env :
  keeps (λ s, coherent (topics s)) (Topic.cleanup env).
Proof.
  unfold Topic.cleanup.
  apply keeps_bind; [by apply keeps_get|]. intros s.
  apply keeps_for_each. intros t.
  apply unsubscribe_coherent.
Qed.

(** The operations of the topic manager. *)
Inductive call :=
| Subscribe (t : string) (h : fnref)
| Unsubscribe (t : string) (h : option fnref)
| Publish (t : string) (d : jsval)
| Dispatch (message : Message)
| Cleanup.

Definition perform (env : Env) (c : call) : M unit :=
  match c with
  | Subscribe t h => Topic.subscribe env t h
  | Unsubscribe t h => Topic.unsubscribe env t h
  | Publish t d => Topic.publish env t d
  | Dispatch message => Topic.dispatch env message
  | Cleanup => Topic.cleanup env
  end.

(** The node after a sequence of operations, each one run to its end,
    whether it succeeds, fails or is left pending. *)
Definition after (env : Env) (cs : list call) (s : Service) : Service :=
  foldl (λ s c, (perform env c s).2) s cs.

Lemma perform_coherent env c :
  keeps (λ s, coherent (topics s)) (perform env c).
Proof.
  destruct c; simpl.
  - apply subscribe_coherent.
  - apply unsubscribe_coherent.
  - apply publish_keeps, blind_topics.
  - apply dispatch_keeps, blind_topics.
  - apply cleanup_coherent.
Qed.

(** X6.  Whatever the broker answers, after every sequence of
    [subscribe], [unsubscribe] (either form), [publish], inbound messages
    and [cleanup] on a new node, a topic is a key of [subscriptions] exactly
    when it is a key of [handlers], and no handler set holds a handler
    twice. *)
Theorem tables_stay_coherent (env : Env) (cs : list call) :
  (∀ t, t ∈ JsMap.keys (subscriptions (topics (after env cs Satellite.new)))
        ↔ is_Some (handlers (topics (after env cs Satellite.new)) !! t))
  ∧ (∀ t hs, handlers (topics (after env cs Satellite.new)) !! t = Some hs →
             NoDup hs).
Proof.
  change (coherent (topics (after env cs Satellite.new))).
  unfold after.
  assert (coherent (topics Satellite.new)) as Hnew by apply coherent_new.
  generalize dependent Satellite.new.
  induction cs as [|c cs IH]; intros s Hs; [done|].
  simpl. apply IH. by apply perform_coherent.
Qed.

(** *** Delivery, handler by handler *)

Definition hangs (env : Env) (message : Message) (h : fnref) : bool :=
  match outcome_of env message h with
  | Hangs => true
  | _ => false
  end.

(** The handlers that a dispatch gets to: those up to the first one whose
    promise is never settled, that one included. *)
Fixpoint reached (env : Env) (message : Message) (hs : list fnref) : list fnref :=
  match hs with
  | [] => []
  | h :: hs => if hangs env message h then [h] else h :: reached env message hs
  end.

Definition stalls (env : Env) (message : Message) (hs : list fnref) : bool :=
  existsb (hangs env message) hs.

Lemma deliver_reached env message hs s :
  for_each (λ h,
    try_catch (Topic.call_subscriber env message h)
      (λ error, emit (handler_failure message error))) hs s
  = (if stalls env message hs then Pending else Ok tt,
     log (mjoin (delivery env message <$> reached env message hs)) s).
Proof.
  revert s. induction hs as [|h hs IH]; intros s.
  - simpl. by rewrite log_nil.
  - cbn [for_each reached stalls existsb].
    assert (hangs env message h
            = match outcome_of env message h with Hangs => true | _ => false end)
      as Hh by reflexivity.
    rewrite !Hh. fold (stalls env message hs).
    unfold bind at 1. unfold try_catch at 1.
    unfold Topic.call_subscriber.
    unfold bind at 1. rewrite emit_run.
    fold (outcome_of env message h). fold (invocation message h).
    destruct (outcome_of env message h) as [|e|] eqn:Ho.
    + unfold ret. rewrite IH. cbn [orb fmap list_fmap mjoin list_join].
      unfold delivery at 2. rewrite Ho. by rewrite log_log.
    + unfold throw. rewrite emit_run, IH. cbn [orb fmap list_fmap mjoin list_join].
      unfold delivery at 2. rewrite Ho. by rewrite !log_log.
    + cbn [orb fmap list_fmap mjoin list_join].
      unfold delivery. rewrite Ho. by rewrite app_nil_r.
Qed.

Lemma reached_prefix env message hs :
  ∃ rest, hs = reached env message hs ++ rest.
Proof.
  induction hs as [|h hs [rest IH]]; [by exists []|].
  simpl. destruct (hangs env message h).
  - by exists hs.
  - exists rest. simpl. by rewrite <- IH.
Qed.


Lemma dispatch_run env message s :
  Topic.dispatch env message s
  = (if stalls env message (handlers_of s (topic message)) then Pending else Ok tt,
     log (mjoin (delivery env message
                   <$> reached env message (handlers_of s (topic message)))) s).
Proof.
  pose proof (deliver_reached env message) as Hd. unfold handler_failure in Hd.
  unfold Topic.dispatch. unfold try_catch at 1. unfold bind at 1. unfold get.
  unfold handlers_of.
  destruct (handlers (topics s) !! topic message) as [hs|] eqn:Hhs; simpl.
  - rewrite Hd. by destruct (stalls env message hs).
  - unfold ret. by rewrite log_nil.
Qed.


(** With handlers 1 and 2 subscribed and handler 1 never settling, the
    message reaches handler 1 only. *)
Example stalled_dispatch :
  Topic.dispatch first_hangs message_t (two_subscribers first_hangs)
  = (Pending,
     log [EInvokeSubscriber 1 (JStr "hello") "t" (JNum 7) (JStr "p")]
         (two_subscribers first_hangs)).
Proof. vm_compute. reflexivity. Qed.

Lemma elem_of_reached env message hs h :
  h ∈ reached env message hs → h ∈ hs.
Proof.
  destruct (reached_prefix env message hs) as [rest Hr].
  intros Hin. rewrite Hr. apply elem_of_app. by left.
Qed.

Lemma invoked_is_reached env message s h :
  invocation message h ∈ emitted (Topic.dispatch env message) s →
  h ∈ handlers_of s (topic message).
Proof.
  rewrite (emitted_log _ _
    (mjoin (delivery env message
              <$> reached env message (handlers_of s (topic message))))).
  - intros (l & Hin & Hl)%list_elem_of_join.
    apply list_elem_of_fmap in Hl as (h' & -> & Hh').
    apply elem_of_reached in Hh'.
    unfold delivery in Hin. apply elem_of_cons in Hin as [Heq|Hin].
    + unfold invocation in Heq. by injection Heq as ->.
    + destruct (outcome_of env message h'); try by apply elem_of_nil in Hin.
      by apply list_elem_of_singleton in Hin.
  - by rewrite dispatch_run.
Qed.

(** *** [unsubscribe] with a handler *)

(** X8.  [unsubscribe(t, h)], when [t] has no handler set or when its
    set still holds another handler once [h] is removed, sends nothing to
    the broker and succeeds: [h] is taken out of the set of [t], the other
    sets and [subscriptions] are untouched, and a message for [t]
    dispatched afterwards is not delivered to [h]. *)
Theorem unsubscribe_handler_keeps_others (env : Env) (s : Service)
    (t : string) (h : fnref) :
  (∀ hs, handlers (topics s) !! t = Some hs → JsSet.delete h hs ≠ []) →
  (Topic.unsubscribe env t (Some h) s).1 = Ok tt
  ∧ emitted (Topic.unsubscribe env t (Some h)) s
    = [ELogDebug ("Unsubscribed from topic: " +:+ t)]
  ∧ subscriptions (topics (Topic.unsubscribe env t (Some h) s).2)
    = subscriptions (topics s)
  ∧ (∀ t', t' ≠ t →
       handlers (topics (Topic.unsubscribe env t (Some h) s).2) !! t'
       = handlers (topics s) !! t')
  ∧ handlers_of (Topic.unsubscribe env t (Some h) s).2 t
    = JsSet.delete h (handlers_of s t)
  ∧ ∀ env' message, topic message = t →
      invocation message h
      ∉ emitted (Topic.dispatch env' message)
                (Topic.unsubscribe env t (Some h) s).2.
Proof.
  intros Hothers.
  assert (handlers_of (Topic.unsubscribe env t (Some h) s).2 t
          = JsSet.delete h (handlers_of s t)) as Hset.
  { unfold handlers_of. rewrite unsubscribe_one_topics.
    destruct (handlers (topics s) !! t) as [hs|] eqn:Hhs; [|by rewrite Hhs].
    destruct (length (JsSet.delete h hs) =? 0)%nat eqn:Hlen.
    - apply Nat.eqb_eq, length_zero_iff_nil in Hlen. by apply Hothers in Hlen.
    - simpl. by rewrite lookup_insert_eq. }
  split_and!.
  - unfold Topic.unsubscribe. unfold try_catch at 1. unfold bind at 1.
    unfold bind at 1. unfold get.
    destruct (handlers (topics s) !! t) as [hs|] eqn:Hhs; [|reflexivity].
    unfold bind at 1. unfold modify at 1.
    destruct (length (JsSet.delete h hs) =? 0)%nat eqn:Hlen; [|reflexivity].
    apply Nat.eqb_eq, length_zero_iff_nil in Hlen. by apply Hothers in Hlen.
  - apply emitted_log.
    unfold Topic.unsubscribe. unfold try_catch at 1. unfold bind at 1.
    unfold bind at 1. unfold get.
    destruct (handlers (topics s) !! t) as [hs|] eqn:Hhs; [|reflexivity].
    unfold bind at 1. unfold modify at 1.
    destruct (length (JsSet.delete h hs) =? 0)%nat eqn:Hlen; [|reflexivity].
    apply Nat.eqb_eq, length_zero_iff_nil in Hlen. by apply Hothers in Hlen.
  - rewrite unsubscribe_one_topics.
    destruct (handlers (topics s) !! t) as [hs|] eqn:Hhs; [|done].
    destruct (length (JsSet.delete h hs) =? 0)%nat eqn:Hlen; [|done].
    apply Nat.eqb_eq, length_zero_iff_nil in Hlen. by apply Hothers in Hlen.
  - intros t' Hne. rewrite unsubscribe_one_topics.
    destruct (handlers (topics s) !! t) as [hs|] eqn:Hhs; [|done].
    destruct (length (JsSet.delete h hs) =? 0)%nat eqn:Hlen.
    + apply Nat.eqb_eq, length_zero_iff_nil in Hlen. by apply Hothers in Hlen.
    + simpl. by rewrite lookup_insert_ne.
  - exact Hset.
  - intros env' message <- Hin. apply invoked_is_reached in Hin.
    rewrite Hset in Hin. apply JsSetFacts.elem_of_delete in Hin as [Hne _].
    done.
Qed.

(** The node after [unsubscribe("t", 1)] on two subscribers. *)
Lemma unsubscribe_handler_keeps_others_witness :
  (Topic.unsubscribe obliging "t" (Some 1) (two_subscribers obliging)).1 = Ok tt
  ∧ emitted (Topic.unsubscribe obliging "t" (Some 1)) (two_subscribers obliging)
    = [ELogDebug ("Unsubscribed from topic: " +:+ "t")]
  ∧ subscriptions
      (topics (Topic.unsubscribe obliging "t" (Some 1) (two_subscribers obliging)).2)
    = subscriptions (topics (two_subscribers obliging))
  ∧ (∀ t', t' ≠ "t" →
       handlers
         (topics (Topic.unsubscribe obliging "t" (Some 1)
                    (two_subscribers obliging)).2) !! t'
       = handlers (topics (two_subscribers obliging)) !! t')
  ∧ handlers_of
      (Topic.unsubscribe obliging "t" (Some 1) (two_subscribers obliging)).2 "t"
    = JsSet.delete 1 (handlers_of (two_subscribers obliging) "t")
  ∧ ∀ env' message, topic message = "t" →
      invocation message 1
      ∉ emitted (Topic.dispatch env' message)
                (Topic.unsubscribe obliging "t" (Some 1)
                   (two_subscribers obliging)).2.
Proof.
  apply (unsubscribe_handler_keeps_others obliging (two_subscribers obliging) "t" 1).
  intros hs Hhs. vm_compute in Hhs. injection Hhs as <-. vm_compute. discriminate.
Defined.

(** X9.  [unsubscribe(t, h)] when removing [h] empties the handler set
    of [t]: the remote unsubscribe is sent; once the broker has accepted it,
    [t] has no entry left in either table; when the broker fails or never
    answers, the failure reaches the caller and [t] keeps its entry in both
    tables, with a handler set that is now empty. *)
Theorem unsubscribe_last_handler (env : Env) (s : Service) (t : string)
    (h : fnref) (hs : list fnref) :
  handlers (topics s) !! t = Some hs →
  JsSet.delete h hs = [] →
  (∃ rest, emitted (Topic.unsubscribe env t (Some h)) s
           = unsubscribe_request t :: rest)
  ∧ match transport env (calls s) "broker:unsubscribe" [("topic", JStr t)] with
    | Answer _ =>
        (Topic.unsubscribe env t (Some h) s).1 = Ok tt
        ∧ handlers (topics (Topic.unsubscribe env t (Some h) s).2) !! t = None
        ∧ JsMap.get t (subscriptions (topics (Topic.unsubscribe env t (Some h) s).2))
          = None
    | Fail e =>
        (Topic.unsubscribe env t (Some h) s).1 = Throw e
        ∧ handlers (topics (Topic.unsubscribe env t (Some h) s).2) !! t = Some []
        ∧ subscriptions (topics (Topic.unsubscribe env t (Some h) s).2)
          = subscriptions (topics s)
    | Silent =>
        (Topic.unsubscribe env t (Some h) s).1 = Pending
        ∧ handlers (topics (Topic.unsubscribe env t (Some h) s).2) !! t = Some []
        ∧ subscriptions (topics (Topic.unsubscribe env t (Some h) s).2)
          = subscriptions (topics s)
    end.
Proof.
  intros Hhs Hnil.
  assert (∀ A (x y : A), (if (length (JsSet.delete h hs) =? 0)%nat then x else y) = x)
    as Hif by (intros; by rewrite Hnil).
  pose proof (unsubscribe_one_topics env t h s) as Ht.
  rewrite Hhs, Hif, Hnil in Ht.
  destruct (transport env (calls s) "broker:unsubscribe" [("topic", JStr t)])
    as [v|e|] eqn:Hr.
  - split; [|split_and!].
    + exists [ELogDebug ("Unsubscribed from topic: " +:+ t)]. apply emitted_log.
      unfold Topic.unsubscribe. unfold try_catch at 1. unfold bind at 1.
      unfold bind at 1. unfold get. rewrite Hhs.
      unfold bind at 1. unfold modify at 1. rewrite Hif.
      unfold Topic.unsubscribeFromBroker, try_catch, bind, client_request.
      simpl. rewrite Hr. simpl. by rewrite <- app_assoc.
    + unfold Topic.unsubscribe. unfold try_catch at 1. unfold bind at 1.
      unfold bind at 1. unfold get. rewrite Hhs.
      unfold bind at 1. unfold modify at 1. rewrite Hif.
      unfold Topic.unsubscribeFromBroker, try_catch, bind, client_request.
      simpl. by rewrite Hr.
    + rewrite Ht. simpl. apply lookup_delete_eq.
    + rewrite Ht. simpl. apply JsMap_get_delete.
  - split; [|split_and!].
    + exists [ELogError ("Failed to unsubscribe from broker for topic: " +:+ t) e;
              ELogError ("Failed to unsubscribe from topic: " +:+ t) e].
      apply emitted_log.
      unfold Topic.unsubscribe. unfold try_catch at 1. unfold bind at 1.
      unfold bind at 1. unfold get. rewrite Hhs.
      unfold bind at 1. unfold modify at 1. rewrite Hif.
      unfold Topic.unsubscribeFromBroker, try_catch, bind, client_request.
      simpl. rewrite Hr. simpl. by rewrite <- !app_assoc.
    + unfold Topic.unsubscribe. unfold try_catch at 1. unfold bind at 1.
      unfold bind at 1. unfold get. rewrite Hhs.
      unfold bind at 1. unfold modify at 1. rewrite Hif.
      unfold Topic.unsubscribeFromBroker, try_catch, bind, client_request.
      simpl. by rewrite Hr.
    + rewrite Ht. simpl. apply lookup_insert_eq.
    + by rewrite Ht.
  - split; [|split_and!].
    + exists []. apply emitted_log.
      unfold Topic.unsubscribe. unfold try_catch at 1. unfold bind at 1.
      unfold bind at 1. unfold get. rewrite Hhs.
      unfold bind at 1. unfold modify at 1. rewrite Hif.
      unfold Topic.unsubscribeFromBroker, try_catch, bind, client_request.
      simpl. by rewrite Hr.
    + unfold Topic.unsubscribe. unfold try_catch at 1. unfold bind at 1.
      unfold bind at 1. unfold get. rewrite Hhs.
      unfold bind at 1. unfold modify at 1. rewrite Hif.
      unfold Topic.unsubscribeFromBroker, try_catch, bind, client_request.
      simpl. by rewrite Hr.
    + rewrite Ht. simpl. apply lookup_insert_eq.
    + by rewrite Ht.
Qed.

(** The broker refuses every call. *)
Definition refusing : Env :=
  {| transport := λ _ _ _, Fail "broker down";
     now := λ n, Z.of_nat n;
     subscriber := λ _ _ _ _ _, Returns;
     registered := λ _ p _, Settles 0 (Resolve p);
     timer_delay := λ v, match v with JNum n => Z.to_nat n | _ => 1 end;
     replied := λ _ _, None;
     cannot_read := λ _ property, "Cannot read property " +:+ property |}.

(** The node after [subscribe("t", 1)] with an obliging broker. *)
Definition one_subscriber : Service :=
  (Topic.subscribe obliging "t" 1 Satellite.new).2.

Lemma unsubscribe_last_handler_witness :
  (∃ rest, emitted (Topic.unsubscribe refusing "t" (Some 1)) one_subscriber
           = unsubscribe_request "t" :: rest)
  ∧ (Topic.unsubscribe refusing "t" (Some 1) one_subscriber).1 = Throw "broker down"
  ∧ handlers (topics (Topic.unsubscribe refusing "t" (Some 1) one_subscriber).2)
      !! "t" = Some []
  ∧ subscriptions (topics (Topic.unsubscribe refusing "t" (Some 1) one_subscriber).2)
    = subscriptions (topics one_subscriber).
Proof.
  apply (unsubscribe_last_handler refusing one_subscriber "t" 1 [1]).
  - vm_compute. reflexivity.
  - vm_compute. reflexivity.
Defined.

(** *** [publish] *)

Definition publish_request (t : string) (d : jsval) : effect :=
  ERequest "broker:publish" [("topic", JStr t); ("data", d)].

(** X10.  [publish(t, d)] sends one publish request with the topic and
    the data, whatever the local subscriptions are, and changes no table of
    the node; it succeeds as soon as the broker accepts the request, and a
    failure of the broker reaches the caller with the broker's own error. *)
Theorem publish_forwards (env : Env) (s : Service) (t : string) (d : jsval) :
  topics (Topic.publish env t d s).2 = topics s
  ∧ requests (Topic.publish env t d s).2 = requests s
  ∧ discovery (Topic.publish env t d s).2 = discovery s
  ∧ match transport env (calls s) "broker:publish"
            [("topic", JStr t); ("data", d)] with
    | Answer _ =>
        (Topic.publish env t d s).1 = Ok tt
        ∧ emitted (Topic.publish env t d) s
          = [publish_request t d; ELogDebug ("Published to topic: " +:+ t)]
    | Fail e =>
        (Topic.publish env t d s).1 = Throw e
        ∧ emitted (Topic.publish env t d) s
          = [publish_request t d;
             ELogError ("Failed to publish to topic: " +:+ t) e]
    | Silent =>
        (Topic.publish env t d s).1 = Pending
        ∧ emitted (Topic.publish env t d) s = [publish_request t d]
    end.
Proof.
  split_and!.
  - by apply (publish_keeps _ env t d (blind_topics (λ tm, tm = topics s))).
  - by apply (publish_keeps _ env t d (blind_requests (λ rm, rm = requests s))).
  - by apply (publish_keeps _ env t d (blind_discovery (λ dm, dm = discovery s))).
  - destruct (transport env (calls s) "broker:publish"
                [("topic", JStr t); ("data", d)]) as [v|e|] eqn:Hr.
    + split.
      * unfold Topic.publish, try_catch, bind, client_request. by rewrite Hr.
      * apply emitted_log.
        unfold Topic.publish, try_catch, bind, client_request. rewrite Hr.
        simpl. by rewrite <- app_assoc.
    + split.
      * unfold Topic.publish, try_catch, bind, client_request. by rewrite Hr.
      * apply emitted_log.
        unfold Topic.publish, try_catch, bind, client_request. rewrite Hr.
        simpl. by rewrite <- app_assoc.
    + split.
      * unfold Topic.publish, try_catch, bind, client_request. by rewrite Hr.
      * apply emitted_log.
        unfold Topic.publish, try_catch, bind, client_request. by rewrite Hr.
Qed.

(** *** [cleanup] *)

(** The broker accepts every call. *)
Definition accepting (env : Env) : Prop :=
  ∀ n name fields, ∃ v, transport env n name fields = Answer v.

(** What the full unsubscribe of [t] adds to the trace when it succeeds. *)
Definition unsubscribed (t : string) : list effect :=
  [unsubscribe_request t; ELogDebug ("Unsubscribed from topic: " +:+ t)].

Lemma unsubscribe_all_accepted env t s :
  accepting env →
  (Topic.unsubscribe env t None s).1 = Ok tt
  ∧ topics (Topic.unsubscribe env t None s).2 = dropped t (topics s)
  ∧ trace (Topic.unsubscribe env t None s).2 = trace s ++ unsubscribed t.
Proof.
  intros Hacc.
  destruct (Hacc (calls s) "broker:unsubscribe" [("topic", JStr t)]) as [v Hr].
  split_and!.
  - unfold Topic.unsubscribe, Topic.unsubscribeFromBroker, try_catch, bind,
      client_request. by rewrite Hr.
  - rewrite unsubscribe_all_topics. by rewrite Hr.
  - unfold Topic.unsubscribe, Topic.unsubscribeFromBroker, try_catch, bind,
      client_request. rewrite Hr. simpl. by rewrite <- app_assoc.
Qed.

Lemma cleanup_loop env ts s :
  accepting env →
  (for_each (λ t, Topic.unsubscribe env t None) ts s).1 = Ok tt
  ∧ topics (for_each (λ t, Topic.unsubscribe env t None) ts s).2
    = foldl (λ tm t, dropped t tm) (topics s) ts
  ∧ trace (for_each (λ t, Topic.unsubscribe env t None) ts s).2
    = trace s ++ mjoin (unsubscribed <$> ts).
Proof.
  intros Hacc. revert s. induction ts as [|t ts IH]; intros s.
  - simpl. by rewrite app_nil_r.
  - cbn [for_each]. unfold bind.
    destruct (unsubscribe_all_accepted env t s Hacc) as (Hr & Ht & Htr).
    destruct (Topic.unsubscribe env t None s) as [r s1]. simpl in Hr, Ht, Htr.
    subst r. destruct (IH s1) as (Hr' & Ht' & Htr').
    split_and!; [done| |].
    + rewrite Ht'. simpl. by rewrite Ht.
    + rewrite Htr', Htr. simpl. by rewrite <- app_assoc.
Qed.

Lemma dropped_subscriptions tm ts :
  subscriptions (foldl (λ tm t, dropped t tm) tm ts)
  = foldl (λ m t, JsMap.delete t m) (subscriptions tm) ts.
Proof. revert tm. induction ts as [|t ts IH]; intros tm; [done|]. simpl. by rewrite IH. Qed.

Lemma dropped_handlers tm ts t :
  handlers (foldl (λ tm t, dropped t tm) tm ts) !! t
  = if bool_decide (t ∈ ts) then None else handlers tm !! t.
Proof.
  revert tm. induction ts as [|t' ts IH]; intros tm.
  - cbn [foldl]. rewrite bool_decide_eq_false_2; [done|]. apply not_elem_of_nil.
  - cbn [foldl]. rewrite IH. case_bool_decide as Hin.
    + rewrite bool_decide_eq_true_2; [done|]. by right.
    + simpl. destruct (decide (t = t')) as [->|Hne].
      * rewrite lookup_delete_eq. rewrite bool_decide_eq_true_2; [done|]. left.
      * rewrite lookup_delete_ne by done.
        rewrite bool_decide_eq_false_2; [done|].
        intros [?|?]%elem_of_cons; done.
Qed.

(** X11.  When the broker accepts every call and the two tables have the
    same topics, [cleanup] succeeds, sends one unsubscribe request for each
    topic of [subscriptions], in the order in which the topics were first
    subscribed, and leaves both tables empty. *)
Theorem cleanup_unsubscribes_everything (env : Env) (s : Service) :
  accepting env →
  coherent (topics s) →
  (Topic.cleanup env s).1 = Ok tt
  ∧ emitted (Topic.cleanup env) s
    = mjoin (unsubscribed <$> JsMap.keys (subscriptions (topics s)))
  ∧ subscriptions (topics (Topic.cleanup env s).2) = []
  ∧ handlers (topics (Topic.cleanup env s).2) = ∅.
Proof.
  intros Hacc [Hk _].
  destruct (cleanup_loop env (JsMap.keys (subscriptions (topics s))) s Hacc)
    as (Hr & Ht & Htr).
  unfold Topic.cleanup, bind, get. split_and!.
  - exact Hr.
  - apply emitted_log. unfold Topic.cleanup, bind, get. exact Htr.
  - rewrite Ht, dropped_subscriptions. by apply JsMapFacts.delete_all_keys.
  - rewrite Ht. apply map_eq. intros t. rewrite dropped_handlers, lookup_empty.
    case_bool_decide as Hin; [done|].
    destruct (handlers (topics s) !! t) eqn:E; [|done].
    exfalso. apply Hin, Hk. eauto.
Qed.

Lemma cleanup_unsubscribes_everything_witness :
  (Topic.cleanup obliging (two_subscribers obliging)).1 = Ok tt
  ∧ emitted (Topic.cleanup obliging) (two_subscribers obliging)
    = mjoin (unsubscribed
               <$> JsMap.keys (subscriptions (topics (two_subscribers obliging))))
  ∧ subscriptions (topics (Topic.cleanup obliging (two_subscribers obliging)).2) = []
  ∧ handlers (topics (Topic.cleanup obliging (two_subscribers obliging)).2) = ∅.
Proof.
  apply (cleanup_unsubscribes_everything obliging (two_subscribers obliging)).
  - intros n name fields. by exists JUndefined.
  - apply (subscribe_coherent obliging "t" 2), (subscribe_coherent obliging "t" 1).
    apply coherent_new.
Defined.

End RouterFacts.

(** ** The request coordinator: the other operations *)

Module CoordinatorFacts.
Import TraceFacts RequestFacts KeepFacts.

Lemma emit_each {A} (f : A → effect) (xs : list A) (s : Service) :
  for_each (λ x, emit (f x)) xs s = (Ok tt, log (f <$> xs) s).
Proof.
  revert s. induction xs as [|x xs IH]; intros s.
  - simpl. by rewrite log_nil.
  - cbn [for_each]. unfold bind. rewrite emit_run, IH. by rewrite log_log.
Qed.

(** *** [unregisterMethod] *)

(** X12.  [unregisterMethod(name)] never fails.  It removes the
    registration of [name] and no other; afterwards an inbound call of
    [name] is answered with the not-found error without any handler being
    invoked, and [name] can be registered again.  When [name] was not
    registered, the node is left exactly as it was and nothing is logged. *)
Theorem unregisterMethod_removes (s : Service) (name : string) :
  (Request.unregisterMethod name s).1 = Ok tt
  ∧ methods (requests (Request.unregisterMethod name s).2)
    = delete name (methods (requests s))
  ∧ emitted (Request.unregisterMethod name) s
    = (if bool_decide (is_Some (methods (requests s) !! name))
       then [ELogDebug ("Unregistered method: " +:+ name)] else [])
  ∧ (∀ env context, method context = name →
       emitted (Request.handleIncomingRequest env context)
               (Request.unregisterMethod name s).2
       = failure context (not_found context))
  ∧ (∀ h opts,
       (Request.registerMethod name h opts (Request.unregisterMethod name s).2).1
       = Ok tt)
  ∧ (methods (requests s) !! name = None → Request.unregisterMethod name s = (Ok tt, s)).
Proof.
  assert (methods (requests (Request.unregisterMethod name s).2)
          = delete name (methods (requests s))) as Hm.
  { unfold Request.unregisterMethod, bind, get, modify. simpl.
    by destruct (bool_decide _). }
  split_and!.
  - unfold Request.unregisterMethod, bind, get, modify. simpl.
    by destruct (bool_decide _).
  - exact Hm.
  - apply emitted_log. unfold Request.unregisterMethod, bind, get, modify. simpl.
    destruct (bool_decide _); simpl; [done|by rewrite app_nil_r].
  - intros env context Hc. rewrite handleIncomingRequest_emitted.
    unfold handling. by rewrite Hc, Hm, lookup_delete_eq.
  - intros h opts. unfold Request.registerMethod, bind, get.
    rewrite Hm, lookup_delete_eq.
    by rewrite bool_decide_eq_false_2 by (intros [? ?]; done).
  - intros Hn. unfold Request.unregisterMethod, bind, get, modify. simpl.
    rewrite Hn. rewrite bool_decide_eq_false_2 by (intros [? ?]; done).
    unfold ret, with_requests. cbn beta. rewrite delete_id by done.
    f_equal. by destruct s as [? ? [? ? ?] ? ? ? ? ?].
Qed.

(** *** [sendRequest] *)

(** The timeout that [sendRequest] sends: the one of the options when it
    is truthy, the default of the node otherwise. *)
Definition sent_timeout (opts : gmap string jsval) (s : Service) : jsval :=
  match opts !! "timeout" with
  | Some v => if truthy v then v else JNum (defaultTimeout (requests s))
  | None => JNum (defaultTimeout (requests s))
  end.

Definition broker_request (target : jsval) (m : string) (d timeout : jsval)
    : list (string * jsval) :=
  [("target", target); ("method", JStr m); ("data", d); ("timeout", timeout)].

(** X13.  [sendRequest] sends one ['broker:request'] with the target, the
    method, the data and a timeout: the timeout of the options when that is
    truthy, and the default of the node when the options have none or have a
    falsy one, such as 0.  The answer of the broker is returned as it is, a
    failure is logged and thrown again unchanged, and the tables of the node
    are not touched; in particular nothing is recorded in
    [pendingRequests]. *)
Theorem sendRequest_passes_through (env : Env) (s : Service) (target : jsval)
    (m : string) (d : jsval) (opts : gmap string jsval) :
  requests (Request.sendRequest env target m d opts s).2 = requests s
  ∧ topics (Request.sendRequest env target m d opts s).2 = topics s
  ∧ match transport env (calls s) "broker:request"
            (broker_request target m d (sent_timeout opts s)) with
    | Answer v =>
        (Request.sendRequest env target m d opts s).1 = Ok v
        ∧ emitted (Request.sendRequest env target m d opts) s
          = [ERequest "broker:request"
               (broker_request target m d (sent_timeout opts s))]
    | Fail e =>
        (Request.sendRequest env target m d opts s).1 = Throw e
        ∧ emitted (Request.sendRequest env target m d opts) s
          = [ERequest "broker:request"
               (broker_request target m d (sent_timeout opts s));
             ELogError ("Failed to send request: " +:+ m) e]
    | Silent =>
        (Request.sendRequest env target m d opts s).1 = Pending
        ∧ emitted (Request.sendRequest env target m d opts) s
          = [ERequest "broker:request"
               (broker_request target m d (sent_timeout opts s))]
    end.
Proof.
  assert (Request.request_timeout opts (requests s) = sent_timeout opts s) as Ht.
  { unfold Request.request_timeout, sent_timeout.
    by destruct (opts !! "timeout"). }
  unfold broker_request. rewrite <- Ht.
  split_and!.
  - unfold Request.sendRequest, try_catch, bind, get, client_request.
    by destruct (transport env (calls s) _ _).
  - unfold Request.sendRequest, try_catch, bind, get, client_request.
    by destruct (transport env (calls s) _ _).
  - destruct (transport env (calls s) _ _) as [v|e|] eqn:Hr.
    + split.
      * unfold Request.sendRequest, try_catch, bind, get, client_request.
        by rewrite Hr.
      * apply emitted_log.
        unfold Request.sendRequest, try_catch, bind, get, client_request.
        by rewrite Hr.
    + split.
      * unfold Request.sendRequest, try_catch, bind, get, client_request.
        by rewrite Hr.
      * apply emitted_log.
        unfold Request.sendRequest, try_catch, bind, get, client_request.
        rewrite Hr. simpl. by rewrite <- app_assoc.
    + split.
      * unfold Request.sendRequest, try_catch, bind, get, client_request.
        by rewrite Hr.
      * apply emitted_log.
        unfold Request.sendRequest, try_catch, bind, get, client_request.
        by rewrite Hr.
Qed.

(** A timeout of 0 in the options is replaced by the default. *)
Example zero_timeout_is_default :
  sent_timeout {["timeout" := JNum 0]} Satellite.new = JNum 30000
  ∧ sent_timeout {["timeout" := JNum 5]} Satellite.new = JNum 5.
Proof. vm_compute. done. Qed.

(** X14.  The [request] of the facade takes no options: whatever the
    caller wants, the request it sends carries the default timeout of the
    node. *)
Theorem facade_request_default_timeout (env : Env) (s : Service)
    (target : jsval) (m : string) (d : jsval) :
  ∃ rest,
    emitted (Satellite.request env target m d) s
    = ERequest "broker:request"
        (broker_request target m d (JNum (defaultTimeout (requests s)))) :: rest
    ∧ ∀ name fields, ERequest name fields ∉ rest.
Proof.
  unfold Satellite.request, broker_request.
  destruct (transport env (calls s) "broker:request"
    [("target", target); ("method", JStr m); ("data", d);
     ("timeout", JNum (defaultTimeout (requests s)))]) as [v|e|] eqn:Hr.
  - exists []. split; [|intros ? ? H; by apply elem_of_nil in H].
    apply emitted_log.
    unfold Request.sendRequest, try_catch, bind, get, client_request.
    unfold Request.request_timeout. rewrite lookup_empty. simpl. by rewrite Hr.
  - exists [ELogError ("Failed to send request: " +:+ m) e]. split.
    + apply emitted_log.
      unfold Request.sendRequest, try_catch, bind, get, client_request.
      unfold Request.request_timeout. rewrite lookup_empty. simpl. rewrite Hr.
      simpl. by rewrite <- app_assoc.
    + intros ? ? H. apply list_elem_of_singleton in H. discriminate.
  - exists []. split; [|intros ? ? H; by apply elem_of_nil in H].
    apply emitted_log.
    unfold Request.sendRequest, try_catch, bind, get, client_request.
    unfold Request.request_timeout. rewrite lookup_empty. simpl. by rewrite Hr.
Qed.

(** *** [cleanup] *)

(** X15.  [RequestManager.cleanup] never fails: it rejects every request
    of [pendingRequests] with the service-stopping error, in the order in
    which they were recorded, and leaves [pendingRequests] and [methods]
    empty, so that every inbound call is then answered with the not-found
    error. *)
Theorem cleanup_rejects_and_clears (s : Service) :
  (Request.cleanup s).1 = Ok tt
  ∧ emitted Request.cleanup s
    = (λ r, ERejectPending r "Service stopping")
      <$> JsMap.values (pendingRequests (requests s))
  ∧ methods (requests (Request.cleanup s).2) = ∅
  ∧ pendingRequests (requests (Request.cleanup s).2) = []
  ∧ defaultTimeout (requests (Request.cleanup s).2) = defaultTimeout (requests s)
  ∧ ∀ env context,
      emitted (Request.handleIncomingRequest env context) (Request.cleanup s).2
      = failure context (not_found context).
Proof.
  assert (Request.cleanup s
          = (Ok tt,
             with_requests (λ rm, {| methods := ∅; pendingRequests := [];
                                     defaultTimeout := defaultTimeout rm |})
               (log ((λ r, ERejectPending r "Service stopping")
                     <$> JsMap.values (pendingRequests (requests s))) s)))
    as Hrun.
  { unfold Request.cleanup. unfold bind at 1. unfold get.
    unfold bind. by rewrite emit_each. }
  rewrite Hrun. split_and!; try done.
  - apply emitted_log. by rewrite Hrun.
  - intros env context. rewrite handleIncomingRequest_emitted.
    unfold handling. simpl. by rewrite lookup_empty.
Qed.

(** *** Register, then call *)

(** X16.  After [registerMethod(name, h, opts)] on a free name, an inbound
    call of [name] invokes [h], and no other handler, with the payload and
    the context of the call; unless [h] throws at once, the timer is armed
    with the timeout of [opts], or with the default of the node when [opts]
    has none. *)
Theorem registered_method_is_called (env : Env) (s : Service) (name : string)
    (h : fnref) (opts : gmap string jsval) (context : RequestContext) :
  methods (requests s) !! name = None →
  method context = name →
  ∃ rest,
    emitted (Request.handleIncomingRequest env context)
            (Request.registerMethod name h opts s).2
    = EInvokeMethod h (payload context) context :: rest
    ∧ (∀ e, e ∈ rest → is_invocation e = false)
    ∧ match registered env h (payload context) context with
      | ThrowsNow _ => True
      | _ => ∃ rest',
          rest = ESetTimeout (match opts !! "timeout" with
                              | Some v => v
                              | None => JNum (defaultTimeout (requests s))
                              end) :: rest'
      end.
Proof.
  intros Hfree Hc.
  assert (∃ mi, methods (requests (Request.registerMethod name h opts s).2) !! name
                = Some mi
                ∧ handler mi = h
                ∧ timeout_of mi = match opts !! "timeout" with
                                  | Some v => v
                                  | None => JNum (defaultTimeout (requests s))
                                  end) as (mi & Hmi & Hh & Ht).
  { unfold Request.registerMethod, bind, get.
    rewrite bool_decide_eq_false_2 by (intros [? ?]; congruence).
    simpl. eexists. split; [apply lookup_insert_eq|]. split; [done|].
    unfold timeout_of. simpl.
    destruct (opts !! "timeout") as [v|] eqn:Ho.
    - by erewrite lookup_union_Some_l.
    - rewrite lookup_union_r by done. by rewrite lookup_singleton_eq. }
  rewrite handleIncomingRequest_emitted. unfold handling.
  rewrite Hc, Hmi, Hh, Ht. eexists. split; [reflexivity|].
  destruct (registered env h (payload context) context) as [err|t r|].
  - split; [|done]. intros e Hin. by eapply failure_no_invocation.
  - split; [|eauto]. intros e Hin.
    apply elem_of_cons in Hin as [->|Hin]; [done|].
    by eapply conclusion_no_invocation.
  - split; [|eauto]. intros e Hin.
    apply elem_of_cons in Hin as [->|Hin]; [done|].
    by eapply conclusion_no_invocation.
Qed.

Lemma registered_method_is_called_witness :
  ∃ rest,
    emitted (Request.handleIncomingRequest slow_handler call_slow)
            (Request.registerMethod "slow" 1 {["timeout" := JNum 10]}
               Satellite.new).2
    = EInvokeMethod 1 (payload call_slow) call_slow :: rest
    ∧ (∀ e, e ∈ rest → is_invocation e = false)
    ∧ match registered slow_handler 1 (payload call_slow) call_slow with
      | ThrowsNow _ => True
      | _ => ∃ rest',
          rest = ESetTimeout (match ({["timeout" := JNum 10]} : gmap string jsval)
                                      !! "timeout" with
                              | Some v => v
                              | None => JNum (defaultTimeout (requests Satellite.new))
                              end) :: rest'
      end.
Proof.
  apply (registered_method_is_called slow_handler Satellite.new "slow" 1
           {["timeout" := JNum 10]} call_slow); reflexivity.
Defined.

End CoordinatorFacts.

(** ** Shutdown, step by step *)

Module LifecycleFacts.
Import TraceFacts TopicFacts KeepFacts RouterFacts.

(** *** What [stop] leaves alone *)

Section Untouched.
Variable P : Service → Prop.
Hypothesis P_blind : blind P.
Hypothesis P_topics : ∀ f s, P s → P (with_topics f s).
Hypothesis P_flags : ∀ s, P s → P (Satellite.set_stopped s).

Lemma unsubscribeFromBroker_untouched env t :
  keeps P (Topic.unsubscribeFromBroker env t).
Proof.
  unfold Topic.unsubscribeFromBroker. apply keeps_try_catch.
  - apply keeps_bind; [by apply keeps_client_request|]. intros _.
    apply keeps_modify. intros s. apply P_topics.
  - intros e. apply keeps_bind; [by apply keeps_emit|]. intros _.
    apply keeps_throw.
Qed.

Lemma unsubscribe_untouched env t o : keeps P (Topic.unsubscribe env t o).
Proof.
  unfold Topic.unsubscribe. apply keeps_try_catch.
  - apply keeps_bind; [|intros _; by apply keeps_emit].
    destruct o as [h|]; [|apply unsubscribeFromBroker_untouched].
    apply keeps_bind; [apply keeps_get|]. intros s.
    destruct (handlers (topics s) !! t) as [hs|]; [|apply keeps_ret].
    apply keeps_bind.
    + apply keeps_modify. intros s'. apply P_topics.
    + intros _. destruct (length (JsSet.delete h hs) =? 0)%nat;
        [apply unsubscribeFromBroker_untouched | apply keeps_ret].
  - intros e. apply keeps_bind; [by apply keeps_emit|]. intros _.
    apply keeps_throw.
Qed.

Lemma stop_untouched env : keeps P (Satellite.stop env).
Proof.
  unfold Satellite.stop. apply keeps_try_catch.
  - apply keeps_bind; [by apply keeps_emit|]. intros _.
    apply keeps_bind.
    { unfold Topic.cleanup. apply keeps_bind; [apply keeps_get|]. intros s.
      apply keeps_for_each. intros t. apply unsubscribe_untouched. }
    intros _. apply keeps_bind; [by apply keeps_client_disconnect|]. intros _.
    apply keeps_bind; [apply keeps_modify, P_flags|]. intros _.
    apply keeps_bind; [by apply keeps_emit|]. intros _.
    by apply keeps_emit.
  - intros e. apply keeps_bind; [by apply keeps_emit|]. intros _.
    apply keeps_throw.
Qed.

End Untouched.

(** X17.  [stop] never touches the request manager nor the registry,
    whatever the broker does and whether it succeeds or fails: the methods
    stay registered, [pendingRequests] stays as it is, and the known
    services stay known. *)
Theorem stop_keeps_methods_and_registry (env : Env) (s : Service) :
  requests (Satellite.stop env s).2 = requests s
  ∧ discovery (Satellite.stop env s).2 = discovery s.
Proof.
  split.
  - apply (stop_untouched (λ s', requests s' = requests s));
      [by intros ? ? ? | by intros ? ? | by intros ? | done].
  - apply (stop_untouched (λ s', discovery s' = discovery s));
      [by intros ? ? ? | by intros ? ? | by intros ? | done].
Qed.

(** *** A clean shutdown *)

Lemma bind_ok {A B} (m : M A) (k : A → M B) s a s' :
  m s = (Ok a, s') → bind m k s = k a s'.
Proof. intros H. unfold bind. by rewrite H. Qed.

Lemma disconnect_accepted env s :
  accepting env →
  client_disconnect env s
  = (Ok tt, observed (trace s ++ [EDisconnect]) (S (calls s)) s).
Proof.
  intros Hacc. unfold client_disconnect.
  destruct (Hacc (calls s) "disconnect" []) as [v ->]. reflexivity.
Qed.

(** X18.  When the broker accepts every call and the two tables of the
    topic manager have the same topics, [stop] succeeds: it unsubscribes
    every topic, in order, then disconnects, and only then marks the node as
    not ready, not connected and not identified and emits ['stopped']; both
    tables of the topic manager are empty afterwards. *)
Theorem stop_unsubscribes_then_disconnects (env : Env) (s : Service) :
  accepting env →
  coherent (topics s) →
  (Satellite.stop env s).1 = Ok tt
  ∧ emitted (Satellite.stop env) s
    = ELogInfo "Stopping service..."
      :: mjoin (unsubscribed <$> JsMap.keys (subscriptions (topics s)))
      ++ [EDisconnect; EEmit "stopped"; ELogInfo "Service stopped"]
  ∧ ready (Satellite.stop env s).2 = false
  ∧ connected (Satellite.stop env s).2 = false
  ∧ identified (Satellite.stop env s).2 = false
  ∧ subscriptions (topics (Satellite.stop env s).2) = []
  ∧ handlers (topics (Satellite.stop env s).2) = ∅.
Proof.
  intros Hacc [Hk _].
  pose (s1 := log [ELogInfo "Stopping service..."] s).
  destruct (cleanup_loop env (JsMap.keys (subscriptions (topics s))) s1 Hacc)
    as (Hr & Ht & Htr).
  destruct (for_each (λ t, Topic.unsubscribe env t None)
              (JsMap.keys (subscriptions (topics s))) s1) as [r s2] eqn:Hloop.
  simpl in Hr, Ht, Htr. subst r.
  assert (Satellite.stop env s
          = (Ok tt,
             log [EEmit "stopped"; ELogInfo "Service stopped"]
               (Satellite.set_stopped
                  (observed (trace s2 ++ [EDisconnect]) (S (calls s2)) s2))))
    as Hrun.
  { unfold Satellite.stop. unfold try_catch.
    rewrite (bind_ok _ _ s tt s1) by reflexivity.
    unfold Topic.cleanup.
    rewrite (bind_ok _ _ s1 tt s2).
    2:{ unfold bind at 1. unfold get. exact Hloop. }
    rewrite (bind_ok _ _ s2 tt _ (disconnect_accepted env s2 Hacc)).
    unfold bind, modify, emit, log, with_trace, Satellite.set_stopped. simpl.
    by rewrite <- app_assoc. }
  rewrite Hrun. simpl. split_and!; try done.
  - apply emitted_log. rewrite Hrun. simpl. rewrite Htr. simpl.
    rewrite <- !app_assoc. reflexivity.
  - rewrite Ht, dropped_subscriptions. by apply JsMapFacts.delete_all_keys.
  - rewrite Ht. apply map_eq. intros t. rewrite dropped_handlers, lookup_empty.
    case_bool_decide as Hin; [done|].
    destruct (handlers (topics s1) !! t) eqn:E; [|done].
    exfalso. apply Hin, Hk. eauto.
Qed.

Lemma stop_unsubscribes_then_disconnects_witness :
  (Satellite.stop obliging (two_subscribers obliging)).1 = Ok tt
  ∧ emitted (Satellite.stop obliging) (two_subscribers obliging)
    = ELogInfo "Stopping service..."
      :: mjoin (unsubscribed
                  <$> JsMap.keys (subscriptions (topics (two_subscribers obliging))))
      ++ [EDisconnect; EEmit "stopped"; ELogInfo "Service stopped"]
  ∧ ready (Satellite.stop obliging (two_subscribers obliging)).2 = false
  ∧ connected (Satellite.stop obliging (two_subscribers obliging)).2 = false
  ∧ identified (Satellite.stop obliging (two_subscribers obliging)).2 = false
  ∧ subscriptions (topics (Satellite.stop obliging (two_subscribers obliging)).2) = []
  ∧ handlers (topics (Satellite.stop obliging (two_subscribers obliging)).2) = ∅.
Proof.
  apply (stop_unsubscribes_then_disconnects obliging (two_subscribers obliging)).
  - intros n name fields. by exists JUndefined.
  - apply (subscribe_coherent obliging "t" 2), (subscribe_coherent obliging "t" 1).
    apply coherent_new.
Defined.

(** *** A shutdown that fails *)

(** X19.  When the broker refuses the unsubscribe of the first topic,
    [stop] fails with the error of the broker and goes no further: the
    other topics are not unsubscribed, the transport is not disconnected,
    ['stopped'] is not emitted, and the node keeps its subscriptions and its
    ready, connected and identified marks. *)
Theorem stop_aborts_on_failed_unsubscribe (env : Env) (s : Service)
    (t : string) (ts : list string) (e : thrown) :
  JsMap.keys (subscriptions (topics s)) = t :: ts →
  transport env (calls s) "broker:unsubscribe" [("topic", JStr t)] = Fail e →
  (Satellite.stop env s).1 = Throw e
  ∧ emitted (Satellite.stop env) s
    = [ELogInfo "Stopping service...";
       unsubscribe_request t;
       ELogError ("Failed to unsubscribe from broker for topic: " +:+ t) e;
       ELogError ("Failed to unsubscribe from topic: " +:+ t) e;
       ELogError "Error stopping service" e]
  ∧ topics (Satellite.stop env s).2 = topics s
  ∧ ready (Satellite.stop env s).2 = ready s
  ∧ connected (Satellite.stop env s).2 = connected s
  ∧ identified (Satellite.stop env s).2 = identified s.
Proof.
  intros Hkeys Hr.
  assert (Satellite.stop env s
          = (Throw e,
             observed
               (trace s ++
                [ELogInfo "Stopping service...";
                 unsubscribe_request t;
                 ELogError ("Failed to unsubscribe from broker for topic: " +:+ t) e;
                 ELogError ("Failed to unsubscribe from topic: " +:+ t) e;
                 ELogError "Error stopping service" e])
               (S (calls s)) s)) as Hrun.
  { unfold Satellite.stop, Topic.cleanup. unfold try_catch at 1.
    unfold bind at 1. rewrite emit_run.
    unfold bind at 1. unfold bind at 1. unfold get.
    change (subscriptions (topics (log [ELogInfo "Stopping service..."] s)))
      with (subscriptions (topics s)).
    rewrite Hkeys. cbn [for_each]. unfold bind at 1.
    unfold Topic.unsubscribe, Topic.unsubscribeFromBroker, try_catch, bind,
      client_request.
    simpl. rewrite Hr. simpl.
    unfold throw, emit, modify, with_trace, log, observed, unsubscribe_request.
    simpl. rewrite <- !app_assoc. reflexivity. }
  rewrite Hrun. simpl. split_and!; try done.
  apply emitted_log. by rewrite Hrun.
Qed.

Lemma stop_aborts_on_failed_unsubscribe_witness :
  (Satellite.stop refusing one_subscriber).1 = Throw "broker down"
  ∧ emitted (Satellite.stop refusing) one_subscriber
    = [ELogInfo "Stopping service...";
       unsubscribe_request "t";
       ELogError ("Failed to unsubscribe from broker for topic: " +:+ "t")
         "broker down";
       ELogError ("Failed to unsubscribe from topic: " +:+ "t") "broker down";
       ELogError "Error stopping service" "broker down"]
  ∧ topics (Satellite.stop refusing one_subscriber).2 = topics one_subscriber
  ∧ ready (Satellite.stop refusing one_subscriber).2 = ready one_subscriber
  ∧ connected (Satellite.stop refusing one_subscriber).2 = connected one_subscriber
  ∧ identified (Satellite.stop refusing one_subscriber).2 = identified one_subscriber.
Proof.
  apply (stop_aborts_on_failed_unsubscribe refusing one_subscriber "t" [] "broker down");
    reflexivity.
Defined.

End LifecycleFacts.

(** ** The version check of the constructor *)

Module OptionsFacts.
Import Regex Options.

(** The language of a regular expression. *)
Inductive lang : regex → list ascii → Prop :=
| lang_eps : lang Eps []
| lang_class p c : p c = true → lang (Class p) [c]
| lang_seq r1 r2 s1 s2 : lang r1 s1 → lang r2 s2 → lang (Seq r1 r2) (s1 ++ s2)
| lang_alt_l r1 r2 s : lang r1 s → lang (Alt r1 r2) s
| lang_alt_r r1 r2 s : lang r2 s → lang (Alt r1 r2) s
| lang_star_nil r : lang (Star r) []
| lang_star_cons r s1 s2 : lang r s1 → lang (Star r) s2 → lang (Star r) (s1 ++ s2).

Lemma nullable_lang r : nullable r = true ↔ lang r [].
Proof.
  induction r as [| |p|r1 IH1 r2 IH2|r1 IH1 r2 IH2|r IH]; simpl.
  - split; [done|]. inversion 1.
  - split; [constructor|done].
  - split; [done|]. inversion 1.
  - rewrite andb_true_iff, IH1, IH2. split.
    + intros [H1 H2]. by apply (lang_seq r1 r2 [] []).
    + intros H. remember [] as s eqn:Hs. remember (Seq r1 r2) as r eqn:Hr.
      destruct H as [| |r1' r2' s1 s2 H1 H2| | | |]; try discriminate.
      injection Hr as -> ->.
      apply app_eq_nil in Hs as [-> ->]. done.
  - rewrite orb_true_iff, IH1, IH2. split.
    + intros [?|?]; [by apply lang_alt_l | by apply lang_alt_r].
    + inversion 1; subst; tauto.
  - split; [constructor|done].
Qed.

Lemma deriv_sound r c s : lang (deriv c r) s → lang r (c :: s).
Proof.
  revert s. induction r as [| |p|r1 IH1 r2 IH2|r1 IH1 r2 IH2|r IH];
    intros s; simpl.
  - inversion 1.
  - inversion 1.
  - destruct (p c) eqn:Hp; inversion 1; subst. by constructor.
  - destruct (nullable r1) eqn:Hn.
    + inversion 1 as [| | |? ? ? Hl|? ? ? Hr| |]; subst.
      * inversion Hl as [| |? ? s1 s2 H1 H2| | | |]; subst.
        apply (lang_seq r1 r2 (c :: s1) s2); [by apply IH1|done].
      * apply (lang_seq r1 r2 [] (c :: s)); [by apply nullable_lang|by apply IH2].
    + inversion 1 as [| |? ? s1 s2 H1 H2| | | |]; subst.
      apply (lang_seq r1 r2 (c :: s1) s2); [by apply IH1|done].
  - inversion 1; subst; [apply lang_alt_l; by apply IH1|apply lang_alt_r; by apply IH2].
  - inversion 1 as [| |? ? s1 s2 H1 H2| | | |]; subst.
    apply (lang_star_cons r (c :: s1) s2); [by apply IH|done].
Qed.

Lemma deriv_complete r c s : lang r (c :: s) → lang (deriv c r) s.
Proof.
  intros H. remember (c :: s) as cs eqn:Hcs. revert c s Hcs.
  induction H as [|p c' Hp|r1 r2 s1 s2 H1 IH1 H2 IH2|r1 r2 s' H1 IH1
                 |r1 r2 s' H2 IH2|r|r s1 s2 H1 IH1 H2 IH2];
    intros c s Hcs; simpl.
  - discriminate.
  - injection Hcs as -> <-. rewrite Hp. constructor.
  - destruct s1 as [|c1 s1]; simpl in Hcs.
    + subst s2. rewrite (proj2 (nullable_lang r1) H1).
      apply lang_alt_r. by apply IH2.
    + injection Hcs as -> <-.
      destruct (nullable r1); [apply lang_alt_l|]; constructor; auto.
  - apply lang_alt_l. by apply IH1.
  - apply lang_alt_r. by apply IH2.
  - discriminate.
  - destruct s1 as [|c1 s1]; simpl in Hcs.
    + subst s2. by apply (IH2 c s).
    + injection Hcs as -> <-. constructor; auto.
Qed.

Lemma matches_lang r s : matches r s = true ↔ lang r s.
Proof.
  revert r. induction s as [|c s IH]; intros r; simpl.
  - apply nullable_lang.
  - rewrite IH. split; [apply deriv_sound | apply deriv_complete].
Qed.

(** *** The shape of a version *)

(** A non-empty run of decimal digits. *)
Definition digits (l : list ascii) : Prop :=
  l ≠ [] ∧ Forall (λ c, is_digit c = true) l.

Lemma lang_seq_iff r1 r2 l :
  lang (Seq r1 r2) l ↔ ∃ l1 l2, l = l1 ++ l2 ∧ lang r1 l1 ∧ lang r2 l2.
Proof.
  split.
  - inversion 1; subst. eauto.
  - intros (l1 & l2 & -> & H1 & H2). by constructor.
Qed.

Lemma lang_class_iff p l : lang (Class p) l ↔ ∃ c, l = [c] ∧ p c = true.
Proof.
  split.
  - inversion 1; subst. eauto.
  - intros (c & -> & Hp). by constructor.
Qed.

Lemma lang_star_class p l :
  lang (Star (Class p)) l ↔ Forall (λ c, p c = true) l.
Proof.
  split.
  - intros H. remember (Star (Class p)) as r eqn:Hr.
    induction H as [| | | | | |r' s1 s2 H1 _ H2 IH2]; try discriminate.
    + constructor.
    + injection Hr as ->. apply Forall_app. split; [|by apply IH2].
      apply lang_class_iff in H1 as (c & -> & Hp). by repeat constructor.
  - induction 1 as [|c l Hc _ IH]; [constructor|].
    apply (lang_star_cons (Class p) [c] l); [by constructor|done].
Qed.

Lemma lang_plus_digit l : lang (plus digit) l ↔ digits l.
Proof.
  unfold plus, digit, digits. rewrite lang_seq_iff. split.
  - intros (l1 & l2 & -> & H1 & H2).
    apply lang_class_iff in H1 as (c & -> & Hc).
    apply lang_star_class in H2. split; [done|]. by constructor.
  - intros [Hne Hall]. destruct l as [|c l]; [done|].
    apply Forall_cons in Hall as [Hc Hl].
    exists [c], l. split_and!; [done|by constructor|by apply lang_star_class].
Qed.

Lemma lang_chr c l : lang (chr c) l ↔ l = [c].
Proof.
  unfold chr. rewrite lang_class_iff. split.
  - intros (c' & -> & Heq). apply Ascii.eqb_eq in Heq. by subst.
  - intros ->. exists c. split; [done|]. apply Ascii.eqb_refl.
Qed.

(** X20.  The version test of the constructor, [/^\d+\.\d+\.\d+$/],
    accepts a text exactly when it is made of three non-empty runs of
    decimal digits separated by two dots, with nothing before, between or
    after. *)
Theorem semver_accepts (v : string) :
  test semverRegex v = true
  ↔ ∃ a b c,
      digits a ∧ digits b ∧ digits c
      ∧ String.list_ascii_of_string v = a ++ "."%char :: b ++ "."%char :: c.
Proof.
  unfold test, semverRegex. rewrite matches_lang. split.
  - intros (a & l1 & -> & Ha & H1)%lang_seq_iff.
    apply lang_seq_iff in H1 as (d1 & l2 & -> & Hd1 & H2).
    apply lang_seq_iff in H2 as (b & l3 & -> & Hb & H3).
    apply lang_seq_iff in H3 as (d2 & c & -> & Hd2 & Hc).
    apply lang_chr in Hd1 as ->. apply lang_chr in Hd2 as ->.
    exists a, b, c. by rewrite <- !lang_plus_digit.
  - intros (a & b & c & Ha & Hb & Hc & ->).
    apply lang_plus_digit in Ha, Hb, Hc.
    apply lang_seq. { done. }
    apply (lang_seq _ _ ["."%char]). { by apply lang_chr. }
    apply lang_seq. { done. }
    apply (lang_seq _ _ ["."%char]). { by apply lang_chr. }
    done.
Qed.

(** Accepted and rejected versions. *)
Example semver_examples :
  test semverRegex "1.0.0" = true
  ∧ test semverRegex "10.21.3" = true
  ∧ test semverRegex "1.0" = false
  ∧ test semverRegex "1.0.0-beta" = false
  ∧ test semverRegex "v1.0.0" = false
  ∧ test semverRegex "1..0" = false
  ∧ test semverRegex "" = false.
Proof. vm_compute. done. Qed.

(** *** The required options *)

Lemma missing_nil options :
  missing options = []
  ↔ ∀ f, f ∈ required → truthy (option_of options f) = true.
Proof.
  unfold missing. split.
  - intros Hnil f Hf.
    destruct (truthy (option_of options f)) eqn:Ht; [done|].
    assert (f ∈ filter (λ field, truthy (option_of options field) = false) required)
      as Hin by by apply list_elem_of_filter.
    rewrite Hnil in Hin. by apply elem_of_nil in Hin.
  - intros Hall.
    destruct (filter _ required) as [|f l] eqn:Hf; [done|].
    assert (f ∈ filter (λ field, truthy (option_of options field) = false) required)
      as Hin by (rewrite Hf; left).
    apply list_elem_of_filter in Hin as [Hfalse Hin].
    apply Hall in Hin. congruence.
Qed.

(** X21.  The options pass the validation of the constructor exactly when
    [name], [type], [version] and [brokerUrl] are all truthy (an empty
    string counts as missing) and the text of [version] passes the version
    test.  Otherwise the validation throws: the missing options are reported
    first, all of them, in the order name, type, version, brokerUrl; the
    format of the version is only looked at when nothing is missing. *)
Theorem validateOptions_accepts (ToString : jsval → string)
    (options : gmap string jsval) :
  (validateOptions ToString options = Ok tt
   ↔ (∀ f, f ∈ required → truthy (option_of options f) = true)
     ∧ test semverRegex (ToString (option_of options "version")) = true)
  ∧ (missing options ≠ [] →
     validateOptions ToString options
     = Throw ("Missing required options: " +:+ String.concat ", " (missing options)))
  ∧ (missing options = [] →
     test semverRegex (ToString (option_of options "version")) = false →
     validateOptions ToString options
     = Throw ("Invalid version format: "
              +:+ ToString (option_of options "version")))
  ∧ (∀ f, f ∈ missing options
          ↔ truthy (option_of options f) = false ∧ f ∈ required).
Proof.
  unfold validateOptions. split_and!.
  - rewrite <- missing_nil.
    destruct (missing options) as [|f l]; simpl.
    + destruct (test semverRegex _); simpl; [tauto|].
      split; [done|]. by intros [_ ?].
    + split; [done|]. by intros [? _].
  - intros Hne. by destruct (missing options).
  - intros -> ->. reflexivity.
  - intros f. unfold missing. by rewrite list_elem_of_filter.
Qed.

(** A text of its own for each kind of value, for the examples. *)
Definition text_of (v : jsval) : string :=
  match v with
  | JStr s => s
  | JBool true => "true"
  | JBool false => "false"
  | JNull => "null"
  | JUndefined => "undefined"
  | JNum _ => "0"
  end.

(** The options of the README, the same without a version and with an
    empty name, and the same with a malformed version. *)
Example validateOptions_examples :
  validateOptions text_of
    (list_to_map [("name", JStr "user-service"); ("type", JStr "core");
                  ("version", JStr "1.0.0");
                  ("brokerUrl", JStr "ws://localhost:3000")]) = Ok tt
  ∧ validateOptions text_of
      (list_to_map [("name", JStr EmptyString); ("type", JStr "core");
                    ("brokerUrl", JStr "ws://localhost:3000")])
    = Throw "Missing required options: name, version"
  ∧ validateOptions text_of
      (list_to_map [("name", JStr "user-service"); ("type", JStr "core");
                    ("version", JStr "1.0");
                    ("brokerUrl", JStr "ws://localhost:3000")])
    = Throw "Invalid version format: 1.0".
Proof. vm_compute. done. Qed.

End OptionsFacts.

(** ** The logger: history, counters, colours *)

Module LoggerFacts.
Import Logger.

(** One call of [log]: the level, the message, the data, the time. *)
Definition call : Type := Level * string * Data * Z.

Section LoggerFacts.
Variable toISOString : Z → string.
Variable stringify : jsval → string.
Variable maskSensitive : string → string.

Definition perform (lg : Logger) (c : call) : Logger :=
  let '(l, m, d, t) := c in log toISOString stringify maskSensitive l m d t lg.

(** The logger after a sequence of calls of [log]. *)
Definition after (cs : list call) (lg : Logger) : Logger := foldl perform lg cs.

(** The entry that a call leaves in the history when it is not dropped. *)
Definition entry_of (c : call) : Entry :=
  let '(l, m, d, t) := c in
  {| entry_level := l; message := m; data := d; timestamp := t |}.

(** A call passes when its level is not below the level of the logger. *)
Definition passes (threshold : Level) (c : call) : bool :=
  negb (value (c.1.1.1) <? value threshold)%nat.

Definition passed (threshold : Level) (cs : list call) : list call :=
  filter (λ c, passes threshold c = true) cs.

(** *** The history keeps the latest entries *)

Lemma addToHistory_latest (es : list Entry) (e : Entry) (max : nat) :
  addToHistory e max (drop (length es - max) es)
  = drop (length (es ++ [e]) - max) (es ++ [e]).
Proof.
  unfold addToHistory. rewrite length_app, length_app, length_drop. simpl.
  destruct (decide (max ≤ length es)%nat) as [Hle|Hgt].
  - assert ((max <? length es - (length es - max) + 1)%nat = true) as H1.
    { apply Nat.ltb_lt. lia. }
    assert (length es + 1 - max = (length es - max) + 1) as H2.
    { lia. }
    rewrite H1, H2, <- (drop_drop (es ++ [e])).
    by rewrite (drop_app_le es [e]) by lia.
  - assert (length es - max = 0) as H1.
    { lia. }
    assert (length es + 1 - max = 0) as H2.
    { lia. }
    rewrite H2, H1. simpl.
    assert ((max <? length es - 0 + 1)%nat = false) as H3.
    { apply Nat.ltb_ge. lia. }
    by rewrite H3.
Qed.

Lemma perform_fields lg c :
  options (perform lg c) = options lg
  ∧ maxHistorySize (perform lg c) = maxHistorySize lg
  ∧ namespace (perform lg c) = namespace lg.
Proof.
  destruct c as [[[l m] d] t]. unfold perform, log.
  by destruct (value l <? value (level (options lg)))%nat.
Qed.

Lemma perform_history lg c :
  history (perform lg c)
  = if passes (level (options lg)) c
    then addToHistory (entry_of c) (maxHistorySize lg) (history lg)
    else history lg.
Proof.
  destruct c as [[[l m] d] t]. unfold perform, log, passes. simpl.
  by destruct (value l <? value (level (options lg)))%nat.
Qed.

Lemma after_history (es : list Entry) (cs : list call) (lg : Logger) :
  history lg = drop (length es - maxHistorySize lg) es →
  history (after cs lg)
  = drop (length (es ++ (entry_of <$> passed (level (options lg)) cs))
          - maxHistorySize lg)
         (es ++ (entry_of <$> passed (level (options lg)) cs)).
Proof.
  revert es lg. induction cs as [|c cs IH]; intros es lg Hh.
  - simpl. by rewrite app_nil_r.
  - cbn [after foldl]. fold (after cs (perform lg c)).
    destruct (perform_fields lg c) as (Ho & Hm & _).
    unfold passed. rewrite filter_cons. fold (passed (level (options lg)) cs).
    destruct (passes (level (options lg)) c) eqn:Hp.
    + rewrite decide_True by done. rewrite fmap_cons.
      rewrite (IH (es ++ [entry_of c]) (perform lg c)).
      * rewrite Ho, Hm. by rewrite <- app_assoc.
      * rewrite perform_history, Hp, Hm, Hh. apply addToHistory_latest.
    + rewrite decide_False by done.
      rewrite (IH es (perform lg c)).
      * by rewrite Ho, Hm.
      * by rewrite perform_history, Hp, Hm.
Qed.

(** X22.  After every sequence of calls of [log] on a new logger, the
    history holds the entries of the calls that were not below the level of
    the logger, in order, and only the last 1000 of them: each entry beyond
    the thousandth pushes the oldest one out. *)
Theorem history_keeps_latest (ns : string) (o : Options) (t0 : Z)
    (cs : list call) :
  history (after cs (new ns o t0))
  = drop (length (entry_of <$> passed (level o) cs) - 1000)
         (entry_of <$> passed (level o) cs)
  ∧ (length (history (after cs (new ns o t0))) ≤ 1000)%nat.
Proof.
  assert (history (after cs (new ns o t0))
          = drop (length (entry_of <$> passed (level o) cs) - 1000)
                 (entry_of <$> passed (level o) cs)) as Hh.
  { by rewrite (after_history [] cs (new ns o t0)). }
  split; [exact Hh|]. rewrite Hh, length_drop. lia.
Qed.

(** *** The counters *)

Lemma name_inj l1 l2 : name l1 = name l2 → l1 = l2.
Proof. by destruct l1, l2. Qed.

Lemma get_set_ne {V} (k k' : string) (v : V) m :
  k ≠ k' → JsMap.get k' (JsMap.set k v m) = JsMap.get k' m.
Proof.
  intros Hne. induction m as [|[k0 v0] m IH]; simpl.
  - by rewrite bool_decide_eq_false_2.
  - case_bool_decide as H0; simpl.
    + subst k0. by rewrite !bool_decide_eq_false_2.
    + case_bool_decide; [done|apply IH].
Qed.

(** How many of the calls that passed were at level [l]. *)
Definition count_at (l : Level) (threshold : Level) (cs : list call) : nat :=
  length (filter (λ c, c.1.1.1 = l) (passed threshold cs)).

Definition counter (l : Level) (lg : Logger) : nat :=
  default 0 (JsMap.get (name l) (messagesByLevel (stats lg))).

Lemma perform_stats lg c :
  stats (perform lg c)
  = if passes (level (options lg)) c
    then updateStats (c.1.1.1) (stats lg) else stats lg.
Proof.
  destruct c as [[[l m] d] t]. unfold perform, log, passes. simpl.
  by destruct (value l <? value (level (options lg)))%nat.
Qed.

Lemma counter_updateStats l l' (lg lg' : Logger) :
  stats lg' = updateStats l' (stats lg) →
  counter l lg' = if decide (l' = l) then counter l lg + 1 else counter l lg.
Proof.
  intros Hs. unfold counter. rewrite Hs. simpl.
  destruct (decide (l' = l)) as [->|Hne].
  - by rewrite JsMapFacts.get_set.
  - rewrite get_set_ne; [done|]. intros H. by apply name_inj in H.
Qed.

Lemma after_counters cs lg l :
  counter l (after cs lg) = counter l lg + count_at l (level (options lg)) cs
  ∧ totalMessages (stats (after cs lg))
    = totalMessages (stats lg) + length (passed (level (options lg)) cs).
Proof.
  revert lg. induction cs as [|c cs IH]; intros lg.
  - unfold count_at, passed. simpl. lia.
  - cbn [after foldl]. fold (after cs (perform lg c)).
    destruct (perform_fields lg c) as (Ho & _ & _).
    destruct (IH (perform lg c)) as [IHc IHt]. rewrite IHc, IHt, Ho.
    pose proof (perform_stats lg c) as Hs.
    unfold count_at, passed. rewrite filter_cons.
    destruct (passes (level (options lg)) c) eqn:Hp.
    + rewrite decide_True by done.
      rewrite (counter_updateStats l (c.1.1.1) lg (perform lg c) Hs).
      rewrite Hs. simpl. rewrite filter_cons.
      destruct (decide (c.1.1.1 = l)); simpl;
        (split; [|rewrite <- Nat.add_assoc; reflexivity]);
        [rewrite <- Nat.add_assoc; reflexivity | reflexivity].
    + rewrite decide_False by done.
      unfold counter. rewrite Hs. lia.
Qed.

(** X23.  After every sequence of calls of [log] on a new logger,
    [totalMessages] is the number of calls that were not below the level of
    the logger, however many of their entries the history has dropped since;
    the counter of each level is the number of those calls at that level,
    a level that was never logged having no counter at all; and a call below
    the level of the logger leaves the logger exactly as it was. *)
Theorem counters_count_passed (ns : string) (o : Options) (t0 : Z)
    (cs : list call) :
  totalMessages (stats (after cs (new ns o t0))) = length (passed (level o) cs)
  ∧ (∀ l, JsMap.get (name l) (messagesByLevel (stats (after cs (new ns o t0))))
          = if (count_at l (level o) cs =? 0)%nat then None
            else Some (count_at l (level o) cs))
  ∧ (∀ lg c, passes (level (options lg)) c = false → perform lg c = lg).
Proof.
  split_and!.
  - by destruct (after_counters cs (new ns o t0) Debug) as [_ ->].
  - intros l. destruct (after_counters cs (new ns o t0) l) as [Hc _].
    unfold counter in Hc. simpl in Hc.
    destruct (count_at l (level o) cs) as [|n] eqn:Hn.
    + simpl. destruct (JsMap.get _ _) as [k|] eqn:Hg; [|done].
      exfalso. simpl in Hc. subst k.
      (* a counter that exists was set by [updateStats], hence is positive *)
      assert (∀ cs lg k, (∀ l k, JsMap.get (name l) (messagesByLevel (stats lg))
                                 = Some k → 0 < k) →
                         JsMap.get (name l) (messagesByLevel (stats (after cs lg)))
                         = Some k → 0 < k) as Hpos.
      { clear. intros cs. induction cs as [|c cs IH]; intros lg k Hlg; [apply Hlg|].
        cbn [after foldl]. fold (after cs (perform lg c)). apply IH.
        intros l' k'. rewrite perform_stats.
        destruct (passes _ c); [|apply Hlg]. simpl.
        destruct (decide (c.1.1.1 = l')) as [->|Hne].
        - rewrite JsMapFacts.get_set. intros [= <-]. lia.
        - rewrite get_set_ne by (intros H; by apply name_inj in H). apply Hlg. }
      specialize (Hpos cs (new ns o t0) 0). simpl in Hpos.
      enough (0 < 0) by lia. apply Hpos; [by intros ? ? ?|done].
    + simpl. destruct (JsMap.get _ _) as [k|] eqn:Hg; simpl in Hc.
      * by rewrite Hc.
      * discriminate.
  - intros lg [[[l m] d] t]. unfold passes, perform, log. simpl.
    by destruct (value l <? value (level (options lg)))%nat.
Qed.

(** *** What goes to the file has no colours *)

(** The text holds no escape character. *)
Fixpoint no_esc (s : string) : bool :=
  match s with
  | EmptyString => true
  | String c s => negb (Ascii.eqb c esc) && no_esc s
  end.

(** The options with the colours switched off. *)
Definition plain (o : Options) : Options :=
  {| level := level o; enableColors := false; enableEmoji := enableEmoji o;
     enableTimestamp := enableTimestamp o;
     maskSensitiveData := maskSensitiveData o; logToFile := logToFile o;
     logFilePath := logFilePath o; maxLogSize := maxLogSize o;
     maxLogFiles := maxLogFiles o |}.

(** The text that the data of an entry adds to it. *)
Definition data_text (d : Data) : string :=
  match d with
  | NoData => EmptyString
  | Failure stack => stack
  | Value v => stringify v
  end.

Lemma app_assoc_string (a b c : string) : (a +:+ b) +:+ c = a +:+ (b +:+ c).
Proof.
  induction a as [|x a IH]; [done|].
  change (String x ((a +:+ b) +:+ c) = String x (a +:+ (b +:+ c))).
  by rewrite IH.
Qed.

Lemma app_nil_string (a : string) : a +:+ EmptyString = a.
Proof.
  induction a as [|x a IH]; [done|].
  change (String x (a +:+ EmptyString) = String x a). by rewrite IH.
Qed.

Lemma no_esc_app (a b : string) : no_esc (a +:+ b) = no_esc a && no_esc b.
Proof.
  induction a as [|x a IH]; [done|].
  change (negb (Ascii.eqb x esc) && no_esc (a +:+ b)
          = negb (Ascii.eqb x esc) && no_esc a && no_esc b).
  by rewrite IH, andb_assoc.
Qed.

Lemma ansi_length_other c s : Ascii.eqb c esc = false → ansi_length (String c s) = None.
Proof. intros Hc. destruct s as [|b [|d s]]; simpl; [done..|]. by rewrite Hc. Qed.

Lemma strip_no_esc_app (a b : string) :
  no_esc a = true → strip_from 0 (a +:+ b) = a +:+ strip_from 0 b.
Proof.
  induction a as [|x a IH]; [done|].
  cbn [no_esc]. intros [Hx Ha]%andb_true_iff. apply negb_true_iff in Hx.
  change (String x a +:+ b) with (String x (a +:+ b)).
  cbn [strip_from]. rewrite ansi_length_other by done.
  change (String x a +:+ strip_from 0 b) with (String x (a +:+ strip_from 0 b)).
  by rewrite IH.
Qed.

Lemma strip_no_esc (a : string) : no_esc a = true → stripAnsiColors a = a.
Proof.
  intros Ha. unfold stripAnsiColors.
  rewrite <- (app_nil_string a) at 1. rewrite strip_no_esc_app by done.
  apply app_nil_string.
Qed.

Lemma strip_color l (b : string) : strip_from 0 (color l +:+ b) = strip_from 0 b.
Proof. destruct l; reflexivity. Qed.

Lemma strip_reset (b : string) :
  strip_from 0 (String esc "[0m" +:+ b) = strip_from 0 b.
Proof. reflexivity. Qed.

(** The level with its emoji, without colours. *)
Definition bare_level (o : Options) (l : Level) : string :=
  (if enableEmoji o then emoji l +:+ " " else EmptyString)
  +:+ "[" +:+ label l +:+ "]".

Lemma no_esc_bare_level o l : no_esc (bare_level o l) = true.
Proof. unfold bare_level. by destruct (enableEmoji o), l. Qed.

Lemma level_part_colours o l :
  level_part o l
  = if enableColors o
    then color l +:+ bare_level o l +:+ String esc "[0m"
    else bare_level o l.
Proof.
  unfold level_part, bare_level.
  destruct (enableColors o); [|done]. by rewrite !app_assoc_string.
Qed.

(** What comes before the level in an entry, and what comes after. *)
Definition before_level (o : Options) (ns : string) (ts : Z) : string :=
  (if enableTimestamp o then "[" +:+ toISOString ts +:+ "] " else EmptyString)
  +:+ "[" +:+ ns +:+ "] ".

Definition after_level (msg : string) (d : Data) : string :=
  " " +:+ msg +:+
  match d with
  | NoData => EmptyString
  | _ => " " +:+ newline +:+ data_text d
  end.

Lemma format_parts o ns l msg d ts :
  formatLogEntry toISOString stringify o ns l msg d ts
  = before_level o ns ts +:+ level_part o l +:+ after_level msg d.
Proof.
  unfold formatLogEntry, before_level, after_level.
  destruct (enableTimestamp o), d; cbn [app String.concat data_text];
    rewrite ?app_assoc_string, ?app_nil_string; reflexivity.
Qed.

(** X24.  When the timestamp, the namespace, the message and the text of
    the data hold no escape character, [stripAnsiColors] applied to a
    formatted entry gives the entry as it is formatted with the colours
    switched off: the colour of the level and the reset after it are
    removed, and nothing else is. *)
Theorem stripped_entry_is_plain_entry (o : Options) (ns : string) (l : Level)
    (msg : string) (d : Data) (ts : Z) :
  no_esc (toISOString ts) = true →
  no_esc ns = true →
  no_esc msg = true →
  no_esc (data_text d) = true →
  stripAnsiColors (formatLogEntry toISOString stringify o ns l msg d ts)
  = formatLogEntry toISOString stringify (plain o) ns l msg d ts.
Proof.
  intros Hts Hns Hmsg Hd.
  assert (no_esc (before_level o ns ts) = true) as Hb.
  { unfold before_level. destruct (enableTimestamp o);
      rewrite ?no_esc_app, ?Hts, ?Hns; reflexivity. }
  assert (no_esc (after_level msg d) = true) as Ha.
  { unfold after_level. destruct d; rewrite ?no_esc_app, ?Hmsg, ?Hd; reflexivity. }
  rewrite !format_parts. unfold stripAnsiColors.
  rewrite strip_no_esc_app by done.
  change (before_level (plain o) ns ts) with (before_level o ns ts).
  f_equal. rewrite !level_part_colours.
  change (bare_level (plain o) l) with (bare_level o l).
  change (enableColors (plain o)) with false. cbn iota.
  destruct (enableColors o).
  - rewrite !app_assoc_string, strip_color.
    rewrite strip_no_esc_app by apply no_esc_bare_level.
    change (String esc "[0m" +:+ after_level msg d)
      with (String esc "[0m" +:+ after_level msg d).
    rewrite strip_reset. f_equal. by apply strip_no_esc.
  - apply strip_no_esc. by rewrite no_esc_app, no_esc_bare_level, Ha.
Qed.

End LoggerFacts.

Definition sample_options : Options :=
  {| level := Info; enableColors := true; enableEmoji := true;
     enableTimestamp := true; maskSensitiveData := true; logToFile := true;
     logFilePath := "./logs/Service:x.log"; maxLogSize := 10485760;
     maxLogFiles := 5 |}.

Lemma stripped_entry_is_plain_entry_witness :
  stripAnsiColors
    (formatLogEntry (λ _, "2025-01-01T00:00:00.000Z") (λ _, "null")
       sample_options "Service:x" Error "Failed to send request: ping"
       (Failure "Error: timeout") 0)
  = formatLogEntry (λ _, "2025-01-01T00:00:00.000Z") (λ _, "null")
      (plain sample_options) "Service:x" Error "Failed to send request: ping"
      (Failure "Error: timeout") 0.
Proof.
  apply (stripped_entry_is_plain_entry (λ _, "2025-01-01T00:00:00.000Z")
           (λ _, "null") sample_options "Service:x" Error
           "Failed to send request: ping" (Failure "Error: timeout") 0);
    reflexivity.
Defined.

(** An escape sequence that only appears once another one is removed is
    left in the text: the replacement makes a single pass. *)
Example strip_is_one_pass :
  stripAnsiColors (String esc ("[" +:+ String esc "[0m" +:+ "0m"))
  = String esc "[0m".
Proof. reflexivity. Qed.

End LoggerFacts.

(** ** The state manager *)

Module StateFacts.
Import State.

(** *** The snapshots *)

(** The operations of the state manager that are modelled. *)
Inductive op :=
| Connection (c : bool) (now : Z)
| Discovered (now : Z)
| Metrics (heapUsed heapTotal : Z) (cpu : Z * Z)
| AddTopic (t : string)
| RemoveTopic (t : string)
| TakeSnapshot (now : Z)
| Cleanup.

Definition apply (m : StateManager) (o : op) : StateManager :=
  match o with
  | Connection c now => setBrokerConnection c now m
  | Discovered now => on_service_discovered now m
  | Metrics u t cpu => updateSystemMetrics u t cpu m
  | AddTopic t => addActiveTopic t m
  | RemoveTopic t => removeActiveTopic t m
  | TakeSnapshot now => takeSnapshot now m
  | Cleanup => cleanup m
  end.

Definition run (ops : list op) (m : StateManager) : StateManager :=
  foldl apply m ops.

(** Each snapshot but the first records, as the time of the last snapshot,
    the time of the snapshot before it. *)
Fixpoint linked (h : list Snapshot) : Prop :=
  match h with
  | s1 :: rest =>
      match rest with
      | s2 :: _ => lastSnapshot (uptime (state s2)) = timestamp s1
      | [] => True
      end ∧ linked rest
  | [] => True
  end.

(** The invariant of the history. *)
Definition tidy (m : StateManager) : Prop :=
  (length (history m) ≤ maxHistorySize m)%nat
  ∧ linked (history m)
  ∧ ∀ s, last (history m) = Some s →
         timestamp s = lastSnapshot (uptime (current m)).

Lemma linked_snoc h s :
  linked h →
  (∀ s', last h = Some s' → lastSnapshot (uptime (state s)) = timestamp s') →
  linked (h ++ [s]).
Proof.
  induction h as [|s1 h IH]; intros Hl Hlast; [done|].
  destruct h as [|s2 h].
  - simpl. split; [|done]. by apply Hlast.
  - destruct Hl as [H12 Hl]. split; [done|].
    apply IH; [done|]. intros s' Hs'. by apply Hlast.
Qed.

Lemma linked_drop1 h : linked h → linked (drop 1 h).
Proof. destruct h as [|s h]; [done|]. by intros [_ ?]. Qed.

Lemma last_drop1 (h : list Snapshot) s : last (drop 1 h) = Some s → last h = Some s.
Proof. destruct h as [|s1 [|s2 h]]; done. Qed.

Lemma takeSnapshot_tidy now m : tidy m → tidy (takeSnapshot now m).
Proof.
  intros (Hlen & Hl & Hlast). unfold tidy, takeSnapshot. simpl.
  assert (linked (history m ++ [{| timestamp := now; state := current m |}]))
    as Hl'.
  { apply linked_snoc; [done|]. intros s' Hs'. simpl. symmetry. by apply Hlast. }
  destruct (maxHistorySize m <? length (history m ++ [_]))%nat eqn:Hfull.
  - split_and!.
    + rewrite length_drop, length_app. simpl. lia.
    + by apply linked_drop1.
    + intros s Hs%last_drop1. rewrite last_snoc in Hs. by injection Hs as <-.
  - split_and!.
    + by apply Nat.ltb_ge in Hfull.
    + done.
    + intros s Hs. rewrite last_snoc in Hs. by injection Hs as <-.
Qed.

Lemma apply_tidy m o : tidy m → tidy (apply m o).
Proof.
  destruct o; try done.
  - apply takeSnapshot_tidy.
  - intros (Hlen & _ & _). unfold tidy. simpl. split_and!; [lia|done|done].
Qed.

Lemma apply_max m o : maxHistorySize (apply m o) = maxHistorySize m.
Proof. by destruct o. Qed.

(** X25.  After every sequence of operations on a new state manager, the
    history holds at most 100 snapshots; each snapshot but the oldest
    records, as the time of the last snapshot, the time of the snapshot
    before it, not its own; and the newest snapshot was taken at the time
    that the manager now holds as the time of the last snapshot. *)
Theorem snapshots_bounded_and_linked (start now0 : Z) (ops : list op) :
  (length (history (run ops (new start now0))) ≤ 100)%nat
  ∧ linked (history (run ops (new start now0)))
  ∧ ∀ s, last (history (run ops (new start now0))) = Some s →
         timestamp s = lastSnapshot (uptime (current (run ops (new start now0)))).
Proof.
  assert (tidy (new start now0)) as Hnew.
  { unfold tidy. simpl. split_and!; [lia|done|done]. }
  assert (maxHistorySize (new start now0) = 100) as Hmax by done.
  unfold run. generalize dependent (new start now0).
  induction ops as [|o ops IH]; intros m Hm Hmax.
  - destruct Hm as (Hlen & Hl & Hlast). rewrite Hmax in Hlen. done.
  - simpl. apply IH; [by apply apply_tidy|by rewrite apply_max].
Qed.

(** Snapshots at times 1 to 3: what the second one records. *)
Example snapshot_records_previous_time :
  (λ s, (timestamp s, lastSnapshot (uptime (state s))))
  <$> history (run [TakeSnapshot 1; TakeSnapshot 2; TakeSnapshot 3] (new 0 0))
  = [(1, 0); (2, 1); (3, 2)]%Z.
Proof. reflexivity. Qed.

(** *** [getHistory] *)

Lemma slice_last {A} (k : Z) (l : list A) :
  (0 < k ≤ Z.of_nat (length l))%Z →
  slice_from (- k) l = drop (length l - Z.to_nat k) l.
Proof.
  intros Hk. unfold slice_from.
  assert ((- k <? 0)%Z = true) as -> by (apply Z.ltb_lt; lia).
  f_equal. lia.
Qed.

(** X26.  [getHistory(limit)] pairs each snapshot it returns with its age.
    For a limit of at least 1 it returns the last [limit] snapshots, or all
    of them when there are fewer.  A limit of 0 returns the whole history,
    not an empty list; and a negative limit [-n] returns the history without
    its first [n] snapshots. *)
Theorem getHistory_limit (limit now : Z) (m : StateManager) :
  (∀ s age, (s, age) ∈ getHistory limit now m → age = (now - timestamp s)%Z)
  ∧ ((0 < limit)%Z →
     (getHistory limit now m).*1
     = drop (length (history m) - Z.to_nat limit) (history m))
  ∧ (limit = 0%Z → (getHistory limit now m).*1 = history m)
  ∧ ((limit < 0)%Z →
     (getHistory limit now m).*1 = drop (Z.to_nat (- limit)) (history m)).
Proof.
  assert (∀ l : list Snapshot,
            ((λ snapshot, (snapshot, (now - timestamp snapshot)%Z)) <$> l).*1 = l)
    as Hfst.
  { intros l. induction l as [|s l IH]; [done|]. csimpl. f_equal. exact IH. }
  unfold getHistory. split_and!.
  - intros s age (s' & [= -> ->] & _)%list_elem_of_fmap. done.
  - intros Hpos. rewrite Hfst.
    destruct (decide (history m = [])) as [->|Hne].
    { unfold slice_from. destruct (_ <? _)%Z; by rewrite !drop_nil. }
    assert (0 < length (history m))%nat
      by (destruct (history m); [done|simpl; lia]).
    rewrite slice_last by lia. f_equal. lia.
  - intros ->. rewrite Hfst. unfold slice_from.
    assert (Z.min 0 (Z.of_nat (length (history m))) = 0%Z) as -> by lia.
    change (- 0)%Z with 0%Z. change (0 <? 0)%Z with false. cbv iota.
    assert (Z.to_nat (Z.min 0 (Z.of_nat (length (history m)))) = 0%nat) as ->
      by lia.
    done.
  - intros Hneg. rewrite Hfst. unfold slice_from.
    assert (Z.min limit (Z.of_nat (length (history m))) = limit) as -> by lia.
    assert ((- limit <? 0)%Z = false) as -> by (apply Z.ltb_ge; lia).
    destruct (decide (- limit ≤ Z.of_nat (length (history m)))%Z).
    + f_equal. lia.
    + rewrite !drop_ge by lia. done.
Qed.

Lemma getHistory_limit_witness :
  (getHistory 2 10 (run [TakeSnapshot 1; TakeSnapshot 2; TakeSnapshot 3] (new 0 0))).*1
  = drop (length (history (run [TakeSnapshot 1; TakeSnapshot 2; TakeSnapshot 3]
                             (new 0 0)))
          - Z.to_nat 2)
         (history (run [TakeSnapshot 1; TakeSnapshot 2; TakeSnapshot 3] (new 0 0))).
Proof.
  apply (proj1 (proj2 (getHistory_limit 2 10
    (run [TakeSnapshot 1; TakeSnapshot 2; TakeSnapshot 3] (new 0 0))))).
  reflexivity.
Defined.

(** *** The connection to the broker *)

Definition disconnections (times : list Z) : list op :=
  Connection false <$> times.

Lemma run_app ops1 ops2 m : run (ops1 ++ ops2) m = run ops2 (run ops1 m).
Proof. unfold run. apply foldl_app. Qed.

Lemma run_disconnections times m :
  broker (current (run (disconnections times) m))
  = {| connected := if bool_decide (times = []) then connected (broker (current m))
                    else false;
       lastConnected := lastConnected (broker (current m));
       reconnectAttempts := reconnectAttempts (broker (current m))
                            + Z.of_nat (length times) |}.
Proof.
  revert m. induction times as [|t times IH]; intros m.
  - simpl. destruct (broker (current m)). simpl. f_equal. lia.
  - cbn [disconnections fmap list_fmap run foldl apply].
    fold (disconnections times). fold (run (disconnections times)
      (setBrokerConnection false t m)).
    rewrite IH. simpl. f_equal; [by case_bool_decide|lia].
Qed.

(** X27.  Whatever happened before, after the broker connection is set at
    time [t] and then lost [n] times in a row, [reconnectAttempts] is [n],
    the time of the last connection is still [t], and the broker is marked
    connected exactly when [n] is 0: the counter is reset by each
    connection and counts the disconnections since. *)
Theorem reconnect_attempts_since_connection (ops : list op) (t : Z)
    (times : list Z) (m : StateManager) :
  broker (current (run (ops ++ Connection true t :: disconnections times) m))
  = {| connected := bool_decide (times = []);
       lastConnected := Some t;
       reconnectAttempts := Z.of_nat (length times) |}.
Proof.
  rewrite run_app.
  change (Connection true t :: disconnections times)
    with ([Connection true t] ++ disconnections times).
  rewrite run_app, run_disconnections. simpl. f_equal. by case_bool_decide.
Qed.

(** *** The memory peak *)

(** The [heapUsed] of the calls of [updateSystemMetrics], oldest first. *)
Definition readings (ops : list op) : list Z :=
  omap (λ o, match o with Metrics u _ _ => Some u | _ => None end) ops.

Definition heap (m : StateManager) : Memory := memory (system (current m)).

Lemma foldr_max_out (u p : Z) (l : list Z) :
  foldr Z.max (Z.max u p) l = Z.max u (foldr Z.max p l).
Proof. induction l as [|x l IH]; [done|]. simpl. rewrite IH. lia. Qed.

Lemma run_peak ops m :
  peak (heap (run ops m)) = foldr Z.max (peak (heap m)) (readings ops).
Proof.
  revert m. induction ops as [|o ops IH]; intros m; [done|].
  change (run (o :: ops) m) with (run ops (apply m o)). rewrite IH.
  destruct o; try done.
  change (readings (Metrics heapUsed heapTotal cpu :: ops))
    with (heapUsed :: readings ops).
  simpl. apply foldr_max_out.
Qed.

Lemma run_used ops m :
  (used (heap m) ≤ peak (heap m))%Z →
  (used (heap (run ops m)) ≤ peak (heap (run ops m)))%Z.
Proof.
  revert m. induction ops as [|o ops IH]; intros m Hm; [done|].
  change (run (o :: ops) m) with (run ops (apply m o)). apply IH.
  destruct o; try done. simpl. lia.
Qed.

(** X28.  After every sequence of operations on a new state manager, the
    memory peak is the largest [heapUsed] that [updateSystemMetrics] has
    read so far, and 0 when it has read none; the memory in use, which is
    the last reading, is never above the peak; and neither a snapshot nor
    [cleanup] resets the peak. *)
Theorem peak_is_largest_reading (start now0 : Z) (ops : list op) :
  peak (heap (run ops (new start now0))) = foldr Z.max 0%Z (readings ops)
  ∧ (used (heap (run ops (new start now0)))
     ≤ peak (heap (run ops (new start now0))))%Z
  ∧ (∀ x, x ∈ readings ops → (x ≤ peak (heap (run ops (new start now0))))%Z)
  ∧ (∀ now, peak (heap (run (ops ++ [TakeSnapshot now; Cleanup]) (new start now0)))
            = peak (heap (run ops (new start now0)))).
Proof.
  split_and!.
  - by rewrite run_peak.
  - by apply run_used.
  - rewrite run_peak. simpl. generalize (readings ops). intros l x Hx.
    induction Hx as [x l|x y l _ IH]; simpl; lia.
  - intros now. by rewrite run_app.
Qed.

End StateFacts.
